(** * Coefficient algebra and onion optimisation of SIAB/spillage/api.py

    A shallow embedding of the pure parts of [SIAB/spillage/api.py]
    (the interface between the spillage optimiser and the SIAB driver)
    together with the properties its design document states about them.

    Conventions.
    - Python exceptions are values of [exn]; a function that may raise
      returns [res A].
    - Zeta counts ([nzeta]) are counts of radial functions and are
      modelled as [nat].
    - The coefficient algebra never inspects the numbers it moves around:
      a row [coef[l][z]] (the list over [q]) is an opaque value of a type
      parameter [R]. *)

From Stdlib Require Import ZArith QArith Qround Qabs Ascii DecimalString Sorted.
From Stdlib Require Import Floats.
From stdpp Require Import base list strings gmap.

Set Default Proof Using "Type".

(** ** Python exceptions and the error monad *)

Inductive exn : Type :=
| AssertionError (msg : string)
| IndexError
| ValueError
| TypeError
| AttributeError
| FileNotFoundError
| OverflowError.

Inductive res (A : Type) : Type :=
| Ok (a : A)
| Raise (e : exn).

Arguments Ok {A} a.
Arguments Raise {A} e.

#[global] Instance res_ret : MRet res := @Ok.

#[global] Instance res_bind : MBind res :=
  λ A B f m, match m with Ok a => f a | Raise e => Raise e end.

#[global] Instance res_fmap : FMap res :=
  λ A B f m, match m with Ok a => Ok (f a) | Raise e => Raise e end.

(** [assert c, msg] *)
Definition py_assert (c : bool) (msg : string) : res unit :=
  if c then Ok () else Raise (AssertionError msg).

(** [l[i]] for a non-negative index. *)
Definition getitem {A} (l : list A) (i : nat) : res A :=
  match l !! i with
  | Some x => Ok x
  | None => Raise IndexError
  end.

(** [[f(x) for x in xs]], the elements evaluated from left to right. *)
Fixpoint comprehension {A B} (f : A → res B) (xs : list A) : res (list B) :=
  match xs with
  | [] => Ok []
  | x :: xs' => y ← f x; ys ← comprehension f xs'; Ok (y :: ys)
  end.

(** [[f(i, x) for i, x in enumerate(xs)]], counting from [i]. *)
Fixpoint comprehension_enum {A B} (f : nat → A → res B) (i : nat)
    (xs : list A) : res (list B) :=
  match xs with
  | [] => Ok []
  | x :: xs' =>
      y ← f i x; ys ← comprehension_enum f (S i) xs'; Ok (y :: ys)
  end.

(** [for x in xs: body(x)], for a body that only raises or passes. *)
Fixpoint for_each {A} (body : A → res unit) (xs : list A) : res unit :=
  match xs with
  | [] => Ok ()
  | x :: xs' => _ ← body x; for_each body xs'
  end.

(** [range(lo, hi)] *)
Definition range (lo hi : nat) : list nat := seq lo (hi - lo).

(** ** Formatting of f-strings *)

Definition repr_nat (n : nat) : string :=
  NilEmpty.string_of_uint (Nat.to_uint n).

Fixpoint join (sep : string) (xs : list string) : string :=
  match xs with
  | [] => ""
  | [x] => x
  | x :: xs' => x +:+ sep +:+ join sep xs'
  end.

(** [repr] of a list of integers, as an f-string prints it. *)
Definition repr_list (l : list nat) : string :=
  "[" +:+ join ", " (map repr_nat l) +:+ "]".

(** ** Coefficient algebra *)

(** A channel is the list of zeta rows of one angular momentum; [coef3]
    is indexed [l][z] (rows over [q]), [coef4] is indexed [t][l][z]. *)
Abbreviation channel R := (list R) (only parsing).
Abbreviation coef3 R := (list (list R)) (only parsing).
Abbreviation coef4 R := (list (list (list R))) (only parsing).

Section CoefAlgebra.
Context {R : Type}.

(** [data[l][j]] *)
Definition getitem2 (data : coef3 R) (l j : nat) : res R :=
  ch ← getitem data l; getitem ch j.

Definition size_error_msg (nzeta nzeta0 : list nat) : string :=
  "(at least) size error of nzeta and nzeta0: "
    +:+ repr_nat (length nzeta) +:+ " and " +:+ repr_nat (length nzeta0).

Definition hierarchy_error_msg (nzeta nzeta0 : list nat) : string :=
  "not hirarcal structure of these two nzeta set: "
    +:+ repr_list nzeta0 +:+ " and " +:+ repr_list nzeta.

(** [_coef_subset(nzeta, nzeta0, data)] (api.py, lines 412-444). *)
Definition _coef_subset (nzeta : list nat) (nzeta0 : option (list nat))
    (data : coef3 R) : res (coef4 R) :=
  match nzeta0 with
  | None =>
      chans ← comprehension_enum
                (λ l nz, comprehension (λ iz, getitem2 data l iz) (range 0 nz))
                0 nzeta;
      Ok [chans]
  | Some nzeta0 =>
      _ ← py_assert (bool_decide (length nzeta0 ≤ length nzeta))
            (size_error_msg nzeta nzeta0);
      let nzeta0 := nzeta0 ++ replicate (length nzeta - length nzeta0) 0 in
      _ ← for_each
            (λ '(nz, nz0), py_assert (bool_decide (nz0 ≤ nz))
                             (hierarchy_error_msg nzeta nzeta0))
            (zip nzeta nzeta0);
      let iz_subset := (λ '(iz, jz), range iz jz) <$> zip nzeta0 nzeta in
      chans ← comprehension_enum
                (λ l jz, comprehension (λ j, getitem2 data l j) jz)
                0 iz_subset;
      Ok [chans]
  end.
End CoefAlgebra.


(** ** Merging nested lists *)

(** [nested A d] is a list nested [d] levels deep around lists of [A]:
    the type of the arguments of a depth-[d] merge. *)
Fixpoint nested (A : Type) (d : nat) : Type :=
  match d with
  | 0 => list A
  | S d' => list (nested A d')
  end.

(** Element-wise combination of two lists, for [merge] below; where one
    list is longer its excess elements are kept as they are. *)
Fixpoint zip_long {A} (f : A → A → A) (l1 l2 : list A) : list A :=
  match l1, l2 with
  | [], _ => l2
  | _, [] => l1
  | x :: l1', y :: l2' => f x y :: zip_long f l1' l2'
  end.

(** Modelled from the spec: [SIAB/spillage/listmanip.py], which defines
    [merge], is not among the sources; only its call
    [merge(coef_inner, coefs_shell, 2)] is.  The design document says that
    merge "concatenates a frozen coefficient tensor with a newly optimized
    tensor along the zeta axis, per channel, preserving channel order".
    With the tensors indexed [t][l][z] the zeta axis is at depth 2, so a
    depth-0 merge is concatenation and a depth-(d+1) merge applies the
    depth-d merge element by element; a channel present in only one of the
    two tensors is concatenated with nothing.  The depth comes first
    here because the type of the lists depends on it:
    [merge(l1, l2, depth)] is [merge depth l1 l2]. *)
Fixpoint merge {A} (depth : nat) : nested A depth → nested A depth → nested A depth :=
  match depth with
  | 0 => λ l1 l2, l1 ++ l2
  | S d => zip_long (merge d)
  end.

(** ** Peeling a merged tensor into levels (value semantics) *)

Section Peel.
Context {R : Type}.

(** [[last[l].pop(0) for _ in range(n)]]: the subscript [last[l]] is
    evaluated once for every popped element, so nothing is looked up
    when [n] is zero; [pop] raises on an empty list.  The second
    component is [last] after the pops. *)
Fixpoint pop_front_n (last : coef3 R) (l n : nat) : res (channel R * coef3 R) :=
  match n with
  | 0 => Ok ([], last)
  | S n' =>
      ch ← getitem last l;
      match ch with
      | [] => Raise IndexError
      | x :: ch' =>
          '(xs, last') ← pop_front_n (<[l := ch']> last) l n';
          Ok (x :: xs, last')
      end
  end.

(** One level: the comprehension over [enumerate(nzeta_lvl)], counting
    the channels from [l]. *)
Fixpoint peel_level (last : coef3 R) (l : nat) (nzeta_lvl : list nat)
    : res (coef3 R * coef3 R) :=
  match nzeta_lvl with
  | [] => Ok ([], last)
  | nzeta :: rest =>
      '(ch, last1) ← pop_front_n last l nzeta;
      '(chs, last2) ← peel_level last1 (S l) rest;
      Ok (ch :: chs, last2)
  end.

(** The loop of [_peel]; the list [coef_lvl] is [done ++ [last]], and
    every pass mutates [last] and appends the level just built. *)
Fixpoint peel_loop (done : list (coef3 R)) (last : coef3 R)
    (nzeta_lvls : list (list nat)) : res (list (coef3 R)) :=
  match nzeta_lvls with
  | [] => Ok (done ++ [last])
  | nzeta_lvl :: rest =>
      '(new, last') ← peel_level last 0 nzeta_lvl;
      peel_loop (done ++ [last']) new rest
  end.

(** [_peel(coef, nzeta_lvl_tot)] (api.py, lines 348-366) on values: the
    deep copy is the value itself.  This is what the function returns
    when the list objects of [coef] are distinct, as is proved against
    the store model below, which covers sharing and the effect on the
    caller's object. *)
Definition _peel (coef : coef3 R) (nzeta_lvl_tot : list (list nat))
    : res (list (coef3 R)) :=
  coef_lvl ← peel_loop [] coef (rev nzeta_lvl_tot);
  Ok (rev (tail coef_lvl)).

(** Merging a list of levels in order, innermost first:
    [merge(merge(merge(T1, T2, 1), T3, 1), ...)]. *)
Definition merge_levels (levels : list (coef3 R)) : coef3 R :=
  match levels with
  | [] => []
  | t :: ts => foldl (merge (A:=R) 1) t ts
  end.
End Peel.

(** ** Peeling in a store of list objects *)

(** Python lists are objects in a store: a list object holds numbers and
    references to other list objects, and [pop] and [append] update the
    object in place.  A location is an index into the store; allocation
    appends a new object. *)

Section Store.
Context {F : Type}.

Inductive val : Type :=
| VNum (x : F)
| VRef (a : nat).

(** The store: the list of the items of every list object. *)
Local Abbreviation store := (list (list val)).

(** Computations that read and write the store and may raise.  The store
    reached when an exception is raised is kept: it is what the caller
    of a Python function sees afterwards. *)
Definition M (A : Type) : Type := store → res A * store.

#[export] Instance M_ret : MRet M := λ A x σ, (Ok x, σ).

#[export] Instance M_bind : MBind M :=
  λ A B k m σ,
    match m σ with
    | (Ok x, σ') => k x σ'
    | (Raise e, σ') => (Raise e, σ')
    end.

Definition raise {A} (e : exn) : M A := λ σ, (Raise e, σ).

(** A new list object holding [xs]. *)
Definition alloc (xs : list val) : M nat :=
  λ σ, (Ok (length σ), σ ++ [xs]).

(** The items of the list object at [a].  In Python a reference always
    points to an object; a store where it does not is reported with
    [TypeError]. *)
Definition load (a : nat) : M (list val) :=
  λ σ, match σ !! a with
       | Some xs => (Ok xs, σ)
       | None => (Raise TypeError, σ)
       end.

Definition write (a : nat) (xs : list val) : M unit :=
  λ σ, (Ok (), <[a := xs]> σ).

(** [y.append(v)], [y] the list object at [b] *)
Definition append (b : nat) (v : val) : M unit :=
  xs ← load b; write b (xs ++ [v]).

(** [v[i]] *)
Definition subscript (v : val) (i : nat) : M val :=
  match v with
  | VNum _ => raise TypeError
  | VRef a =>
      xs ← load a;
      match xs !! i with
      | Some x => mret x
      | None => raise IndexError
      end
  end.

(** [v.pop(0)] *)
Definition pop0 (v : val) : M val :=
  match v with
  | VNum _ => raise AttributeError
  | VRef a =>
      xs ← load a;
      match xs with
      | [] => raise IndexError
      | x :: xs' => _ ← write a xs'; mret x
      end
  end.

(** The loop [for x in xs: y.append(deepcopy(x, memo))] of a list copy,
    [copy] being the copy of an item. *)
Fixpoint copy_items (copy : val → gmap nat nat → M (val * gmap nat nat))
    (b : nat) (xs : list val) (memo : gmap nat nat) : M (gmap nat nat) :=
  match xs with
  | [] => mret memo
  | x :: xs' =>
      '(y, memo1) ← copy x memo;
      _ ← append b y;
      copy_items copy b xs' memo1
  end.

(** [copy.deepcopy] on numbers and lists: a number is immutable and is
    returned as it is; a list already copied is looked up in [memo]
    (keyed by object identity); another list gets a new object, which
    is entered in [memo] before its items are copied.  [depth] bounds
    the nesting of lists below [v]: a coefficient tensor has depth 3,
    and an object nested deeper is not one ([TypeError]). *)
Fixpoint deepcopy (depth : nat) (v : val) (memo : gmap nat nat)
    : M (val * gmap nat nat) :=
  match v with
  | VNum _ => mret (v, memo)
  | VRef a =>
      match memo !! a with
      | Some b => mret (VRef b, memo)
      | None =>
          match depth with
          | 0 => raise TypeError
          | S d =>
              xs ← load a;
              b ← alloc [];
              memo' ← copy_items (deepcopy d) b xs (<[a := b]> memo);
              mret (VRef b, memo')
          end
      end
  end.

(** [[last[l].pop(0) for _ in range(n)]], the items only *)
Fixpoint pops (last : val) (l n : nat) : M (list val) :=
  match n with
  | 0 => mret []
  | S n' =>
      ch ← subscript last l;
      x ← pop0 ch;
      xs ← pops last l n';
      mret (x :: xs)
  end.

(** The comprehension over [enumerate(nzeta_lvl)], the items only: every
    channel is a new list object. *)
Fixpoint level_store (last : val) (l : nat) (nzeta_lvl : list nat)
    : M (list val) :=
  match nzeta_lvl with
  | [] => mret []
  | nzeta :: rest =>
      xs ← pops last l nzeta;
      c ← alloc xs;
      cs ← level_store last (S l) rest;
      mret (VRef c :: cs)
  end.

(** The loop of [_peel]; [coef_lvl] is a local list and is kept as a
    list of references. *)
Fixpoint loop_store (coef_lvl : list val) (nzeta_lvls : list (list nat))
    : M (list val) :=
  match nzeta_lvls with
  | [] => mret coef_lvl
  | nzeta_lvl :: rest =>
      match last coef_lvl with
      | None => raise IndexError
      | Some lst =>
          chans ← level_store lst 0 nzeta_lvl;
          new ← alloc chans;
          loop_store (coef_lvl ++ [VRef new]) rest
      end
  end.

(** [_peel(coef, nzeta_lvl_tot)] (api.py, lines 348-366) in the store:
    the result is the list of references to the level objects. *)
Definition _peel_store (coef : val) (nzeta_lvl_tot : list (list nat))
    : M (list val) :=
  '(c, _) ← deepcopy 3 coef ∅;
  coef_lvl ← loop_store [c] (rev nzeta_lvl_tot);
  mret (rev (tail coef_lvl)).

(** Reading a nested list back from the store. *)
Definition read_list (σ : store) (v : val) : option (list val) :=
  match v with
  | VRef a => σ !! a
  | VNum _ => None
  end.

Definition read_num (v : val) : option F :=
  match v with
  | VNum x => Some x
  | VRef _ => None
  end.

Definition read_row (σ : store) (v : val) : option (list F) :=
  xs ← read_list σ v; mapM read_num xs.

Definition read_channel (σ : store) (v : val) : option (list (list F)) :=
  xs ← read_list σ v; mapM (read_row σ) xs.

Definition read_coef3 (σ : store) (v : val) : option (coef3 (list F)) :=
  xs ← read_list σ v; mapM (read_channel σ) xs.
End Store.

Arguments val F : clear implicits.
Arguments M F A : clear implicits.

Abbreviation store F := (list (list (val F))).

(** ** The initial guess and the onion optimisation *)

(** The dictionary built by [_make_guess]: the keys [nzeta] and
    [diagnosis], and [outdir] for a jy basis or [orb_mat] for a pw basis
    (["orb_mat" not in guess] tells which). *)
Inductive guess : Type :=
| GuessJy (nzeta : list Z) (diagnosis : bool) (outdir : string)
| GuessPw (nzeta : list Z) (diagnosis : bool) (orb_mat : string).

(** [xs[lo:hi]] for non-negative bounds *)
Definition slice {A} (xs : list A) (lo hi : nat) : list A :=
  take (hi - lo) (drop lo xs).

Definition newline : string := String "010"%char EmptyString.

Definition no_band_msg (ib : list (list nat)) : string :=
  "ERROR: no band index found: "
    +:+ ("[" +:+ join ", " (map repr_list ib) +:+ "]") +:+ "." +:+ newline
    +:+ "This may happen for two reasons:" +:+ newline
    +:+ "1. not enough bands can be used to generate initial guess => increase the number of bands to calculate "
    +:+ newline
    +:+ "   for atomic guess (monomer)." +:+ newline
    +:+ "2. two levels of orbitals are actually identical => check the zeta_notation and nbands_ref setting in"
    +:+ newline
    +:+ "   input.".

(** The band indexes of the new zeta functions, for every spin: the two
    comprehensions of [_coef_guess] that slice the band lists [ib] and
    flatten them. *)
Definition pick_bands (nzeta excluded : list nat) (ib : list (list (list nat)))
    : res (list (list nat)) :=
  ib ← comprehension
         (λ ibsp : list (list nat),
            comprehension_enum
              (λ l '(nz, nz0),
                 bands ← getitem ibsp l;
                 Ok (slice bands ((2 * l + 1) * nz0) ((2 * l + 1) * nz)))
              0 (zip nzeta excluded))
         ib;
  Ok (map (λ ibsp : list (list nat), concat ibsp) ib).

Section Onion.
(** A row of coefficients, the band indexes of a shell and the options
    of the optimiser are passed around and never inspected. *)
Context {R Bands Options : Type}.

(** What this module imports and calls: the two initial-guess
    generators of [SIAB.spillage.spillage], given the dictionary they
    are called with ([initgen_jy] also its [ibands] and [nzeta]
    entries); [os.path.dirname]; the band analysis of the monomer run,
    which reads the files of a folder; and the method [opt] of the
    minimizer. *)
Variable initgen_jy : guess → list nat → list Z → res (coef3 R).
Variable initgen_pw : guess → res (coef3 R).
Variable dirname : string → string.
Variable _nzeta_analysis : string → res (list (list (list nat))).
Variable opt :
  coef4 R → option (coef4 R) → list nat → Bands → Options → nat → res (coef4 R).

(** [_coef_guess(guess, nzeta, excluded)] (api.py, lines 368-410). *)
Definition _coef_guess (g : guess) (nzeta : list nat)
    (excluded : option (list nat)) : res (coef4 R) :=
  match g with
  | GuessJy _ _ outdir =>
      let excluded := default (replicate (length nzeta) 0) excluded in
      ib ← _nzeta_analysis (dirname outdir);
      _ ← py_assert (bool_decide (0 < length ib)) "ERROR: no band index found";
      ib ← pick_bands nzeta excluded ib;
      ib0 ← getitem ib 0;
      _ ← py_assert (bool_decide (0 < length ib0)) (no_band_msg ib);
      let _nzeta := (λ '(nz, nz0), (Z.of_nat nz - Z.of_nat nz0)%Z)
                      <$> zip nzeta excluded in
      coef_init ← initgen_jy g ib0 _nzeta;
      Ok [coef_init]
  | GuessPw _ _ _ =>
      coef_init ← initgen_pw g;
      _coef_subset nzeta excluded coef_init
  end.

(** The body of the loop of [_do_onion_opt] for shell [iorb], and the
    loop over the zipped arguments. *)
Fixpoint onion_loop (nzeta : list (list nat)) (deps : list (option nat))
    (nthreads : nat) (options : Options) (g : guess)
    (coefs : list (option (coef4 R))) (iorb : nat)
    (shells : list (option nat * (list nat * (list nat * Bands))))
    : res (list (option (coef4 R))) :=
  match shells with
  | [] => Ok coefs
  | (index_, (nzeta_, (iconfs_, ibands_))) :: rest =>
      nzeta_inner ← match index_ with
                     | None => Ok None
                     | Some i => Some <$> getitem nzeta i
                     end;
      coef_init ← _coef_guess g nzeta_ nzeta_inner;
      dep ← getitem deps iorb;
      coef_inner ← match dep with
                    | None => Ok None
                    | Some i => getitem coefs i
                    end;
      coefs_shell ← opt coef_init coef_inner iconfs_ ibands_ options nthreads;
      let coefs_iorb :=
        match coef_inner with
        | Some inner => merge (A:=R) 2 inner coefs_shell
        | None => coefs_shell
        end in
      onion_loop nzeta deps nthreads options g
        (<[iorb := Some coefs_iorb]> coefs) (S iorb) rest
  end.

(** [_do_onion_opt(minimizer, nzeta, iconfs, ibands, deps, nthreads,
    options, guess)] (api.py, lines 260-311).  A dependency is the
    index of a shell in the list; an entry of the result is [None]
    where the loop, which stops at the shortest of its lists, did not
    reach the shell. *)
Definition _do_onion_opt (nzeta : list (list nat)) (iconfs : list (list nat))
    (ibands : list Bands) (deps : list (option nat)) (nthreads : nat)
    (options : Options) (g : guess) : res (list (option (coef4 R))) :=
  let norb := length nzeta in
  let coefs := replicate norb None in
  onion_loop nzeta deps nthreads options g coefs 0
    (zip deps (zip nzeta (zip iconfs ibands))).
End Onion.

(** ** Zeta-count inference *)

(** The floats of Python and the [float64] of NumPy are IEEE 754
    binary64 numbers: the primitive floats of the kernel, whose sums,
    products and quotients round to the nearest binary64 number as the
    machine does, and whose comparisons are false on a NaN.  The mean
    of no configurations, which NumPy returns as a scalar NaN, is
    [FloatNaN]. *)

(** [float(n)] for a count [n] *)
Definition float_of_nat (n : nat) : float :=
  PrimFloat.of_uint63 (Uint63.of_Z (Z.of_nat n)).

(** Two to the power [e], and the rational number that a finite float
    denotes: its sign, mantissa and exponent are read off and nothing is
    rounded. *)
Definition Qpow2 (e : Z) : Q :=
  match e with
  | Z0 => 1%Q
  | Zpos p => inject_Z (2 ^ Zpos p)
  | Zneg p => (1 # (2 ^ p))%Q
  end.

Definition float_value (x : float) : option Q :=
  match Prim2SF x with
  | S754_zero _ => Some 0%Q
  | S754_finite s m e =>
      Some (inject_Z (if s then Zneg m else Zpos m) * Qpow2 e)%Q
  | S754_infinity _ | S754_nan => None
  end.

(** [int(np.ceil(x))]: [int] raises [ValueError] on a NaN and
    [OverflowError] on an infinity. *)
Definition float_ceil (x : float) : res Z :=
  match float_value x with
  | Some q => Ok (Qceiling q)
  | None => if is_nan x then Raise ValueError else Raise OverflowError
  end.

(** The sum of rational numbers, for the weights of the band analysis
    below. *)
Definition Qsum (xs : list Q) : Q := foldr Qplus 0%Q xs.

(** [np.resize(a, n)] for a one-dimensional array: a longer array is
    filled with repeated copies of [a] (with zeros when [a] is empty). *)
Definition np_resize (a : list float) (n : nat) : list float :=
  match a with
  | [] => replicate n 0%float
  | _ => take n (concat (replicate n a))
  end.

(** [a + b] for one-dimensional arrays, with broadcasting of length 1. *)
Definition np_add (a b : list float) : res (list float) :=
  if bool_decide (length a = length b) then Ok (zip_with PrimFloat.add a b)
  else match a, b with
       | [x], _ => Ok (map (PrimFloat.add x) b)
       | _, [y] => Ok (map (λ x, x + y)%float a)
       | _, _ => Raise ValueError
       end.

(** Column [i] of a list of rows of the same length. *)
Definition column (rows : list (list float)) (i : nat) : list float :=
  omap (λ row : list float, row !! i) rows.

(** [np.maximum(a, b)]: [a] when it is a NaN or at least [b], and [b]
    otherwise, so that a NaN goes through; and the maximum of a
    non-empty list, as [np.max] folds it. *)
Definition np_maximum (a b : float) : float :=
  if (b <=? a)%float || is_nan a then a else b.

Definition float_max_list (x : float) (xs : list float) : float :=
  foldl np_maximum x xs.

(** The sum of a list in the order of its entries, each addition
    rounded.  The vectors of [_nzeta_infer] hold no negative zero, so
    that starting from the first entry or from a zero is the same. *)
Definition float_sum (xs : list float) : float :=
  match xs with
  | [] => 0%float
  | x :: xs => foldl PrimFloat.add x xs
  end.

(** [np.max(rows, axis=0)] and [np.mean(rows, axis=0)] for [rows] of
    length [n] each, at least one row: the mean adds the rows one after
    the other and divides the sum by their number. *)
Definition np_max_axis0 (n : nat) (rows : list (list float)) : list float :=
  (λ i, match column rows i with
        | [] => 0%float
        | x :: xs => float_max_list x xs
        end) <$> seq 0 n.

Definition np_mean_axis0 (n : nat) (rows : list (list float)) : list float :=
  (λ i, (float_sum (column rows i) / float_of_nat (length rows))%float)
    <$> seq 0 n.

(** A result that is a list of floats, or the scalar NaN; and the list
    of integers that an orbital gives for its [nzeta]. *)
Inductive floats : Type :=
| FloatList (xs : list float)
| FloatNaN
| IntList (ns : list Z).

(** The band count asked for: an integer, or one of the strings ["occ"]
    and ["all"], for which ['n' + nband] names the number of occupied
    bands and the number of all bands. *)
Inductive nband_spec : Type :=
| NbandInt (n : Z)
| NbandOcc
| NbandAll.

(** The [nbands] argument of [_nzeta_mean_conf]: one band count for all
    folders, or a list. *)
Inductive nbands_arg : Type :=
| NbandsOne (nband : nband_spec)
| NbandsList (nbands : list nband_spec).

(** [[nbands_ref] if not isinstance(nbands_ref, list) else nbands_ref] *)
Definition nbands_as_list (nbands_ref : nbands_arg) : list nband_spec :=
  match nbands_ref with
  | NbandsOne nband => [nband]
  | NbandsList nbands => nbands
  end.

Definition repr_Z (z : Z) : string := NilZero.string_of_int (Z.to_int z).

Definition nbands_error_msg (nband : Z) (ncalculated : nat) : string :=
  "ERROR: number of bands for orbgen is larger than calculated: "
    +:+ repr_Z nband +:+ " > " +:+ repr_nat ncalculated.

Definition nspin_error_msg (nspin running_nspin : nat) : string :=
  "nspin in INPUT and running_scf.log are different: "
    +:+ repr_nat nspin +:+ " and " +:+ repr_nat running_nspin.

Definition natom_error_msg (natom : list nat) : string :=
  "multiple atom types are not supported: " +:+ repr_list natom.

Section Inference.
(** A k-point, the wavefunction coefficients of one (spin, k-point)
    and its overlap matrix, as the parsers of [SIAB.spillage.datparse]
    return them. *)
Context {K Wfc Ovlp : Type} `{EqDecision K}.

(** One [WFC_NAO_*] file: the coefficients, their second dimension
    [wfc.shape[1]] (the number of computed bands) and the k-point. *)
Record wfc_file : Type := {
  wfc : Wfc;
  wfc_nbands : nat;
  wfc_kpt : K;
}.

(** What [_nzeta_infer] reads from the files of a folder before its
    loop ([INPUT], the running log, [istate.info]), and the files it
    reads in the loop, indexed by [isk]. *)
Record run_data : Type := {
  input_nspin : nat;
  running_nspin : nat;
  running_wk : list float;
  running_natom : list nat;
  running_nzeta : list (list nat);
  istate_kpts : list K;
  istate_occ : list (list (list float));
  wfc_files : list wfc_file;
  ovlp_files : list Ovlp;
}.

(** The parsers applied to a folder, and the population analysis of
    [SIAB.spillage.lcao_wfc_analysis] (its first result: the values
    [sigma_l] of every angular momentum). *)
Variable read_folder : string → res run_data.
Variable wfc_analysis_api :
  Wfc → Ovlp → list nat → list (list nat) → string → Z → float
  → list (list float).

(** A missing file *)
Definition read_file {A} (files : list A) (i : nat) : res A :=
  match files !! i with
  | Some f => Ok f
  | None => Raise FileNotFoundError
  end.

(** [np.where(np.all(kpts == kpt, axis=1))[0][0]] *)
Definition kpt_index (kpts : list K) (kpt : K) : res nat :=
  match list_find (λ k, k = kpt) kpts with
  | Some (i, _) => Ok i
  | None => Raise IndexError
  end.

(** [len(np.where(np.abs(sigma_l) > svd_thr)[0])] *)
Definition count_above (svd_thr : float) (sigma_l : list float) : nat :=
  length (filter (λ s, Is_true (svd_thr <? abs s)%float) sigma_l).

(** The body of the loop of [_nzeta_infer] for [isk]; the state is the
    pair of [nzeta] and [nband], which the loop assigns. *)
Definition infer_step (run : run_data) (pop : string) (svd_thr : float)
    (isk : nat) (st : list float * nband_spec)
    : res (list float * nband_spec) :=
  let '(nzeta, nband) := st in
  let nspin := input_nspin run in
  let wk := running_wk run in
  let ik := (isk mod length wk)%nat in
  let is_ := (isk mod nspin)%nat in
  w ← getitem wk ik;
  f ← read_file (wfc_files run) isk;
  ik_ ← kpt_index (istate_kpts run) (wfc_kpt f);
  occ_s ← getitem (istate_occ run) is_;
  occ_sk ← getitem occ_s ik_;
  let nocc := length (filter (λ o, Is_true (0 <? o)%float) occ_sk) in
  let nall := length occ_sk in
  let nband := match nband with
               | NbandInt n => n
               | NbandOcc => Z.of_nat nocc
               | NbandAll => Z.of_nat nall
               end in
  _ ← py_assert (bool_decide (nband ≤ Z.of_nat (wfc_nbands f))%Z)
        (nbands_error_msg nband (wfc_nbands f));
  ovlp ← read_file (ovlp_files run) isk;
  let nz := (λ sigma_l, float_of_nat (count_above svd_thr sigma_l))
              <$> wfc_analysis_api (wfc f) ovlp (running_natom run)
                    (running_nzeta run) pop nband svd_thr in
  nzeta ← np_add (np_resize nzeta (length nzeta `max` length nz))
            ((λ x, x * w / float_of_nat nspin)%float <$> nz);
  Ok (nzeta, NbandInt nband).

Fixpoint infer_loop (run : run_data) (pop : string) (svd_thr : float)
    (isks : list nat) (st : list float * nband_spec)
    : res (list float * nband_spec) :=
  match isks with
  | [] => Ok st
  | isk :: rest =>
      st' ← infer_step run pop svd_thr isk st;
      infer_loop run pop svd_thr rest st'
  end.

(** [_nzeta_infer(folder, nband, pop, svd_thr)] (api.py, lines 675-747). *)
Definition _nzeta_infer (folder : string) (nband : nband_spec) (pop : string)
    (svd_thr : float) : res (list float) :=
  run ← read_folder folder;
  let nspin := input_nspin run in
  _ ← py_assert (bool_decide (nspin = running_nspin run))
        (nspin_error_msg nspin (running_nspin run));
  let wk := running_wk run in
  '(nzeta, _) ← infer_loop run pop svd_thr (range 0 (nspin * length wk))
                  ([0%float], nband);
  _ ← py_assert (bool_decide (length (running_natom run) = 1%nat))
        (natom_error_msg (running_natom run));
  Ok nzeta.

(** [nz.reshape(max_shape)] for one-dimensional arrays *)
Definition np_reshape (n : nat) (nz : list float) : res (list float) :=
  if bool_decide (length nz = n) then Ok nz else Raise ValueError.

(** [_nzeta_mean_conf(nbands, folders, statistics, pop)] (api.py, lines
    632-673). *)
Definition _nzeta_mean_conf (nbands : nbands_arg) (folders : list string)
    (statistics : string) (pop : string) : res floats :=
  _ ← py_assert (bool_decide (statistics ∈ ["max"; "mean"])) "";
  let nbands := match nbands with
                | NbandsOne nband => replicate (length folders) nband
                | NbandsList nbands => nbands
                end in
  nzeta ← comprehension
            (λ '(folder, nband), _nzeta_infer folder nband pop 1%float)
            (zip folders nbands);
  let max_shape := foldl Nat.max 0%nat (length <$> nzeta) in
  nzeta ← comprehension (np_reshape max_shape) nzeta;
  match nzeta with
  | [] => if bool_decide (statistics = "max") then Raise ValueError
          else Ok FloatNaN
  | _ => if bool_decide (statistics = "max")
         then Ok (FloatList (np_max_axis0 max_shape nzeta))
         else Ok (FloatList (np_mean_axis0 max_shape nzeta))
  end.

(** The settings of one orbital that the inference reads: [nzeta]
    ([None] for ["auto"]), [nbands_ref] and [folder]. *)
Record orbparam : Type := {
  orb_nzeta : option (list Z);
  orb_nbands_ref : nbands_arg;
  orb_folder : list nat;
}.

(** [[int(np.ceil(nz)) for nz in nzeta_orb]]; for an integer the result
    is the integer (a zeta count is far below 2^53, up to where the
    conversion to binary64 is exact). *)
Definition ceil_all (nzeta_orb : floats) : res (list Z) :=
  match nzeta_orb with
  | FloatList xs => comprehension float_ceil xs
  | FloatNaN => Raise TypeError
  | IntList ns => Ok ns
  end.

(** The inference of [nzeta] in [_coef_opt_jy] (api.py, lines 134-147):
    the zeta counts of every orbital, as integers. *)
Definition _coef_opt_jy_nzeta (orbparams : list orbparam)
    (folders : list (list string)) : res (list (list Z)) :=
  let nbands_ref := (λ orb, nbands_as_list (orb_nbands_ref orb)) <$> orbparams in
  nbands_ref ← comprehension_enum
                 (λ iorb orb,
                    comprehension
                      (λ i, ref ← getitem nbands_ref iorb;
                            fs ← getitem folders i;
                            Ok (concat (replicate (length fs) ref)))
                      (orb_folder orb))
                 0 orbparams;
  nzeta ← comprehension_enum
            (λ iorb orb,
               match orb_nzeta orb with
               | Some nz => Ok (IntList nz)
               | None =>
                   nbands ← getitem nbands_ref iorb;
                   fs ← comprehension (getitem folders) (orb_folder orb);
                   _nzeta_mean_conf (NbandsList (concat nbands)) (concat fs)
                     "max" "svd-aniso-svd"
               end)
            0 orbparams;
  comprehension ceil_all nzeta.
End Inference.

(** ** Discovery of the overlap-matrix files *)

(** Regular expressions over characters, with Brzozowski derivatives.
    Only the truth value of [re.match] is used by [_orb_matrices]: whether
    some prefix of the string matches. *)
Inductive regex : Type :=
| Void
| Eps
| Chr (p : ascii → bool)
| Seq (r1 r2 : regex)
| Alt (r1 r2 : regex)
| Star (r : regex).

Fixpoint nullable (r : regex) : bool :=
  match r with
  | Void => false
  | Eps => true
  | Chr _ => false
  | Seq r1 r2 => nullable r1 && nullable r2
  | Alt r1 r2 => nullable r1 || nullable r2
  | Star _ => true
  end.

Fixpoint deriv (c : ascii) (r : regex) : regex :=
  match r with
  | Void => Void
  | Eps => Void
  | Chr p => if p c then Eps else Void
  | Seq r1 r2 =>
      if nullable r1 then Alt (Seq (deriv c r1) r2) (deriv c r2)
      else Seq (deriv c r1) r2
  | Alt r1 r2 => Alt (deriv c r1) (deriv c r2)
  | Star r1 => Seq (deriv c r1) (Star r1)
  end.

(** [re.match(r, s)] is not [None] *)
Fixpoint re_match (r : regex) (s : string) : bool :=
  nullable r ||
  match s with
  | EmptyString => false
  | String c s' => re_match (deriv c r) s'
  end.

(** A literal string *)
Fixpoint lit (s : string) : regex :=
  match s with
  | EmptyString => Eps
  | String c s' => Seq (Chr (Ascii.eqb c)) (lit s')
  end.

(** [.]: any character but a newline *)
Definition re_dot : regex := Chr (λ c, negb (Ascii.eqb c "010"%char)).

(** [[01]] *)
Definition re_01 : regex := Chr (λ c, Ascii.eqb c "0"%char || Ascii.eqb c "1"%char).

(** [\d], on ASCII file names *)
Definition re_digit : regex :=
  Chr (λ c, (48 <=? nat_of_ascii c) && (nat_of_ascii c <=? 57)).

(** [r"orb_matrix.([01]).dat"] *)
Definition old : regex :=
  Seq (lit "orb_matrix") (Seq re_dot (Seq re_01 (Seq re_dot (lit "dat")))).

(** [r"orb_matrix_rcut(\d+)deriv([01]).dat"] *)
Definition new : regex :=
  Seq (lit "orb_matrix_rcut")
    (Seq (Seq re_digit (Star re_digit))
       (Seq (lit "deriv") (Seq re_01 (Seq re_dot (lit "dat"))))).

Definition starts_with_slash (s : string) : bool :=
  match s with
  | String "/"%char _ => true
  | _ => false
  end.

Fixpoint ends_with_slash (s : string) : bool :=
  match s with
  | EmptyString => false
  | String c EmptyString => Ascii.eqb c "/"%char
  | String _ s' => ends_with_slash s'
  end.

(** [os.path.join(a, b)] on a POSIX system *)
Definition path_join (a b : string) : string :=
  if starts_with_slash b then b
  else if String.eqb a "" || ends_with_slash a then a +:+ b
  else a +:+ "/" +:+ b.

(** [sorted] on strings: the order of strings is the lexicographic order
    of their characters. *)
Fixpoint insert_sorted (x : string) (xs : list string) : list string :=
  match xs with
  | [] => [x]
  | y :: ys => if String.leb x y then x :: xs else y :: insert_sorted x ys
  end.

Definition sorted (xs : list string) : list string :=
  foldr insert_sorted [] xs.

(** [bool(xs)] for a list *)
Definition truthy {A} (xs : list A) : bool :=
  match xs with
  | [] => false
  | _ => true
  end.

Section Discovery.
(** The file system: [os.listdir] and [os.path.isfile]. *)
Variable listdir : string → list string.
Variable isfile : string → bool.

(** [_orb_matrices(folder)] (api.py, lines 446-493): the pairs the
    generator yields, in order. *)
Definition _orb_matrices (folder : string) : res (list (string * string)) :=
  let files := filter (λ f, isfile (path_join folder f)) (listdir folder) in
  let old_files := path_join folder <$> filter (λ f, re_match old f) files in
  let new_files := path_join folder <$> filter (λ f, re_match new f) files in
  _ ← py_assert (negb (truthy old_files && truthy new_files)) "";
  _ ← py_assert ((length old_files =? 2) || negb (truthy old_files)) "";
  _ ← py_assert ((length new_files mod 2 =? 0) || negb (truthy new_files)) "";
  old_files ← (if truthy old_files
               then f0 ← getitem old_files 0;
                    f1 ← getitem old_files 1;
                    Ok (Some [(f0, f1)])
               else Ok None);
  let new_files := if truthy new_files then Some (sorted new_files) else None in
  new_files ← match new_files with
               | Some fs =>
                   Some <$> comprehension
                              (λ i, f0 ← getitem fs i;
                                    f1 ← getitem fs (i + 1);
                                    Ok (f0, f1))
                              ((λ k, 2 * k) <$> seq 0 ((length fs + 1) / 2))
               | None => Ok None
               end;
  match old_files, new_files with
  | Some files, _ => Ok files
  | None, Some files => Ok files
  | None, None => Raise TypeError
  end.
End Discovery.

(** The cutoff radius in the name of a new-style file
    [orb_matrix_rcut<R>deriv<D>.dat]: the number [R]. *)
Fixpoint skip_prefix (p s : string) : option string :=
  match p, s with
  | EmptyString, _ => Some s
  | String a p', String b s' => if Ascii.eqb a b then skip_prefix p' s' else None
  | _, _ => None
  end.

Fixpoint read_digits (acc : nat) (s : string) : nat :=
  match s with
  | String c s' =>
      let d := nat_of_ascii c in
      if (48 <=? d) && (d <=? 57) then read_digits (10 * acc + (d - 48)) s'
      else acc
  | EmptyString => acc
  end.

Definition rcut_of (folder path : string) : option nat :=
  read_digits 0 <$> skip_prefix (path_join folder "orb_matrix_rcut") path.


(** ** Vocabulary of the properties *)

(** The componentwise order of two vectors of zeta counts; a channel
    missing at the end of the smaller one counts as zero. *)
Definition nzeta_le (a b : list nat) : Prop :=
  length a ≤ length b ∧ ∀ l x y, a !! l = Some x → b !! l = Some y → x ≤ y.

(** The baseline after [nzeta0 + (len(nzeta) - len(nzeta0))*[0]]. *)
Definition padded (nzeta nzeta0 : list nat) : list nat :=
  nzeta0 ++ replicate (length nzeta - length nzeta0) 0.

Section CoefVocabulary.
Context {R : Type}.

(** [data] has every channel of [nzeta], with at least that many rows. *)
Definition covers (data : coef3 R) (nzeta : list nat) : Prop :=
  ∀ l nz, nzeta !! l = Some nz → ∃ ch, data !! l = Some ch ∧ nz ≤ length ch.

(** The rows with zeta index in [[nzeta0[l], nzeta[l])] of every channel
    [l], in one atom type. *)
Definition subset_of (data : coef3 R) (nzeta nzeta0 : list nat) : coef4 R :=
  [imap (λ l nz, slice (default [] (data !! l)) (default 0 (nzeta0 !! l)) nz)
     nzeta].

End CoefVocabulary.

Section StoreVocabulary.
Context {F : Type}.

(** A value that is not a reference to one of the first [n0] objects. *)
Definition fresh (n0 : nat) (v : val F) : Prop :=
  match v with
  | VNum _ => True
  | VRef a => n0 ≤ a
  end.

Definition memo_fresh (n0 : nat) (memo : gmap nat nat) : Prop :=
  ∀ a b, memo !! a = Some b → n0 ≤ b.

(** The store [σ] extends [σ0], and the objects added to [σ0] refer to
    added objects only. *)
Definition store_inv (σ0 σ : store F) : Prop :=
  σ0 `prefix_of` σ ∧
  ∀ a xs, length σ0 ≤ a → σ !! a = Some xs → Forall (fresh (length σ0)) xs.

(** The computation [m] keeps the invariant, and its results satisfy [Q]. *)
Definition keeps (σ0 : store F) {A} (m : M F A) (Q : A → Prop) : Prop :=
  ∀ σ, store_inv σ0 σ →
    store_inv σ0 (m σ).2 ∧ ∀ x, (m σ).1 = Ok x → Q x.
End StoreVocabulary.

(** Tensors held in the store, for comparing the two models of [_peel]. *)
Section StoreRepresentation.
Context {F : Type}.

(** The row object at [r] holds the numbers [row]. *)
Definition is_row (σ : store F) (r : nat) (row : list F) : Prop :=
  σ !! r = Some (VNum <$> row).

(** The channel object at [c] holds the row objects [rs], which hold the
    rows [ch]. *)
Definition is_channel (σ : store F) (c : nat) (rs : list nat)
    (ch : list (list F)) : Prop :=
  σ !! c = Some (VRef <$> rs) ∧ Forall2 (is_row σ) rs ch.

(** The tensor object at [b] holds the channel objects [cs], which hold
    the row objects [rss] and the channels [t]. *)
Definition is_tensor (σ : store F) (b : nat) (cs : list nat)
    (rss : list (list nat)) (t : coef3 (list F)) : Prop :=
  σ !! b = Some (VRef <$> cs) ∧ Forall3 (is_channel σ) cs rss t.

(** The row objects of the channel [ch], one after the other. *)
Definition row_objs (ch : list (list F)) : store F :=
  (λ row : list F, VNum <$> row) <$> ch.

(** The store [σ'] has the objects of [σ], with the same items except
    at the locations [W]. *)
Definition agree_off (W : list nat) (σ σ' : store F) : Prop :=
  length σ ≤ length σ' ∧ ∀ a, a ∉ W → a < length σ → σ' !! a = σ !! a.

(** A level of [coef_lvl] in the store: its object, its channel
    objects, their row objects, and the tensor they hold. *)
Record level := Level {
  lv_obj : nat;
  lv_chans : list nat;
  lv_rows : list (list nat);
  lv_val : coef3 (list F)
}.

Definition is_level (σ : store F) (lv : level) : Prop :=
  is_tensor σ (lv_obj lv) (lv_chans lv) (lv_rows lv) (lv_val lv).

(** The level and channel objects, which the loop of [_peel] updates. *)
Definition structs (lvs : list level) : list nat :=
  lvs ≫= λ lv, lv_obj lv :: lv_chans lv.

Definition rows_of (lvs : list level) : list nat :=
  lvs ≫= λ lv, concat (lv_rows lv).

(** The levels are held by distinct level and channel objects, none of
    which is a row. *)
Definition forest (σ : store F) (lvs : list level) : Prop :=
  Forall (is_level σ) lvs
  ∧ NoDup (structs lvs)
  ∧ ∀ r, r ∈ rows_of lvs → r ∉ structs lvs.
End StoreRepresentation.
Arguments level : clear implicits.

(** The band count of every folder, after
    [[nbands] * len(folders) if not isinstance(nbands, list) else nbands]. *)
Definition each_band (nbands : nbands_arg) (folders : list string)
    : list nband_spec :=
  match nbands with
  | NbandsOne nband => replicate (length folders) nband
  | NbandsList nbands => nbands
  end.


(** ** Example inputs *)

Module Examples.
(** A tensor with the zeta counts [3, 3, 2]; a row is a number here. *)
Definition data : coef3 nat := [[10; 11; 12]; [20; 21; 22]; [30; 31]].

(** Two levels with the totals [1, 1] and [2, 3]. *)
Definition levels : list (coef3 nat) := [[[10]; [20]]; [[11]; [21; 22]]].
Definition totals : list (list nat) := [[1; 1]; [2; 3]].

(** A store with the tensor [[[1.], [2.]], [[3.]]] at location 0. *)
Definition sigma : store nat :=
  [[VRef 1; VRef 2]; [VRef 3; VRef 4]; [VRef 5]; [VNum 1]; [VNum 2]; [VNum 3]].

(** A minimizer that returns its initial guess, and a pw guess whose
    seed tensor has one channel with the rows 1 and 2. *)
Definition opt_id (coef_init : coef4 nat) (coef_inner : option (coef4 nat))
    (iconfs : list nat) (ibands : unit) (options : unit) (nthreads : nat)
    : res (coef4 nat) :=
  Ok coef_init.
Definition initgen_pw (g : guess) : res (coef3 nat) := Ok [[1; 2]].
Definition initgen_jy (g : guess) (ibands : list nat) (nzeta : list Z)
    : res (coef3 nat) :=
  Raise ValueError.
Definition nzeta_analysis (folder : string) : res (list (list (list nat))) :=
  Raise FileNotFoundError.
Definition pw_guess : guess := GuessPw [2%Z] true "Si-monomer/orb_matrix.0.dat".

(** Runs with one spin and two k-points of weight 1/2, four computed
    bands each; the analysis of a (spin, k-point) is the list of values
    stored as its wavefunction data. *)
Definition run (sigma0 sigma1 : list (list float))
    : @run_data nat (list (list float)) unit :=
  {| input_nspin := 1;
     running_nspin := 1;
     running_wk := [0.5; 0.5]%float;
     running_natom := [1];
     running_nzeta := [[2; 1]];
     istate_kpts := [0; 1];
     istate_occ := [[[2; 0; 0; 0]; [2; 2; 0; 0]]]%float;
     wfc_files := [{| wfc := sigma0; wfc_nbands := 4; wfc_kpt := 0 |};
                   {| wfc := sigma1; wfc_nbands := 4; wfc_kpt := 1 |}];
     ovlp_files := [(); ()] |}.

Definition read_folder (folder : string)
    : res (@run_data nat (list (list float)) unit) :=
  if String.eqb folder "Si-dimer"
  then Ok (run [[2; 1.5]; [0.5]]%float [[2]; [2]]%float)
  else if String.eqb folder "Si-trimer"
  then Ok (run [[2]; [1.5; 3]]%float [[2]; [1.5; 3]]%float)
  else Raise FileNotFoundError.

Definition analysis (w : list (list float)) (ovlp : unit) (natom : list nat)
    (nzeta : list (list nat)) (pop : string) (nband : Z) (loss_thr : float)
    : list (list float) :=
  w.

Definition orbparams : list orbparam :=
  [{| orb_nzeta := None;
      orb_nbands_ref := NbandsOne (NbandInt 4);
      orb_folder := [0] |}].
End Examples.

(** ** Vocabulary of the further properties *)

(** Every vector of totals is componentwise at most the next one. *)
Definition nzeta_chain (totals : list (list nat)) : Prop :=
  ∀ k a b, totals !! k = Some a → totals !! S k = Some b → nzeta_le a b.

(** The baseline of level [k] of a list of totals: none for the
    innermost level, the totals of level [k - 1] otherwise. *)
Definition baseline (totals : list (list nat)) (k : nat) : option (list nat) :=
  match k with
  | 0 => None
  | S k' => totals !! k'
  end.

(** The tensors [levels] are the levels of the totals: level [k] has
    the channels of its vector of totals, and in channel [l] the rows
    that the total of level [k] adds to that of level [k - 1] (nothing
    is below the innermost level, or in a channel that level [k - 1]
    does not have). *)
Definition levels_of {R} (levels : list (coef3 R)) (totals : list (list nat))
    : Prop :=
  length levels = length totals ∧
  ∀ k t nz, levels !! k = Some t → totals !! k = Some nz →
    length t = length nz ∧
    ∀ l n ch, nz !! l = Some n → t !! l = Some ch →
      default 0 (default [] (baseline totals k) !! l) + length ch = n.

Section InferenceVocabulary.
Context {K Wfc Ovlp : Type}.
Variable wfc_analysis_api :
  Wfc → Ovlp → list nat → list (list nat) → string → Z → float
  → list (list float).

(** What the pass [isk] of the loop of [_nzeta_infer] adds to [nzeta]
    for the band count [nband]: for every angular momentum the number
    of values above the threshold, times the weight of the k-point,
    over [nspin], the product and the quotient rounded. *)
Definition contribution (run : @run_data K Wfc Ovlp) (pop : string)
    (svd_thr : float) (nband : Z) (isk : nat) : list float :=
  match running_wk run !! (isk mod length (running_wk run)),
        wfc_files run !! isk, ovlp_files run !! isk with
  | Some w, Some f, Some ovlp =>
      (λ sigma_l,
         float_of_nat (count_above svd_thr sigma_l) * w
         / float_of_nat (input_nspin run))%float
        <$> wfc_analysis_api (wfc f) ovlp (running_natom run)
              (running_nzeta run) pop nband svd_thr
  | _, _, _ => []
  end.
End InferenceVocabulary.

(** ** The guess dictionary *)

(** [max(xs)] on integers: [ValueError] on an empty list. *)
Definition py_max (xs : list Z) : res Z :=
  match xs with
  | [] => Raise ValueError
  | x :: xs' => Ok (foldl Z.max x xs')
  end.

(** [_make_guess(nzeta, folder, jy, diagnosis)] (api.py, lines 231-258).
    A list times a negative number is the empty list. *)
Definition _make_guess (nzeta : list (list Z)) (folder : string)
    (jy diagnosis : bool) : res guess :=
  m ← py_max ((λ nz_orb, Z.of_nat (length nz_orb)) <$> nzeta);
  let lmax := (m - 1)%Z in
  let nzeta_max :=
    (λ nz_orb,
       nz_orb ++ replicate (Z.to_nat (lmax + 1 - Z.of_nat (length nz_orb)))
                   (-1)%Z) <$> nzeta in
  nzeta_max ← comprehension
                (λ i, col ← comprehension (λ orb, getitem orb i) nzeta_max;
                      py_max col)
                (range 0 (Z.to_nat (lmax + 1)));
  Ok (if jy then GuessJy nzeta_max diagnosis folder
      else GuessPw nzeta_max diagnosis folder).

(** The entry [nzeta] of the dictionary *)
Definition guess_nzeta (g : guess) : list Z :=
  match g with
  | GuessJy nzeta _ _ => nzeta
  | GuessPw nzeta _ _ => nzeta
  end.

(** ** The configurations of the optimisation *)

(** [xs.index(x)] *)
Definition py_index (xs : list string) (x : string) : res nat :=
  match list_find (λ y, y = x) xs with
  | Some (i, _) => Ok i
  | None => Raise ValueError
  end.

Section Configs.
(** [list(set(xs))]: the elements of [xs], each once, in an order that
    the hashes of the strings determine. *)
Variable list_of_set : list string → list string.

(** The folders of all the orbitals and, for every orbital, the indexes
    of its folders among them, as [_coef_opt_jy] (api.py, lines 124-129)
    and [_coef_opt_pw] (lines 195-200) compute them. *)
Definition _coef_opt_configs (orbparams : list orbparam)
    (folders : list (list string)) : res (list string * list (list nat)) :=
  configs ← (λ fss : list (list (list string)), concat fss)
               <$> comprehension
                     (λ orb, comprehension (getitem folders) (orb_folder orb))
                     orbparams;
  let configs := list_of_set (concat configs) in
  iconfs ← comprehension
             (λ orb, (λ iss : list (list nat), concat iss)
                       <$> comprehension
                             (λ f, fs ← getitem folders f;
                                   comprehension (py_index configs) fs)
                             (orb_folder orb))
             orbparams;
  Ok (configs, iconfs).
End Configs.

(** ** The band analysis of the initial guess *)

(** The weights of [_wll] and the threshold of the band analysis, the
    entries of [np.eye] and the cutoff radii of the overlap matrices
    are kept as the rational numbers that the floats denote; the sum of
    a row of weights is their exact sum. *)

Definition lmaxmax_error_msg (lmaxmax : Z) : string :=
  "lmaxmax should be at least 0: " +:+ repr_Z lmaxmax.

(** [out[s][l].append(ib)] *)
Definition append_band (out : list (list (list nat))) (s l ib : nat)
    : res (list (list (list nat))) :=
  row ← getitem out s;
  bands ← getitem row l;
  Ok (<[s := <[l := bands ++ [ib]]> row]> out).

(** The loop over [enumerate(wlb)] for the band [ib], counting the
    angular momenta from [l]. *)
Fixpoint analysis_band (count_thr : Q) (s ib l : nat) (wlb : list Q)
    (out : list (list (list nat))) : res (list (list (list nat))) :=
  match wlb with
  | [] => Ok out
  | wl :: rest =>
      out ← (if Qle_bool count_thr wl then append_band out s l ib else Ok out);
      analysis_band count_thr s ib (S l) rest out
  end.

(** The loop over [enumerate(wll)], counting the bands from [ib];
    [np.sum(wb.real, 1)] sums every row of the real part of [wb]. *)
Fixpoint analysis_bands (count_thr : Q) (s ib : nat) (wll : list (list (list Q)))
    (out : list (list (list nat))) : res (list (list (list nat))) :=
  match wll with
  | [] => Ok out
  | wb :: rest =>
      out ← analysis_band count_thr s ib 0 (Qsum <$> wb) out;
      analysis_bands count_thr s (S ib) rest out
  end.

Section Analysis.
Context {K Wfc Ovlp : Type}.

(** What [_nzeta_analysis] reads from the files of a folder ([INPUT]
    and the running log before its loop, the wavefunction and overlap
    files in it), and [_wll] of [SIAB.spillage.lcao_wfc_analysis]: the
    real parts of [wll[ib][l][l']]. *)
Variable read_folder : string → res (@run_data K Wfc Ovlp).
Variable _wll : Wfc → Ovlp → list nat → list (list nat) → list (list (list Q)).

Fixpoint analysis_loop (run : @run_data K Wfc Ovlp) (count_thr : Q)
    (isks : list nat) (out : list (list (list nat)))
    : res (list (list (list nat))) :=
  match isks with
  | [] => Ok out
  | isk :: rest =>
      f ← read_file (wfc_files run) isk;
      ovlp ← read_file (ovlp_files run) isk;
      let wll := _wll (wfc f) ovlp (running_natom run) (running_nzeta run) in
      out ← analysis_bands count_thr (isk mod length (running_wk run)) 0 wll out;
      analysis_loop run count_thr rest out
  end.

(** [_nzeta_analysis(folder, count_thr, itype)] (api.py, lines 778-824). *)
Definition _nzeta_analysis (folder : string) (count_thr : Q) (itype : nat)
    : res (list (list (list nat))) :=
  run ← read_folder folder;
  let nspin := input_nspin run in
  _ ← py_assert (bool_decide (nspin = running_nspin run))
        (nspin_error_msg nspin (running_nspin run));
  nzeta ← getitem (running_nzeta run) itype;
  let lmaxmax := (Z.of_nat (length nzeta) - 1)%Z in
  _ ← py_assert (bool_decide (0 ≤ lmaxmax)%Z) (lmaxmax_error_msg lmaxmax);
  let out := replicate nspin (replicate (Z.to_nat (lmaxmax + 1)) []) in
  let wk := running_wk run in
  analysis_loop run count_thr (range 0 (nspin * length wk)) out.

(** The bands of [wll], counted from [ib], whose weight on the angular
    momentum [l] is at least the threshold. *)
Fixpoint bands_from (count_thr : Q) (l ib : nat) (wll : list (list (list Q)))
    : list nat :=
  match wll with
  | [] => []
  | wb :: rest =>
      (match wb !! l with
       | Some row => if Qle_bool count_thr (Qsum row) then [ib] else []
       | None => []
       end) ++ bands_from count_thr l (S ib) rest
  end.

(** The result of [_wll] for the files of the pass [isk]. *)
Definition wll_of (run : @run_data K Wfc Ovlp) (isk : nat)
    : list (list (list Q)) :=
  match wfc_files run !! isk, ovlp_files run !! isk with
  | Some f, Some ovlp =>
      _wll (wfc f) ovlp (running_natom run) (running_nzeta run)
  | _, _ => []
  end.

(** The bands recorded at [out[s][l]]: those of the passes [isk] with
    [isk % len(wk) = s], in the order of the passes. *)
Definition recorded (run : @run_data K Wfc Ovlp) (count_thr : Q)
    (isks : list nat) (s l : nat) : list nat :=
  concat ((λ isk, if decide (isk mod length (running_wk run) = s)
                  then bands_from count_thr l 0 (wll_of run isk)
                  else []) <$> isks).
End Analysis.

(** ** Direct generation of coefficients *)

(** The values that the arguments of [_coef_gen] are checked against. *)
Inductive pyval : Type :=
| PyInt (z : Z)
| PyFloat (q : Q)
| PyStr (s : string)
| PyBool (b : bool)
| PyNone.

(** [isinstance(v, int)]: a Boolean is an integer. *)
Definition is_int (v : pyval) : bool :=
  match v with
  | PyInt _ | PyBool _ => true
  | _ => false
  end.

(** [isinstance(v, (int, float))] *)
Definition is_number (v : pyval) : bool :=
  match v with
  | PyInt _ | PyBool _ | PyFloat _ => true
  | _ => false
  end.

(** The value of an integer *)
Definition int_value (v : pyval) : Z :=
  match v with
  | PyInt z => z
  | PyBool b => if b then 1%Z else 0%Z
  | _ => 0%Z
  end.

(** [np.eye(n).tolist()] *)
Definition np_eye (n : Z) : res (list (list Q)) :=
  if bool_decide (n < 0)%Z then Raise ValueError
  else Ok ((λ z, (λ q, if bool_decide (z = q) then 1%Q else 0%Q)
                   <$> seq 0 (Z.to_nat n))
             <$> seq 0 (Z.to_nat n)).

Section CoefGen.
(** [_nbes(l, rcut, ecut)] of [SIAB.spillage.radial]: the number of
    spherical Bessel functions of the angular momentum [l]. *)
Variable _nbes : Z → pyval → pyval → res Z.

(** [_coef_gen(rcut, ecut, lmax, value)] (api.py, lines 20-50). *)
Definition _coef_gen (rcut ecut lmax value : pyval) : res (coef4 (list Q)) :=
  if negb (is_number ecut) then Raise ValueError
  else if negb (is_int lmax) then Raise ValueError
  else match value with
       | PyStr value =>
           let ls := range 0 (Z.to_nat (int_value lmax + 1)) in
           nbes_rcut ← comprehension (λ l, _nbes (Z.of_nat l) rcut ecut) ls;
           if String.eqb value "eye"
           then chans ← comprehension
                          (λ l, n ← getitem nbes_rcut l; np_eye n) ls;
                Ok [chans]
           else Raise ValueError
       | _ => Raise ValueError
       end.
End CoefGen.

(** ** The overlap matrices of the pw optimisation *)

Section PwMatrices.
(** The file system, as in [_orb_matrices]; the entry ['rcut'] of the
    matrices that [read_orb_mat] of [SIAB.spillage.datparse] reads from
    a file; and the method [config_add] of the minimizer, called with
    the two paths. *)
Variable listdir : string → list string.
Variable isfile : string → bool.
Variable read_orb_mat : string → res Q.
Variable config_add : string → string → res unit.

(** The body of the inner loop of [_coef_opt_pw] (api.py, lines
    204-210) for one pair of paths.  The state is the list of the pairs
    given to [config_add] so far, and [fov]. *)
Definition pw_pair (rcut : Q) (st : list (string * string) * option string)
    (pr : string * string) : res (list (string * string) * option string) :=
  let '(added, fov) := st in
  let '(fov_, fop_) := pr in
  ov ← read_orb_mat fov_;
  op ← read_orb_mat fop_;
  _ ← py_assert (Qeq_bool ov op)
        "Data violation: rcut of ov and op matrices are different";
  if Qlt_le_dec (Qabs (ov - rcut)) (1 # 10000000000)
  then _ ← config_add fov_ fop_;
       Ok (added ++ [(fov_, fop_)], Some (default fov_ fov))
  else Ok st.

Fixpoint pw_pairs (rcut : Q) (pairs : list (string * string))
    (st : list (string * string) * option string)
    : res (list (string * string) * option string) :=
  match pairs with
  | [] => Ok st
  | pr :: rest => st ← pw_pair rcut st pr; pw_pairs rcut rest st
  end.

(** The loop over the configurations (api.py, lines 202-210). *)
Fixpoint pw_folders (rcut : Q) (configs : list string)
    (st : list (string * string) * option string)
    : res (list (string * string) * option string) :=
  match configs with
  | [] => Ok st
  | folder :: rest =>
      pairs ← _orb_matrices listdir isfile folder;
      st ← pw_pairs rcut pairs st;
      pw_folders rcut rest st
  end.

Definition _coef_opt_pw_matrices (rcut : Q) (configs : list string)
    : res (list (string * string) * option string) :=
  pw_folders rcut configs ([], None).
End PwMatrices.

(** ** Further example inputs *)

Module MoreExamples.
(** Two levels with the totals [1, 1] and [2, 3, 1]: the outer level
    has a channel more. *)
Definition ragged_levels : list (coef3 nat) :=
  [[[10]; [20]]; [[11]; [21; 22]; [30]]].

(** A folder with the new-style files of the cutoff radii 6 and 10; the
    radius of a matrix is the one in the name of its file. *)
Definition dir_new : list string :=
  ["orb_matrix_rcut6deriv0.dat"; "orb_matrix_rcut6deriv1.dat";
   "orb_matrix_rcut10deriv0.dat"; "orb_matrix_rcut10deriv1.dat"].

Definition read_orb_mat (path : string) : res Q :=
  match rcut_of "Si-dimer" path with
  | Some r => Ok (inject_Z (Z.of_nat r))
  | None => Raise FileNotFoundError
  end.

Definition config_add (fov fop : string) : res unit := Ok ().

(** Two geometries, the first with two deformations, and two orbitals
    with given zeta counts; a third orbital that refers to a geometry
    that is not there. *)
Definition folders : list (list string) :=
  [["Si-dimer-1.8"; "Si-dimer-2.0"]; ["Si-trimer-1.7"]].

Definition orbparams_explicit : list orbparam :=
  [{| orb_nzeta := Some [1%Z; 1%Z];
      orb_nbands_ref := NbandsOne (NbandInt 4);
      orb_folder := [0] |};
   {| orb_nzeta := Some [2%Z; 2%Z; 1%Z];
      orb_nbands_ref := NbandsOne (NbandInt 4);
      orb_folder := [0; 1] |}].

Definition orb_out_of_range : orbparam :=
  {| orb_nzeta := Some [3%Z; 3%Z; 2%Z];
     orb_nbands_ref := NbandsOne (NbandInt 4);
     orb_folder := [2] |}.

(** A dimer whose analysis has two channels and a trimer whose analysis
    has three, and a run whose input asks for two spins while the log
    reports one. *)
Definition run_nspin_mismatch : @run_data nat (list (list float)) unit :=
  {| input_nspin := 2;
     running_nspin := 1;
     running_wk := [1%float];
     running_natom := [1];
     running_nzeta := [[2; 1]];
     istate_kpts := [0];
     istate_occ := [[[2; 0; 0; 0]]]%float;
     wfc_files := [];
     ovlp_files := [] |}.

Definition read_folder_ragged (folder : string)
    : res (@run_data nat (list (list float)) unit) :=
  if String.eqb folder "Si-dimer"
  then Ok (Examples.run [[2; 1.5]; [0.5]]%float [[2]; [2]]%float)
  else if String.eqb folder "Si-trimer"
  then Ok (Examples.run [[2]; [1.5]; [3]]%float [[2]; [1.5]; [3]]%float)
  else if String.eqb folder "Si-monomer"
  then Ok run_nspin_mismatch
  else Raise FileNotFoundError.

(** An analysis with the two channels s and p for every input: the
    wavefunction data of a (spin, k-point) is the pair of their
    values. *)
Definition analysis_sp (w : list float * list float) (ovlp : unit)
    (natom : list nat) (nzeta : list (list nat)) (pop : string) (nband : Z)
    (loss_thr : float) : list (list float) :=
  [w.1; w.2].

Definition run_sp : @run_data nat (list float * list float) unit :=
  {| input_nspin := 1;
     running_nspin := 1;
     running_wk := [0.5; 0.5]%float;
     running_natom := [1];
     running_nzeta := [[2; 1]];
     istate_kpts := [0; 1];
     istate_occ := [[[2; 0; 0; 0]; [2; 2; 0; 0]]]%float;
     wfc_files := [{| wfc := ([2; 1.5], [0.5])%float;
                      wfc_nbands := 4; wfc_kpt := 0 |};
                   {| wfc := ([2], [2])%float;
                      wfc_nbands := 4; wfc_kpt := 1 |}];
     ovlp_files := [(); ()] |}.

(** Three k-points of the weights 1/9, 7/9 and 1/9 (rounded to
    binary64), each with three values above the threshold in its one
    channel. *)
Definition run_ninths : @run_data nat (list float * list float) unit :=
  {| input_nspin := 1;
     running_nspin := 1;
     running_wk := [1 / 9; 7 / 9; 1 / 9]%float;
     running_natom := [1];
     running_nzeta := [[3]];
     istate_kpts := [0; 1; 2];
     istate_occ := [[[2; 2; 2]; [2; 2; 2]; [2; 2; 2]]]%float;
     wfc_files := [{| wfc := ([2; 2; 2], [])%float;
                      wfc_nbands := 3; wfc_kpt := 0 |};
                   {| wfc := ([2; 2; 2], [])%float;
                      wfc_nbands := 3; wfc_kpt := 1 |};
                   {| wfc := ([2; 2; 2], [])%float;
                      wfc_nbands := 3; wfc_kpt := 2 |}];
     ovlp_files := [(); (); ()] |}.

Definition read_folder_sp (folder : string)
    : res (@run_data nat (list float * list float) unit) :=
  if String.eqb folder "Si-dimer" then Ok run_sp
  else if String.eqb folder "Si-bulk" then Ok run_ninths
  else Raise FileNotFoundError.

(** A monomer at the gamma point with two spins: the weights of three
    bands on the angular momenta s and p are the wavefunction data. *)
Definition wll_s : list (list Q) := [[1%Q; 0%Q]; [0%Q; 0%Q]].
Definition wll_p : list (list Q) := [[0%Q; 0%Q]; [0%Q; 1%Q]].

Definition run_monomer : @run_data nat (list (list (list Q))) unit :=
  {| input_nspin := 2;
     running_nspin := 2;
     running_wk := [1%float];
     running_natom := [1];
     running_nzeta := [[2; 1]];
     istate_kpts := [0];
     istate_occ := [[[2; 0; 0]]; [[2; 0; 0]]]%float;
     wfc_files := [{| wfc := [wll_s; wll_p; wll_s];
                      wfc_nbands := 3; wfc_kpt := 0 |};
                   {| wfc := [wll_s; wll_s; wll_p];
                      wfc_nbands := 3; wfc_kpt := 0 |}];
     ovlp_files := [(); ()] |}.

Definition read_monomer (folder : string)
    : res (@run_data nat (list (list (list Q))) unit) :=
  if String.eqb folder "Si-monomer" then Ok run_monomer
  else Raise FileNotFoundError.

Definition wll_stored (w : list (list (list Q))) (ovlp : unit)
    (natom : list nat) (nzeta : list (list nat)) : list (list (list Q)) :=
  w.

(** The band analysis of a monomer with one spin, and a jy guess. *)
Definition nzeta_analysis_monomer (folder : string) : res (list (list (list nat))) :=
  Ok [[[0; 2]; [1]]].

Definition dirname (path : string) : string := "Si-monomer-6au".

(** [_nbes] with [l + 2] functions for the angular momentum [l]. *)
Definition nbes (l : Z) (rcut ecut : pyval) : res Z := Ok (l + 2)%Z.
End MoreExamples.

(** * Properties *)

(** ** The error monad and comprehensions *)

Lemma bind_Ok {A B} (m : res A) (k : A → res B) (y : B) :
  m ≫= k = Ok y → ∃ x, m = Ok x ∧ k x = Ok y.
Proof. destruct m as [x|e]; simpl; [eauto|done]. Qed.

Lemma comprehension_ok {A B} (f : A → res B) (g : A → B) xs :
  (∀ x, x ∈ xs → f x = Ok (g x)) → comprehension f xs = Ok (g <$> xs).
Proof.
  induction xs as [|x xs IH]; intros Hf; simpl; [done|].
  rewrite (Hf x) by left. simpl.
  rewrite IH; [done|]. intros y Hy. apply Hf. by right.
Qed.

Lemma comprehension_enum_ok {A B} (f : nat → A → res B) (g : nat → A → B) i xs :
  (∀ k x, xs !! k = Some x → f (i + k) x = Ok (g (i + k) x)) →
  comprehension_enum f i xs = Ok (imap (λ k, g (i + k)) xs).
Proof.
  revert i. induction xs as [|x xs IH]; intros i Hf; simpl; [done|].
  specialize (Hf 0 x eq_refl) as H0. rewrite Nat.add_0_r in H0.
  rewrite H0. simpl. rewrite (IH (S i)).
  - simpl. rewrite Nat.add_0_r. do 2 f_equal.
    apply imap_ext. intros k y _. simpl. f_equal. lia.
  - intros k y Hk. replace (S i + k) with (i + S k) by lia. by apply Hf.
Qed.

Lemma comprehension_enum_fmap {A B C} (f : nat → B → res C) (h : A → B) i xs :
  comprehension_enum f i (h <$> xs) = comprehension_enum (λ k x, f k (h x)) i xs.
Proof.
  revert i. induction xs as [|x xs IH]; intros i; simpl; [done|].
  by rewrite IH.
Qed.

Lemma for_each_ok {A} (body : A → res unit) xs :
  (∀ x, x ∈ xs → body x = Ok ()) → for_each body xs = Ok ().
Proof.
  induction xs as [|x xs IH]; intros Hb; simpl; [done|].
  rewrite (Hb x) by left. simpl. apply IH. intros y Hy. apply Hb. by right.
Qed.

Lemma for_each_raise {A} (body : A → res unit) (e : exn) xs x :
  (∀ y, y ∈ xs → body y = Ok () ∨ body y = Raise e) →
  x ∈ xs → body x = Raise e → for_each body xs = Raise e.
Proof.
  induction xs as [|y xs IH]; intros Hb Hx He; [by apply elem_of_nil in Hx|].
  simpl. destruct (Hb y) as [Hy|Hy]; [by left| |by rewrite Hy].
  rewrite Hy. simpl. apply elem_of_cons in Hx as [->|Hx]; [congruence|].
  apply IH; [|done..].
  intros z Hz. apply Hb. by right.
Qed.

(** ** Coefficient subsets *)

Section CoefSubsetProps.
Context {R : Type}.
Implicit Types (data : coef3 R) (nzeta : list nat).

(** The rows [lo], ..., [hi - 1] of channel [l], read one by one. *)
Lemma comprehension_rows data l lo hi :
  (lo < hi → ∃ ch, data !! l = Some ch ∧ hi ≤ length ch) →
  comprehension (λ j, getitem2 data l j) (range lo hi)
  = Ok (slice (default [] (data !! l)) lo hi).
Proof.
  unfold range, slice. remember (hi - lo) as n eqn:Hn.
  revert lo Hn. induction n as [|n IH]; intros lo Hn Hch; simpl.
  { by rewrite take_0. }
  destruct Hch as (ch & Hl & Hhi); [lia|].
  rewrite Hl in *. simpl.
  destruct (lookup_lt_is_Some_2 ch lo) as [x Hx]; [lia|].
  assert (getitem2 data l lo = Ok x) as ->.
  { unfold getitem2, getitem. rewrite Hl. simpl. by rewrite Hx. }
  simpl. rewrite (IH (S lo)); [|lia|].
  - simpl. by rewrite (drop_S _ _ _ Hx).
  - intros _. eauto.
Qed.

Lemma padded_length nzeta (nzeta0 : list nat) :
  length nzeta0 ≤ length nzeta → length (padded nzeta nzeta0) = length nzeta.
Proof. intros. unfold padded. rewrite length_app, length_replicate. lia. Qed.

Lemma padded_lookup nzeta (nzeta0 : list nat) l :
  l < length nzeta →
  padded nzeta nzeta0 !! l = Some (default 0 (nzeta0 !! l)).
Proof.
  intros Hl. unfold padded.
  destruct (decide (l < length nzeta0)) as [Hlt|Hge].
  - rewrite lookup_app_l by done.
    destruct (lookup_lt_is_Some_2 nzeta0 l Hlt) as [x ->]. done.
  - rewrite lookup_app_r by lia.
    rewrite (lookup_ge_None_2 nzeta0 l) by lia. simpl.
    apply lookup_replicate_2. lia.
Qed.

Lemma coef_subset_Some_ok data nzeta (nzeta0 : list nat) :
  length nzeta0 ≤ length nzeta →
  (∀ l nz, nzeta !! l = Some nz → default 0 (nzeta0 !! l) ≤ nz) →
  (∀ l nz, nzeta !! l = Some nz → default 0 (nzeta0 !! l) < nz →
           ∃ ch, data !! l = Some ch ∧ nz ≤ length ch) →
  _coef_subset nzeta (Some nzeta0) data = Ok (subset_of data nzeta nzeta0).
Proof.
  intros Hlen Hle Hdata. unfold _coef_subset.
  rewrite bool_decide_eq_true_2 by done. simpl.
  fold (padded nzeta nzeta0).
  rewrite for_each_ok.
  2:{ intros [nz nz0] Hin. unfold py_assert.
      rewrite bool_decide_eq_true_2; [done|].
      apply list_elem_of_lookup in Hin as [l Hl].
      apply lookup_zip_with_Some in Hl as (a & b & [= <- <-] & Ha & Hb).
      rewrite padded_lookup in Hb by (by eapply lookup_lt_Some).
      injection Hb as <-. by eapply Hle. }
  simpl. rewrite comprehension_enum_fmap.
  rewrite (comprehension_enum_ok _
             (λ l p, slice (default [] (data !! l)) p.1 p.2)).
  2:{ intros l [iz jz] Hl. simpl.
      apply lookup_zip_with_Some in Hl as (a & b & [= <- <-] & Ha & Hb).
      rewrite padded_lookup in Ha by (by eapply lookup_lt_Some).
      injection Ha as <-. apply comprehension_rows. intros Hlt.
      by eapply Hdata. }
  simpl. unfold subset_of. do 2 f_equal.
  apply list_eq. intros l. rewrite !list_lookup_imap.
  rewrite lookup_zip_with.
  destruct (nzeta !! l) as [nz|] eqn:Hnz; simpl.
  - rewrite padded_lookup by (by eapply lookup_lt_Some). simpl. done.
  - by destruct (padded nzeta nzeta0 !! l).
Qed.
End CoefSubsetProps.

Lemma lookup_zip_long {A} (f : A → A → A) l1 l2 i :
  zip_long f l1 l2 !! i =
  match l1 !! i, l2 !! i with
  | Some a, Some b => Some (f a b)
  | Some a, None => Some a
  | None, o => o
  end.
Proof.
  revert l2 i. induction l1 as [|a l1 IH]; intros [|b l2] [|i]; simpl; try done.
  all: first [by destruct (l1 !! i) | apply IH].
Qed.

Lemma slice_app {A} (xs : list A) lo mid hi :
  lo ≤ mid → mid ≤ hi → slice xs lo mid ++ slice xs mid hi = slice xs lo hi.
Proof.
  intros H1 H2. unfold slice.
  replace (drop mid xs) with (drop (mid - lo) (drop lo xs))
    by (rewrite drop_drop; f_equal; lia).
  rewrite take_take_drop. f_equal. lia.
Qed.

Lemma nzeta_le_default a b l y :
  nzeta_le a b → b !! l = Some y → default 0 (a !! l) ≤ y.
Proof.
  intros [_ H] Hb. destruct (a !! l) as [x|] eqn:Ha; simpl; [by eapply H|lia].
Qed.

Section CoefSubsetClaims.
Context {R : Type}.
Implicit Types (data : coef3 R).

Lemma coef_subset_value data nzeta (nzeta0 : list nat) :
  nzeta_le nzeta0 nzeta → covers data nzeta →
  _coef_subset nzeta (Some nzeta0) data = Ok (subset_of data nzeta nzeta0).
Proof.
  intros Hle Hcov. apply coef_subset_Some_ok.
  - apply Hle.
  - intros l nz Hnz. by eapply nzeta_le_default.
  - intros l nz Hnz _. by apply Hcov.
Qed.

Lemma covers_le data a b : nzeta_le a b → covers data b → covers data a.
Proof.
  intros [Hlen Hle] Hcov l x Hx.
  destruct (lookup_lt_is_Some_2 b l) as [y Hy].
  { apply lookup_lt_Some in Hx. lia. }
  destruct (Hcov l y Hy) as (ch & Hch & Hlen').
  exists ch. split; [done|]. specialize (Hle l x y Hx Hy). lia.
Qed.

(** Claim C4.  For a tensor [data] and zeta counts
    [nzeta0 <= nzeta1 <= nzeta2] (componentwise, a channel missing at
    the end of the smaller vector counting as zero) that [data] covers,
    merging the subset between [nzeta0] and [nzeta1] with the subset
    between [nzeta1] and [nzeta2] along the zeta axis is the subset
    between [nzeta0] and [nzeta2]; and that subset holds, for every
    channel [l], exactly the rows with zeta index in
    [[nzeta0[l], nzeta2[l])]. *)
Theorem coef_subset_merge data (nzeta0 nzeta1 nzeta2 : list nat) :
  nzeta_le nzeta0 nzeta1 → nzeta_le nzeta1 nzeta2 → covers data nzeta2 →
  (s01 ← _coef_subset nzeta1 (Some nzeta0) data;
   s12 ← _coef_subset nzeta2 (Some nzeta1) data;
   Ok (merge (A:=R) 2 s01 s12))
  = _coef_subset nzeta2 (Some nzeta0) data
  ∧ _coef_subset nzeta2 (Some nzeta0) data
    = Ok [imap (λ l nz, slice (default [] (data !! l))
                          (default 0 (nzeta0 !! l)) nz) nzeta2].
Proof.
  intros H01 H12 Hcov.
  assert (nzeta_le nzeta0 nzeta2) as H02.
  { destruct H01 as [Hl1 Hc1], H12 as [Hl2 Hc2]. split; [lia|].
    intros l x z Hx Hz.
    destruct (lookup_lt_is_Some_2 nzeta1 l) as [y Hy].
    { apply lookup_lt_Some in Hx. lia. }
    specialize (Hc1 l x y Hx Hy). specialize (Hc2 l y z Hy Hz). lia. }
  rewrite (coef_subset_value data nzeta1 nzeta0)
    by eauto using covers_le.
  rewrite (coef_subset_value data nzeta2 nzeta1) by done.
  rewrite (coef_subset_value data nzeta2 nzeta0) by done.
  split; [|done]. simpl. unfold subset_of. do 2 f_equal.
  apply list_eq. intros l.
  rewrite lookup_zip_long, !list_lookup_imap.
  destruct (nzeta2 !! l) as [z|] eqn:Hz; simpl.
  - destruct (nzeta1 !! l) as [y|] eqn:Hy; simpl.
    + f_equal. apply slice_app.
      * by apply (nzeta_le_default nzeta0 nzeta1).
      * apply (proj2 H12 l y z Hy Hz).
    + rewrite (lookup_ge_None_2 nzeta0 l); [done|].
      apply lookup_ge_None_1 in Hy. destruct H01. lia.
  - rewrite (lookup_ge_None_2 nzeta1 l); [done|].
    apply lookup_ge_None_1 in Hz. destruct H12. lia.
Qed.

(** Claim C5.  When some channel [l] has [nzeta0[l] > nzeta[l]],
    [_coef_subset(nzeta, nzeta0, data)] raises an [AssertionError]
    whatever [data] is, and so returns no subset: the error of the
    hierarchy check when [nzeta0] is not longer than [nzeta], the error
    of the length check otherwise. *)
Theorem coef_subset_hierarchy_violation data nzeta (nzeta0 : list nat) l nz nz0 :
  nzeta !! l = Some nz → nzeta0 !! l = Some nz0 → nz < nz0 →
  _coef_subset nzeta (Some nzeta0) data
  = Raise (AssertionError
             (if bool_decide (length nzeta0 ≤ length nzeta)
              then hierarchy_error_msg nzeta (padded nzeta nzeta0)
              else size_error_msg nzeta nzeta0)).
Proof.
  intros Hnz Hnz0 Hlt. unfold _coef_subset.
  case_bool_decide as Hlen; simpl; [|done].
  fold (padded nzeta nzeta0).
  rewrite (for_each_raise _
             (AssertionError (hierarchy_error_msg nzeta (padded nzeta nzeta0)))
             _ (nz, nz0)); [done| | |].
  - intros [a b] _. unfold py_assert. case_bool_decide; auto.
  - apply list_elem_of_lookup. exists l.
    apply lookup_zip_with_Some. exists nz, nz0. split_and!; [done..|].
    rewrite padded_lookup by (by eapply lookup_lt_Some). by rewrite Hnz0.
  - unfold py_assert. rewrite bool_decide_eq_false_2; [done|lia].
Qed.

(** Claim C10.  Without a baseline [_coef_subset] returns, in one atom
    type, the first [nzeta[l]] rows of every channel [l], which is what
    an all-zero baseline gives; a baseline shorter than [nzeta] is
    treated as if padded with zeros, so that the channels it lacks
    contribute their rows [0 .. nzeta[l] - 1]; and a baseline longer
    than [nzeta] is refused, whatever its components are. *)
Theorem coef_subset_baseline data nzeta (short long : list nat) :
  covers data nzeta →
  length short < length nzeta → nzeta_le short nzeta →
  length nzeta < length long →
  _coef_subset nzeta None data = Ok [imap (λ l nz, take nz (default [] (data !! l))) nzeta]
  ∧ _coef_subset nzeta None data
    = _coef_subset nzeta (Some (replicate (length nzeta) 0)) data
  ∧ _coef_subset nzeta (Some short) data
    = _coef_subset nzeta (Some (short ++ replicate (length nzeta - length short) 0)) data
  ∧ (∃ chans, _coef_subset nzeta (Some short) data = Ok [chans]
      ∧ ∀ l nz, length short ≤ l → nzeta !! l = Some nz →
                chans !! l = Some (take nz (default [] (data !! l))))
  ∧ _coef_subset nzeta (Some long) data
    = Raise (AssertionError (size_error_msg nzeta long)).
Proof.
  intros Hcov Hshort Hle Hlong.
  assert (_coef_subset nzeta None data
          = Ok [imap (λ l nz, take nz (default [] (data !! l))) nzeta]) as Hnone.
  { unfold _coef_subset.
    rewrite (comprehension_enum_ok _ (λ l nz, take nz (default [] (data !! l)))).
    2:{ intros l nz Hnz. simpl. rewrite comprehension_rows by (intros _; eauto).
        unfold slice. by rewrite Nat.sub_0_r, drop_0. }
    done. }
  split_and!.
  - done.
  - rewrite Hnone, coef_subset_value; [|split|done].
    + unfold subset_of. do 2 f_equal. apply imap_ext. intros l nz Hnz. simpl.
      rewrite lookup_replicate_2 by (by eapply lookup_lt_Some). simpl.
      unfold slice. by rewrite Nat.sub_0_r, drop_0.
    + by rewrite length_replicate.
    + intros l x y [-> _]%lookup_replicate _. lia.
  - rewrite !coef_subset_value; [|split|done..].
    + unfold subset_of. do 2 f_equal. apply imap_ext. intros l nz Hnz. simpl.
      fold (padded nzeta short).
      rewrite padded_lookup by (by eapply lookup_lt_Some). done.
    + fold (padded nzeta short). rewrite padded_length; lia.
    + intros l x y Hx Hy. fold (padded nzeta short) in Hx.
      rewrite padded_lookup in Hx by (by eapply lookup_lt_Some).
      injection Hx as <-. by eapply nzeta_le_default.
  - eexists. split; [by apply coef_subset_value|].
    intros l nz Hl Hnz. rewrite list_lookup_imap, Hnz. simpl.
    rewrite (lookup_ge_None_2 short l) by done. simpl.
    unfold slice. by rewrite Nat.sub_0_r, drop_0.
  - unfold _coef_subset. rewrite bool_decide_eq_false_2; [done|lia].
Qed.
End CoefSubsetClaims.

Section PeelProps.
Context {R : Type}.
Implicit Types (last t : coef3 R) (levels : list (coef3 R)).

Lemma pop_front_n_app last l (a b : list R) :
  last !! l = Some (a ++ b) →
  pop_front_n last l (length a) = Ok (a, <[l := b]> last).
Proof.
  revert last. induction a as [|x a IH]; intros last Hl; simpl.
  - by rewrite list_insert_id.
  - unfold getitem. rewrite Hl. simpl.
    rewrite IH.
    + simpl. by rewrite list_insert_insert_eq.
    + apply list_lookup_insert_eq. by eapply lookup_lt_Some.
Qed.

End PeelProps.


Section StoreProps.
Context {F : Type}.
Implicit Types (σ : store F) (v : val F) (xs : list (val F)).

Variable σ0 : store F.
Local Abbreviation n0 := (length σ0).

Lemma store_inv_refl : store_inv σ0 σ0.
Proof.
  split; [done|]. intros a xs Ha Hl. apply lookup_lt_Some in Hl. lia.
Qed.

Lemma keeps_ret {A} (x : A) (Q : A → Prop) : Q x → keeps σ0 (mret x) Q.
Proof. intros HQ σ Hσ. split; [done|]. by intros ? [= <-]. Qed.

Lemma keeps_raise {A} (e : exn) (Q : A → Prop) : keeps σ0 (raise e) Q.
Proof. intros σ Hσ. split; [done|]. intros x Hx. discriminate. Qed.

Lemma keeps_bind {A B} (m : M F A) (k : A → M F B) (P : A → Prop) (Q : B → Prop) :
  keeps σ0 m P → (∀ x, P x → keeps σ0 (k x) Q) → keeps σ0 (m ≫= k) Q.
Proof.
  intros Hm Hk σ Hσ. destruct (Hm σ Hσ) as [Hinv HP].
  unfold mbind, M_bind. destruct (m σ) as [[x|e] σ']; simpl in *.
  - by apply Hk; [apply HP|].
  - split; [done|]. intros x Hx. discriminate.
Qed.

Lemma keeps_mono {A} (m : M F A) (P Q : A → Prop) :
  keeps σ0 m P → (∀ x, P x → Q x) → keeps σ0 m Q.
Proof. intros Hm HPQ σ Hσ. destruct (Hm σ Hσ). split; auto. Qed.

Lemma keeps_alloc xs :
  Forall (fresh n0) xs → keeps σ0 (alloc xs) (λ a, n0 ≤ a).
Proof.
  intros Hxs σ [[ext ->] Hfresh]. simpl. split; [split|].
  - exists (ext ++ [xs]). by rewrite (assoc_L (++)).
  - intros a ys Ha Hl.
    apply lookup_app_Some in Hl as [Hl|[_ Hl]]; [by eapply Hfresh|].
    apply list_lookup_singleton_Some in Hl as [_ <-]. done.
  - intros a [= <-]. rewrite length_app. lia.
Qed.

Lemma keeps_load a : keeps σ0 (load a) (λ _, True).
Proof.
  intros σ Hσ. unfold load. by destruct (σ !! a).
Qed.

Lemma keeps_load_fresh a :
  n0 ≤ a → keeps σ0 (load a) (Forall (fresh n0)).
Proof.
  intros Ha σ Hσ. unfold load. destruct (σ !! a) as [xs|] eqn:Hl; simpl.
  - split; [done|]. intros ? [= <-]. by eapply (proj2 Hσ).
  - split; [done|]. intros ? [=].
Qed.

Lemma keeps_write a xs :
  n0 ≤ a → Forall (fresh n0) xs → keeps σ0 (write a xs) (λ _, True).
Proof.
  intros Ha Hxs σ [[ext ->] Hfresh]. unfold write. simpl. split; [split|done].
  - exists (<[a - n0 := xs]> ext). by rewrite insert_app_r_alt.
  - intros b ys Hb Hl.
    destruct (decide (a = b)) as [->|Hne].
    + destruct (decide (b < length (σ0 ++ ext))).
      * rewrite list_lookup_insert_eq in Hl by done. by injection Hl as <-.
      * rewrite list_insert_ge in Hl by lia. by eapply Hfresh.
    + rewrite list_lookup_insert_ne in Hl by done. by eapply Hfresh.
Qed.

Lemma keeps_append b v :
  n0 ≤ b → fresh n0 v → keeps σ0 (append b v) (λ _, True).
Proof.
  intros Hb Hv. eapply keeps_bind; [by apply keeps_load_fresh|].
  intros xs Hxs. apply keeps_write; [done|].
  apply Forall_app. by split; [|constructor].
Qed.

Lemma keeps_subscript v i :
  fresh n0 v → keeps σ0 (subscript v i) (fresh n0).
Proof.
  intros Hv. destruct v as [x|a]; simpl; [apply keeps_raise|].
  eapply keeps_bind; [by apply keeps_load_fresh|].
  intros xs Hxs. destruct (xs !! i) as [y|] eqn:Hy; [|apply keeps_raise].
  apply keeps_ret. by eapply Forall_lookup_1.
Qed.

Lemma keeps_pop0 v :
  fresh n0 v → keeps σ0 (pop0 v) (fresh n0).
Proof.
  intros Hv. destruct v as [x|a]; simpl; [apply keeps_raise|].
  eapply keeps_bind; [by apply keeps_load_fresh|].
  intros [|y ys] Hxs; [apply keeps_raise|].
  apply Forall_cons in Hxs as [Hy Hys].
  eapply keeps_bind; [by apply keeps_write|].
  intros _ _. by apply keeps_ret.
Qed.

Lemma keeps_pops last l n :
  fresh n0 last → keeps σ0 (pops last l n) (Forall (fresh n0)).
Proof.
  intros Hlast. induction n as [|n IH]; simpl; [by apply keeps_ret|].
  eapply keeps_bind; [by apply keeps_subscript|]. intros ch Hch.
  eapply keeps_bind; [by apply keeps_pop0|]. intros x Hx.
  eapply keeps_bind; [apply IH|]. intros xs Hxs.
  apply keeps_ret. by constructor.
Qed.

Lemma keeps_level_store last l nzeta_lvl :
  fresh n0 last → keeps σ0 (level_store last l nzeta_lvl) (Forall (fresh n0)).
Proof.
  intros Hlast. revert l.
  induction nzeta_lvl as [|nzeta rest IH]; intros l; simpl;
    [by apply keeps_ret|].
  eapply keeps_bind; [by apply keeps_pops|]. intros xs Hxs.
  eapply keeps_bind; [by apply keeps_alloc|]. intros c Hc.
  eapply keeps_bind; [apply IH|]. intros cs Hcs.
  apply keeps_ret. by constructor.
Qed.

Lemma keeps_loop_store coef_lvl nzeta_lvls :
  Forall (fresh n0) coef_lvl →
  keeps σ0 (loop_store coef_lvl nzeta_lvls) (λ _, True).
Proof.
  revert coef_lvl.
  induction nzeta_lvls as [|nzeta_lvl rest IH]; intros coef_lvl Hlvl; simpl;
    [by apply keeps_ret|].
  destruct (last coef_lvl) as [lst|] eqn:Hlast; [|apply keeps_raise].
  assert (fresh n0 lst) as Hlst.
  { apply last_Some in Hlast as [pre ->].
    by apply Forall_app in Hlvl as [_ [? _]%Forall_cons]. }
  eapply keeps_bind; [by apply keeps_level_store|]. intros chans Hchans.
  eapply keeps_bind; [by apply keeps_alloc|]. intros new Hnew.
  apply IH. apply Forall_app. split; [done|]. by constructor.
Qed.

Lemma keeps_copy_items copy b xs memo :
  (∀ x memo, memo_fresh n0 memo →
     keeps σ0 (copy x memo) (λ r, fresh n0 r.1 ∧ memo_fresh n0 r.2)) →
  n0 ≤ b → memo_fresh n0 memo →
  keeps σ0 (copy_items copy b xs memo) (memo_fresh n0).
Proof.
  intros Hcopy Hb. revert memo.
  induction xs as [|x xs IH]; intros memo Hmemo; simpl; [by apply keeps_ret|].
  eapply keeps_bind; [by apply Hcopy|]. intros [y memo1] [Hy Hmemo1].
  eapply keeps_bind; [by apply keeps_append|]. intros _ _.
  by apply IH.
Qed.

Lemma keeps_deepcopy depth v memo :
  memo_fresh n0 memo →
  keeps σ0 (deepcopy depth v memo) (λ r, fresh n0 r.1 ∧ memo_fresh n0 r.2).
Proof.
  revert v memo. induction depth as [|d IH]; intros [x|a] memo Hmemo; simpl.
  - by apply keeps_ret.
  - destruct (memo !! a) as [b|] eqn:Hb; [|apply keeps_raise].
    apply keeps_ret. split; [by eapply Hmemo|done].
  - by apply keeps_ret.
  - destruct (memo !! a) as [b|] eqn:Hb.
    { apply keeps_ret. split; [by eapply Hmemo|done]. }
    eapply keeps_bind; [apply keeps_load|]. intros xs _.
    eapply keeps_bind; [by apply keeps_alloc|]. intros b' Hb'.
    eapply keeps_bind.
    { apply keeps_copy_items; [apply IH|done|].
      intros a1 b1 [[-> ->]|[_ H]]%lookup_insert_Some; [done|by eapply Hmemo]. }
    intros memo' Hmemo'. by apply keeps_ret.
Qed.

Lemma keeps_peel_store coef nzeta_lvl_tot :
  keeps σ0 (_peel_store coef nzeta_lvl_tot) (λ _, True).
Proof.
  unfold _peel_store.
  eapply keeps_bind; [by apply keeps_deepcopy|]. intros [c memo] [Hc _].
  eapply keeps_bind; [apply keeps_loop_store; by constructor|].
  intros coef_lvl _. by apply keeps_ret.
Qed.
End StoreProps.

Section StoreClaims.
Context {F : Type}.
Implicit Types (σ : store F) (v : val F).

Lemma read_list_ext σ ext v xs :
  read_list σ v = Some xs → read_list (σ ++ ext) v = Some xs.
Proof. destruct v; simpl; [done|]. apply lookup_app_l_Some. Qed.

Lemma mapM_read_ext {A} (f g : val F → option A) xs ys :
  (∀ x y, f x = Some y → g x = Some y) →
  mapM f xs = Some ys → mapM g xs = Some ys.
Proof.
  intros Hfg. rewrite !mapM_Some. intros H.
  induction H; constructor; auto.
Qed.

Lemma read_row_ext σ ext v row :
  read_row σ v = Some row → read_row (σ ++ ext) v = Some row.
Proof.
  unfold read_row. intros (xs & Hxs & H)%bind_Some.
  by rewrite (read_list_ext _ _ _ _ Hxs).
Qed.

Lemma read_channel_ext σ ext v ch :
  read_channel σ v = Some ch → read_channel (σ ++ ext) v = Some ch.
Proof.
  unfold read_channel. intros (xs & Hxs & H)%bind_Some.
  rewrite (read_list_ext _ _ _ _ Hxs). simpl.
  eapply mapM_read_ext; [|done]. apply read_row_ext.
Qed.

Lemma read_coef3_ext σ ext v t :
  read_coef3 σ v = Some t → read_coef3 (σ ++ ext) v = Some t.
Proof.
  unfold read_coef3. intros (xs & Hxs & H)%bind_Some.
  rewrite (read_list_ext _ _ _ _ Hxs). simpl.
  eapply mapM_read_ext; [|done]. apply read_channel_ext.
Qed.

(** Claim C9.  Whatever the store, the tensor and the list of zeta
    counts, and whether [_peel] returns or raises, every list object
    that existed before the call holds the same items after it: the
    store is extended, never updated, and the caller's tensor reads the
    same. *)
Theorem peel_store_frame σ coef nzeta_lvl_tot :
  ∃ ext, (_peel_store coef nzeta_lvl_tot σ).2 = σ ++ ext
         ∧ ∀ t, read_coef3 σ coef = Some t →
                read_coef3 (_peel_store coef nzeta_lvl_tot σ).2 coef = Some t.
Proof.
  destruct (keeps_peel_store σ coef nzeta_lvl_tot σ (store_inv_refl σ))
    as [[[ext Hext] _] _].
  exists ext. split; [done|]. intros t Ht. rewrite Hext. by apply read_coef3_ext.
Qed.
End StoreClaims.

(** ** The store model of [_peel] against the value model *)

Section StoreRefinement.
Context {F : Type}.
Implicit Types (σ : store F) (t : coef3 (list F)).

Lemma run_bind_ok {A B} (m : M F A) (k : A → M F B) σ x σ' :
  m σ = (Ok x, σ') → (m ≫= k) σ = k x σ'.
Proof. intros H. unfold mbind, M_bind. by rewrite H. Qed.

Lemma run_bind_raise {A B} (m : M F A) (k : A → M F B) σ e σ' :
  m σ = (Raise e, σ') → (m ≫= k) σ = (Raise e, σ').
Proof. intros H. unfold mbind, M_bind. by rewrite H. Qed.

Lemma agree_off_refl W σ : agree_off W σ σ.
Proof. by split. Qed.

Lemma agree_off_trans W σ1 σ2 σ3 :
  agree_off W σ1 σ2 → agree_off W σ2 σ3 → agree_off W σ1 σ3.
Proof.
  intros [H1 H1'] [H2 H2']. split; [lia|].
  intros a Ha Hlt. rewrite H2' by (done || lia). by apply H1'.
Qed.

Lemma agree_off_insert W σ c xs : c ∈ W → agree_off W σ (<[c := xs]> σ).
Proof.
  intros Hc. split; [by rewrite length_insert|].
  intros a Ha _. apply list_lookup_insert_ne. by intros ->.
Qed.

Lemma agree_off_app W σ ext : agree_off W σ (σ ++ ext).
Proof.
  split; [rewrite length_app; lia|].
  intros a _ Ha. by apply lookup_app_l.
Qed.

Lemma is_row_agree W σ σ' r row :
  agree_off W σ σ' → r ∉ W → is_row σ r row → is_row σ' r row.
Proof.
  intros [_ H] Hr Hrow. unfold is_row in *.
  rewrite H; [done..|]. by eapply lookup_lt_Some.
Qed.

Lemma is_rows_agree W σ σ' rs ch :
  agree_off W σ σ' → (∀ r, r ∈ rs → r ∉ W) →
  Forall2 (is_row σ) rs ch → Forall2 (is_row σ') rs ch.
Proof.
  intros Hag Hrs Hrows.
  induction Hrows as [|r row rs ch Hr _ IH]; constructor.
  - eapply is_row_agree; [done| |done]. apply Hrs. by left.
  - apply IH. intros r' Hr'. apply Hrs. by right.
Qed.

Lemma is_channel_agree W σ σ' c rs ch :
  agree_off W σ σ' → c ∉ W → (∀ r, r ∈ rs → r ∉ W) →
  is_channel σ c rs ch → is_channel σ' c rs ch.
Proof.
  intros Hag Hc Hrs [Hl Hrows]. split.
  - destruct Hag as [_ H]. rewrite H; [done..|]. by eapply lookup_lt_Some.
  - by eapply is_rows_agree.
Qed.

Lemma is_tensor_agree W σ σ' b cs rss t :
  agree_off W σ σ' → b ∉ W → (∀ c, c ∈ cs → c ∉ W) →
  (∀ r, r ∈ concat rss → r ∉ W) →
  is_tensor σ b cs rss t → is_tensor σ' b cs rss t.
Proof.
  intros Hag Hb Hcs Hrss [Hl Hch]. split.
  - destruct Hag as [_ H]. rewrite H; [done..|]. by eapply lookup_lt_Some.
  - clear Hl. induction Hch as [|c rs ch cs rss t Hc _ IH]; constructor.
    + eapply is_channel_agree; [done| | |done].
      * apply Hcs. by left.
      * intros r Hr. apply Hrss. simpl. apply elem_of_app. by left.
    + apply IH.
      * intros c' Hc'. apply Hcs. by right.
      * intros r Hr. apply Hrss. simpl. apply elem_of_app. by right.
Qed.

Lemma is_row_read σ r row : is_row σ r row → read_row σ (VRef r) = Some row.
Proof.
  unfold is_row, read_row. simpl. intros ->. simpl.
  apply mapM_Some. induction row; constructor; auto.
Qed.

Lemma is_channel_read σ c rs ch :
  is_channel σ c rs ch → read_channel σ (VRef c) = Some ch.
Proof.
  intros [Hl Hrows]. unfold read_channel. simpl. rewrite Hl. simpl.
  apply mapM_Some. apply Forall2_fmap_l.
  eapply Forall2_impl; [done|]. intros r row. apply is_row_read.
Qed.

Lemma is_tensor_read σ b cs rss t :
  is_tensor σ b cs rss t → read_coef3 σ (VRef b) = Some t.
Proof.
  intros [Hl Hch]. unfold read_coef3. simpl. rewrite Hl. simpl.
  apply mapM_Some. apply Forall2_fmap_l. clear Hl.
  induction Hch; [by apply Forall2_nil_2|apply Forall2_cons_2; [|done]].
  by eapply is_channel_read.
Qed.

Lemma Forall3_lookup_2 {A B C} (P : A → B → C → Prop) l k k' :
  length l = length k → length l = length k' →
  (∀ i x y z, l !! i = Some x → k !! i = Some y → k' !! i = Some z → P x y z) →
  Forall3 P l k k'.
Proof.
  revert k k'. induction l as [|x l IH]; intros [|y k] [|z k'] ?? H;
    simplify_eq/=; constructor.
  - by apply (H 0).
  - apply IH; [done..|]. intros i. apply (H (S i)).
Qed.

Lemma elem_of_concat_lookup {A} (xss : list (list A)) i xs x :
  xss !! i = Some xs → x ∈ xs → x ∈ concat xss.
Proof.
  revert i. induction xss as [|ys xss IH]; intros [|i] ??; simplify_eq/=;
    apply elem_of_app; eauto.
Qed.

Lemma elem_of_concat_insert {A} (xss : list (list A)) i xs xs' x :
  xss !! i = Some xs → (∀ y, y ∈ xs' → y ∈ xs) →
  x ∈ concat (<[i := xs']> xss) → x ∈ concat xss.
Proof.
  revert i. induction xss as [|ys xss IH]; intros [|i] ? Hsub;
    simplify_eq/=; rewrite !elem_of_app; intros [?|?]; eauto.
Qed.

Lemma is_tensor_pop σ b cs rss t l c r rs x ch :
  is_tensor σ b cs rss t → NoDup cs → b ∉ cs →
  (∀ r, r ∈ concat rss → r ∉ cs) →
  cs !! l = Some c → rss !! l = Some (r :: rs) → t !! l = Some (x :: ch) →
  is_tensor (<[c := VRef <$> rs]> σ) b cs (<[l := rs]> rss) (<[l := ch]> t).
Proof.
  intros [Hb Hch] Hnd Hbcs Hrows Hc Hrs Ht.
  assert (c ∈ cs) as Hcin by by eapply list_elem_of_lookup_2.
  assert (agree_off cs σ (<[c := VRef <$> rs]> σ)) as Hag
    by by apply agree_off_insert.
  split.
  - rewrite list_lookup_insert_ne; [done|]. by intros ->.
  - apply Forall3_lookup_2.
    + rewrite length_insert. by eapply Forall3_length_lm.
    + rewrite length_insert. by eapply Forall3_length_lr.
    + intros i c' rs' ch' Hc' Hrs' Hch'.
      destruct (decide (i = l)) as [->|Hne].
      * rewrite list_lookup_insert_eq in Hrs' by by eapply lookup_lt_Some.
        rewrite list_lookup_insert_eq in Hch' by by eapply lookup_lt_Some.
        simplify_eq.
        destruct (Forall3_lookup_lmr _ _ _ _ _ _ _ _ Hch Hc Hrs Ht)
          as [Hl' Hr'].
        split.
        -- apply list_lookup_insert_eq. by eapply lookup_lt_Some.
        -- inversion Hr' as [|???? _ Hrest]; simplify_eq/=.
           eapply is_rows_agree; [done| |done].
           intros r' Hin. apply Hrows.
           eapply elem_of_concat_lookup; [done|]. by right.
      * rewrite list_lookup_insert_ne in Hrs' by done.
        rewrite list_lookup_insert_ne in Hch' by done.
        destruct (Forall3_lookup_lmr _ _ _ _ _ _ _ _ Hch Hc' Hrs' Hch')
          as [Hl' Hr'].
        split.
        -- rewrite list_lookup_insert_ne; [done|]. intros ->.
           apply Hne. by eapply NoDup_lookup.
        -- eapply is_rows_agree; [done| |done].
           intros r' Hin. apply Hrows. by eapply elem_of_concat_lookup.
Qed.

Lemma subscript_ref σ a xs i x :
  σ !! a = Some xs → xs !! i = Some x →
  subscript (VRef a) i σ = (Ok x, σ).
Proof.
  intros Ha Hx. unfold subscript.
  erewrite run_bind_ok by (unfold load; by rewrite Ha). by rewrite Hx.
Qed.

Lemma subscript_out σ a xs i :
  σ !! a = Some xs → xs !! i = None →
  subscript (F:=F) (VRef a) i σ = (Raise IndexError, σ).
Proof.
  intros Ha Hx. unfold subscript.
  erewrite run_bind_ok by (unfold load; by rewrite Ha). by rewrite Hx.
Qed.

Lemma pop0_cons σ a x xs :
  σ !! a = Some (x :: xs) → pop0 (VRef a) σ = (Ok x, <[a := xs]> σ).
Proof.
  intros Ha. unfold pop0.
  erewrite run_bind_ok by (unfold load; by rewrite Ha). done.
Qed.

Lemma pop0_nil σ a :
  σ !! a = Some [] → pop0 (F:=F) (VRef a) σ = (Raise IndexError, σ).
Proof.
  intros Ha. unfold pop0.
  erewrite run_bind_ok by (unfold load; by rewrite Ha). done.
Qed.

(** The pops of one channel: the value model and the store model take
    the same steps. *)
Lemma pops_sim n σ b cs rss t l :
  is_tensor σ b cs rss t → NoDup cs → b ∉ cs →
  (∀ r, r ∈ concat rss → r ∉ cs) →
  match pop_front_n t l n with
  | Ok (xs, t') =>
      ∃ rs rss' σ',
        pops (VRef b) l n σ = (Ok (VRef <$> rs), σ')
        ∧ is_tensor σ' b cs rss' t'
        ∧ Forall2 (is_row σ') rs xs
        ∧ agree_off cs σ σ' ∧ length σ' = length σ
        ∧ (∀ r, r ∈ rs ++ concat rss' → r ∈ concat rss)
  | Raise e => ∃ σ', pops (VRef b) l n σ = (Raise e, σ')
  end.
Proof.
  revert σ rss t. induction n as [|n IH]; intros σ rss t Ht Hnd Hb Hrows.
  { simpl. exists [], rss, σ.
    split_and!; first [done|constructor|apply agree_off_refl]. }
  cbn [pop_front_n pops]. unfold getitem.
  pose proof Ht as [Hbl Hch].
  destruct (t !! l) as [ch|] eqn:Htl; cbn [mbind res_bind].
  2:{ exists σ. apply run_bind_raise. eapply subscript_out; [done|].
      rewrite list_lookup_fmap.
      rewrite (lookup_ge_None_2 cs); [done|].
      erewrite Forall3_length_lr by done. by apply lookup_ge_None_1. }
  destruct (Forall3_lookup_r _ _ _ _ _ _ Hch Htl) as (c & rs & Hc & Hrs & Hcl & Hrws).
  erewrite run_bind_ok
    by (eapply subscript_ref; [done|]; by rewrite list_lookup_fmap, Hc).
  destruct ch as [|x ch].
  { inversion Hrws; simplify_eq. exists σ. apply run_bind_raise.
    by apply pop0_nil. }
  inversion Hrws as [|r ? rs' ? Hr Hrest]; simplify_eq.
  erewrite run_bind_ok by by apply pop0_cons.
  assert (c ∈ cs) as Hcin by by eapply list_elem_of_lookup_2.
  assert (r ∉ cs) as Hrcs.
  { apply Hrows. eapply elem_of_concat_lookup; [done|]. by left. }
  assert (∀ r', r' ∈ concat (<[l := rs']> rss) → r' ∈ concat rss) as Hsub1.
  { intros r'. eapply elem_of_concat_insert; [done|]. intros; by right. }
  assert (agree_off cs σ (<[c := VRef <$> rs']> σ)) as Hag1
    by by apply agree_off_insert.
  specialize (IH (<[c := VRef <$> rs']> σ) (<[l := rs']> rss) (<[l := ch]> t)).
  specialize (IH ltac:(by eapply is_tensor_pop) Hnd Hb
    ltac:(intros r' Hr'; by apply Hrows, Hsub1)).
  destruct (pop_front_n (<[l := ch]> t) l n) as [[xs t']|e];
    cbn [mbind res_bind].
  - destruct IH as (rs & rss' & σ' & Hrun & Ht' & Hrows' & Hag & Hlen & Hsub).
    exists (r :: rs), rss', σ'. split_and!.
    + by erewrite run_bind_ok by exact Hrun.
    + done.
    + constructor; [|done].
      eapply is_row_agree; [by eapply agree_off_trans|done..].
    + by eapply agree_off_trans.
    + by rewrite Hlen, length_insert.
    + intros r' [->|Hr']%elem_of_cons.
      * eapply elem_of_concat_lookup; [done|]. by left.
      * by apply Hsub1, Hsub.
  - destruct IH as [σ' Hrun]. exists σ'. by apply run_bind_raise.
Qed.
Lemma is_tensor_chan_lt σ b cs rss t c :
  is_tensor σ b cs rss t → c ∈ cs → c < length σ.
Proof.
  intros [_ Hch] [i Hi]%list_elem_of_lookup_1.
  destruct (Forall3_lookup_l _ _ _ _ _ _ Hch Hi) as (rs & ch & _ & _ & Hl & _).
  by eapply lookup_lt_Some.
Qed.

Lemma is_tensor_row_lt σ b cs rss t r :
  is_tensor σ b cs rss t → r ∈ concat rss → r < length σ.
Proof.
  intros [_ Hch] Hr. induction Hch as [|c rs ch cs rss t [_ Hc] _ IH];
    [by apply elem_of_nil in Hr|].
  simpl in Hr. apply elem_of_app in Hr as [Hr|Hr]; [|by apply IH].
  clear IH. induction Hc as [|r' row rs ch Hrow _ IH];
    [by apply elem_of_nil in Hr|].
  apply elem_of_cons in Hr as [->|Hr]; [|by apply IH].
  by eapply lookup_lt_Some.
Qed.

(** One level of [_peel]: the value model and the store model take the
    same steps; the channels of the new level are new objects. *)
Lemma level_sim nzeta_lvl σ b cs rss t l :
  is_tensor σ b cs rss t → NoDup cs → b ∉ cs →
  (∀ r, r ∈ concat rss → r ∉ cs) →
  match peel_level t l nzeta_lvl with
  | Ok (new, t') =>
      ∃ cs_new rss_new rss' σ',
        level_store (VRef b) l nzeta_lvl σ = (Ok (VRef <$> cs_new), σ')
        ∧ Forall3 (is_channel σ') cs_new rss_new new
        ∧ is_tensor σ' b cs rss' t'
        ∧ agree_off cs σ σ'
        ∧ Forall (λ c, length σ ≤ c < length σ') cs_new
        ∧ NoDup cs_new
        ∧ (∀ r, r ∈ concat rss_new ++ concat rss' → r ∈ concat rss)
  | Raise e => ∃ σ', level_store (VRef b) l nzeta_lvl σ = (Raise e, σ')
  end.
Proof.
  revert σ rss t l.
  induction nzeta_lvl as [|n rest IH]; intros σ rss t l Ht Hnd Hb Hrows.
  { simpl. exists [], [], rss, σ.
    split_and!; first [done|constructor|apply agree_off_refl]. }
  cbn [peel_level level_store].
  pose proof (pops_sim n σ b cs rss t l Ht Hnd Hb Hrows) as Hpops.
  destruct (pop_front_n t l n) as [[xs t1]|e]; cbn [mbind res_bind].
  2:{ destruct Hpops as [σ' Hrun]. exists σ'. by apply run_bind_raise. }
  destruct Hpops as (rs & rss1 & σ1 & Hrun & Ht1 & Hrs & Hag1 & Hlen1 & Hsub1).
  erewrite run_bind_ok by exact Hrun.
  erewrite run_bind_ok by reflexivity.
  set (σ2 := σ1 ++ [VRef <$> rs]).
  assert (agree_off cs σ1 σ2) as Hag2 by apply agree_off_app.
  assert (∀ r, r ∈ concat rss1 → r ∉ cs) as Hrows1.
  { intros r Hr. apply Hrows, Hsub1, elem_of_app. by right. }
  assert (∀ r, r ∈ rs → r ∉ cs) as Hrscs.
  { intros r Hr. apply Hrows, Hsub1, elem_of_app. by left. }
  assert (∀ c, c ∈ cs → c < length σ) as Hcslt
    by (intros c; by eapply is_tensor_chan_lt).
  assert (is_tensor σ2 b cs rss1 t1) as Ht2.
  { eapply (is_tensor_agree []); [apply agree_off_app| | | |done];
      intros; apply not_elem_of_nil. }
  specialize (IH σ2 rss1 t1 (S l) Ht2 Hnd Hb Hrows1).
  destruct (peel_level t1 (S l) rest) as [[chs t2]|e]; cbn [mbind res_bind].
  2:{ destruct IH as [σ' Hrun']. exists σ'. by apply run_bind_raise. }
  destruct IH as (cs' & rss_new & rss' & σ' & Hrun' & Hnew & Ht' & Hag' & Hrange & Hnd' & Hsub').
  assert (length σ2 = S (length σ)) as Hlen2.
  { unfold σ2. rewrite length_app, Hlen1. simpl. lia. }
  exists (length σ1 :: cs'), (rs :: rss_new), rss', σ'. split_and!.
  - by erewrite run_bind_ok by exact Hrun'.
  - constructor; [|done].
    eapply (is_channel_agree cs σ2); [done| |done|].
    + intros Hin%Hcslt. lia.
    + split.
      * unfold σ2. by apply list_lookup_middle.
      * eapply (is_rows_agree cs σ1); done.
  - done.
  - eapply agree_off_trans; [done|]. by eapply agree_off_trans.
  - destruct Hag' as [Hle _]. constructor; [lia|].
    eapply Forall_impl; [done|]. simpl. intros; lia.
  - constructor; [|done]. intros Hin.
    eapply Forall_forall in Hrange; [|done]. simpl in Hrange. lia.
  - intros r. simpl. rewrite <- app_assoc, elem_of_app.
    intros [Hr|Hr].
    + apply Hsub1, elem_of_app. by left.
    + apply Hsub1, elem_of_app. right. by apply Hsub'.
Qed.
Lemma forest_struct_lt σ lvs a : forest σ lvs → a ∈ structs lvs → a < length σ.
Proof.
  intros (Hlv & _ & _) (lv & Ha & Hin)%list_elem_of_bind.
  eapply Forall_forall in Hlv; [|done].
  apply elem_of_cons in Ha as [->|Ha].
  - destruct Hlv as [Hl _]. by eapply lookup_lt_Some.
  - by eapply is_tensor_chan_lt.
Qed.

Lemma forest_row_lt σ lvs a : forest σ lvs → a ∈ rows_of lvs → a < length σ.
Proof.
  intros (Hlv & _ & _) (lv & Ha & Hin)%list_elem_of_bind.
  eapply Forall_forall in Hlv; [|done]. by eapply is_tensor_row_lt.
Qed.

Lemma forest_step σ σ' pre cur cs_new rss_new new rss' t' :
  forest σ (pre ++ [cur]) →
  Forall3 (is_channel σ') cs_new rss_new new →
  is_tensor σ' (lv_obj cur) (lv_chans cur) rss' t' →
  agree_off (lv_chans cur) σ σ' →
  Forall (λ c, length σ ≤ c < length σ') cs_new → NoDup cs_new →
  (∀ r, r ∈ concat rss_new ++ concat rss' → r ∈ concat (lv_rows cur)) →
  forest (σ' ++ [VRef <$> cs_new])
    ((pre ++ [Level (lv_obj cur) (lv_chans cur) rss' t'])
       ++ [Level (length σ') cs_new rss_new new]).
Proof.
  intros Hf Hnew Hcur Hag Hrange Hnd Hsub.
  pose proof (λ a, forest_struct_lt _ _ a Hf) as Hslt.
  pose proof (λ a, forest_row_lt _ _ a Hf) as Hrlt.
  pose proof (λ c, proj1 (Forall_forall _ _) Hrange c) as Hrg. simpl in Hrg.
  destruct Hf as (Hlv & Hnds & Hrows).
  assert (length σ ≤ length σ') as Hle by apply Hag.
  unfold forest, structs, rows_of in *.
  rewrite !bind_app in *. simpl in *. rewrite !app_nil_r in *.
  apply Forall_app in Hlv as [Hpre Hc].
  apply NoDup_app in Hnds as (Hnd1 & Hdisj & Hnd2).
  split_and!.
  - rewrite !Forall_app, !Forall_singleton. split_and!.
    + apply Forall_forall. intros lv Hin.
      eapply Forall_forall in Hpre; [|done].
      eapply (is_tensor_agree []); [apply agree_off_app|
        intros; apply not_elem_of_nil..|].
      eapply is_tensor_agree; [exact Hag| | | |exact Hpre].
      * intros Hin'. eapply (Hdisj (lv_obj lv)); [|by right].
        apply list_elem_of_bind. exists lv. split; [by left|done].
      * intros c Hc' Hin'. eapply (Hdisj c); [|by right].
        apply list_elem_of_bind. exists lv. split; [by right|done].
      * intros r Hr Hin'. eapply (Hrows r).
        -- apply elem_of_app. left. apply list_elem_of_bind. by exists lv.
        -- apply elem_of_app. right. by right.
    + eapply (is_tensor_agree []); [apply agree_off_app|
        intros; apply not_elem_of_nil..|done].
    + split; simpl.
      * by apply list_lookup_middle.
      * eapply Forall3_impl; [done|]. intros c rs ch.
        apply (is_channel_agree []); [apply agree_off_app|
          intros; apply not_elem_of_nil..].
  - rewrite <- app_assoc. apply NoDup_app. split_and!; [done| |].
    + intros a Ha. rewrite elem_of_app, !elem_of_cons.
      intros [[->|Hin]|[->|Hin]].
      * eapply (Hdisj (lv_obj cur)); [done|by left].
      * eapply (Hdisj a); [done|by right].
      * assert (length σ' < length σ); [|lia].
        apply Hslt, elem_of_app. by left.
      * apply Hrg in Hin. assert (a < length σ); [|lia].
        apply Hslt, elem_of_app. by left.
    + apply NoDup_app. split_and!; [done| |].
      * intros a Ha. rewrite elem_of_cons. intros [->|Hin].
        -- assert (length σ' < length σ); [|lia].
           apply Hslt, elem_of_app. by right.
        -- apply Hrg in Hin. assert (a < length σ); [|lia].
           apply Hslt, elem_of_app. by right.
      * constructor; [|done]. intros Hin%Hrg. lia.
  - intros r Hr.
    assert (r ∈ (pre ≫= λ lv, concat (lv_rows lv)) ++ concat (lv_rows cur))
      as Hold.
    { rewrite <- app_assoc in Hr. apply elem_of_app in Hr as [Hr|Hr].
      - apply elem_of_app. by left.
      - apply elem_of_app. right. apply Hsub.
        apply elem_of_app in Hr as [?|?]; apply elem_of_app; eauto. }
    rewrite <- app_assoc, !elem_of_app, !elem_of_cons.
    intros [Hin|[[->|Hin]|[->|Hin]]].
    + eapply Hrows; [done|]. apply elem_of_app. by left.
    + eapply Hrows; [done|]. apply elem_of_app. right. by left.
    + eapply Hrows; [done|]. apply elem_of_app. right. by right.
    + apply Hrlt in Hold. lia.
    + apply Hrg in Hin. apply Hrlt in Hold. lia.
Qed.
(** The loop of [_peel]: the value model and the store model take the
    same steps, and the level objects hold the levels of the value
    model. *)
Lemma loop_sim nzeta_lvls σ pre cur :
  forest σ (pre ++ [cur]) →
  match peel_loop (lv_val <$> pre) (lv_val cur) nzeta_lvls with
  | Ok ts =>
      ∃ vs σ',
        loop_store (VRef ∘ lv_obj <$> pre ++ [cur]) nzeta_lvls σ = (Ok vs, σ')
        ∧ Forall2 (λ v t, read_coef3 σ' v = Some t) vs ts
  | Raise e =>
      ∃ σ',
        loop_store (VRef ∘ lv_obj <$> pre ++ [cur]) nzeta_lvls σ
        = (Raise e, σ')
  end.
Proof.
  revert σ pre cur.
  induction nzeta_lvls as [|nzeta_lvl rest IH]; intros σ pre cur Hf.
  { simpl. eexists _, σ. split; [done|].
    change [lv_val cur] with (lv_val <$> [cur]). rewrite <- fmap_app.
    apply Forall2_fmap, Forall_Forall2_diag.
    destruct Hf as (Hlv & _ & _).
    eapply Forall_impl; [done|]. intros lv. apply is_tensor_read. }
  cbn [peel_loop loop_store].
  rewrite fmap_app.
  change (VRef ∘ lv_obj <$> [cur]) with [VRef (F:=F) (lv_obj cur)].
  rewrite last_snoc.
  assert (is_level σ cur) as Hcur.
  { destruct Hf as (Hlv & _ & _).
    apply Forall_app in Hlv as [_ Hlv]. by inversion Hlv. }
  assert (NoDup (lv_obj cur :: lv_chans cur)) as [Hb Hnd]%NoDup_cons.
  { destruct Hf as (_ & Hnd & _). unfold structs in Hnd.
    rewrite bind_app, bind_singleton in Hnd. by apply NoDup_app in Hnd as (_ & _ & ?). }
  assert (∀ r, r ∈ concat (lv_rows cur) → r ∉ lv_chans cur) as Hrows.
  { destruct Hf as (_ & _ & Hrows). intros r Hr Hin. eapply (Hrows r).
    - unfold rows_of. rewrite bind_app, bind_singleton, elem_of_app. by right.
    - unfold structs. rewrite bind_app, bind_singleton, elem_of_app.
      right. by right. }
  pose proof (level_sim nzeta_lvl σ _ _ _ _ 0 Hcur Hnd Hb Hrows) as Hlevel.
  destruct (peel_level (lv_val cur) 0 nzeta_lvl) as [[new t']|e];
    cbn [mbind res_bind].
  2:{ destruct Hlevel as [σ' Hrun]. exists σ'. by apply run_bind_raise. }
  destruct Hlevel
    as (cs_new & rss_new & rss' & σ' & Hrun & Hnew & Ht' & Hag & Hrange & Hnd' & Hsub).
  erewrite run_bind_ok by exact Hrun.
  erewrite run_bind_ok by reflexivity.
  pose proof (forest_step _ _ _ _ _ _ _ _ _ Hf Hnew Ht' Hag Hrange Hnd' Hsub)
    as Hf'.
  specialize (IH _ _ _ Hf').
  rewrite !fmap_app in IH. exact IH.
Qed.
Lemma deepcopy_num d (x : F) memo : deepcopy d (VNum x) memo = mret (VNum x, memo).
Proof. by destruct d. Qed.

Lemma append_run σ b acc (v : val F) :
  σ !! b = Some acc → append b v σ = (Ok (), <[b := acc ++ [v]]> σ).
Proof.
  intros Hb. unfold append.
  by erewrite run_bind_ok by (unfold load; by rewrite Hb).
Qed.

Lemma insert_middle {A} (l1 l2 : list A) x y :
  <[length l1 := y]> (l1 ++ x :: l2) = l1 ++ y :: l2.
Proof.
  rewrite insert_app_r_alt by done. by rewrite Nat.sub_diag.
Qed.

Lemma copy_items_nums d b (row : list F) acc memo σ :
  σ !! b = Some acc →
  copy_items (deepcopy d) b (VNum <$> row) memo σ
  = (Ok memo, <[b := acc ++ (VNum <$> row)]> σ).
Proof.
  revert acc σ. induction row as [|x row IH]; intros acc σ Hb.
  { simpl. by rewrite app_nil_r, list_insert_id. }
  cbn [fmap list_fmap copy_items]. rewrite deepcopy_num.
  erewrite run_bind_ok by reflexivity. cbv beta iota.
  erewrite run_bind_ok by by apply append_run.
  change (list_fmap F (val F) VNum row) with (VNum <$> row).
  rewrite (IH (acc ++ [VNum x])).
  - by rewrite list_insert_insert_eq, <- app_assoc.
  - apply list_lookup_insert_eq. by eapply lookup_lt_Some.
Qed.

Lemma deepcopy_row d σ r row memo :
  is_row σ r row → memo !! r = None →
  deepcopy (S d) (VRef r) memo σ
  = (Ok (VRef (length σ), <[r := length σ]> memo), σ ++ [VNum <$> row]).
Proof.
  intros Hr Hmemo. cbn [deepcopy]. rewrite Hmemo.
  erewrite run_bind_ok by (unfold load; by rewrite Hr).
  erewrite run_bind_ok by reflexivity.
  erewrite run_bind_ok
    by (apply copy_items_nums with (acc := []); apply list_lookup_middle; done).
  by rewrite insert_middle.
Qed.
Lemma copy_items_rows d σ0 acc body rs ch memo :
  Forall2 (is_row σ0) rs ch → NoDup rs → (∀ r, r ∈ rs → memo !! r = None) →
  ∃ memo',
    copy_items (deepcopy (S d)) (length σ0) (VRef <$> rs) memo
      (σ0 ++ acc :: body)
    = (Ok memo',
       σ0 ++ (acc ++ (VRef <$> seq (length (σ0 ++ acc :: body)) (length rs)))
          :: body ++ row_objs ch)
    ∧ (∀ a, memo !! a = None → a ∉ rs → memo' !! a = None).
Proof.
  intros Hrows. revert acc body memo.
  induction Hrows as [|r row rs ch Hr Hrest IH];
    intros acc body memo Hnd Hmemo.
  { exists memo. simpl. by rewrite !app_nil_r. }
  apply NoDup_cons in Hnd as [Hrrs Hnd].
  cbn [fmap list_fmap copy_items].
  set (σ := σ0 ++ acc :: body).
  assert (is_row σ r row) as Hr'.
  { unfold is_row, σ. rewrite lookup_app_l; [done|]. by eapply lookup_lt_Some. }
  erewrite run_bind_ok
    by (apply deepcopy_row; [done|]; apply Hmemo; by left).
  cbv beta iota.
  replace (σ ++ [VNum <$> row]) with (σ0 ++ acc :: (body ++ [VNum <$> row]))
    by (unfold σ; by rewrite <- app_assoc).
  erewrite run_bind_ok by (apply append_run; by apply list_lookup_middle).
  rewrite insert_middle.
  destruct (IH (acc ++ [VRef (length σ)]) (body ++ [VNum <$> row])
    (<[r := length σ]> memo) Hnd) as (memo' & Hrun & Hmemo').
  { intros r' Hr''. rewrite lookup_insert_ne; [apply Hmemo; by right|].
    by intros ->. }
  exists memo'. split.
  - change (list_fmap nat (val F) VRef rs) with (VRef (F:=F) <$> rs).
    rewrite Hrun. f_equal. f_equal.
    assert (length (σ0 ++ (acc ++ [VRef (length σ)]) :: body ++ [VNum <$> row])
            = S (length σ)) as ->.
    { unfold σ. rewrite !length_app. simpl. rewrite !length_app. simpl. lia. }
    simpl. by rewrite <- !app_assoc.
  - intros a Ha Hin. apply Hmemo'.
    + rewrite lookup_insert_ne; [done|]. intros ->. apply Hin. by left.
    + intros ?. apply Hin. by right.
Qed.

Lemma deepcopy_channel d σ c rs ch memo :
  is_channel σ c rs ch → memo !! c = None → NoDup (c :: rs) →
  (∀ r, r ∈ rs → memo !! r = None) →
  ∃ memo',
    deepcopy (S (S d)) (VRef c) memo σ
    = (Ok (VRef (length σ), memo'),
       σ ++ (VRef <$> seq (S (length σ)) (length ch)) :: row_objs ch)
    ∧ (∀ a, memo !! a = None → a ∉ c :: rs → memo' !! a = None).
Proof.
  intros [Hc Hrows] Hmemo [Hcrs Hnd]%NoDup_cons Hrs.
  cbn [deepcopy]. rewrite Hmemo.
  erewrite run_bind_ok by (unfold load; by rewrite Hc).
  erewrite run_bind_ok by reflexivity.
  destruct (copy_items_rows d σ [] [] rs ch (<[c := length σ]> memo) Hrows Hnd)
    as (memo' & Hrun & Hmemo').
  { intros r Hr. rewrite lookup_insert_ne; [by apply Hrs|]. by intros ->. }
  exists memo'. split.
  - erewrite run_bind_ok by exact Hrun. simpl.
    rewrite length_app. simpl. rewrite Nat.add_1_r.
    by rewrite (Forall2_length _ _ _ Hrows).
  - intros a Ha Hin. apply Hmemo'.
    + rewrite lookup_insert_ne; [done|]. intros ->. apply Hin. by left.
    + intros ?. apply Hin. by right.
Qed.

Lemma is_channel_block σ (ch : list (list F)) :
  is_channel
    (σ ++ (VRef <$> seq (S (length σ)) (length ch)) :: row_objs ch)
    (length σ) (seq (S (length σ)) (length ch)) ch.
Proof.
  split; [by apply list_lookup_middle|].
  apply Forall2_same_length_lookup_2; [by rewrite length_seq|].
  intros i r row [-> Hi]%lookup_seq Hrow. unfold is_row.
  rewrite lookup_app_r by lia.
  replace (S (length σ) + i - length σ) with (S i) by lia. simpl.
  unfold row_objs. by rewrite list_lookup_fmap, Hrow.
Qed.
Lemma agree_off_middle σ0 (x y : list (val F)) body ext :
  agree_off [length σ0] (σ0 ++ x :: body) (σ0 ++ y :: body ++ ext).
Proof.
  split.
  - rewrite !length_app. simpl. rewrite length_app. lia.
  - intros a Ha%not_elem_of_cons Hlt. destruct Ha as [Ha _].
    rewrite length_app in Hlt. simpl in Hlt.
    destruct (decide (a < length σ0)).
    + by rewrite !lookup_app_l by done.
    + rewrite !lookup_app_r by lia.
      destruct (a - length σ0) as [|k] eqn:Hk; [lia|]. simpl.
      apply lookup_app_l. lia.
Qed.

Lemma copy_items_chans d σ0 acc body cs rss t memo :
  Forall3 (is_channel σ0) cs rss t → NoDup (cs ++ concat rss) →
  (∀ a, a ∈ cs ++ concat rss → memo !! a = None) →
  ∃ memo' cs' rss' ext,
    copy_items (deepcopy (S (S d))) (length σ0) (VRef <$> cs) memo
      (σ0 ++ acc :: body)
    = (Ok memo', σ0 ++ (acc ++ (VRef <$> cs')) :: body ++ ext)
    ∧ Forall3 (is_channel (σ0 ++ (acc ++ (VRef <$> cs')) :: body ++ ext))
        cs' rss' t
    ∧ (∀ a, a ∈ cs' ++ concat rss' → length (σ0 ++ acc :: body) ≤ a)
    ∧ NoDup cs'
    ∧ (∀ r, r ∈ concat rss' → r ∉ cs').
Proof.
  intros Hch. revert acc body memo.
  induction Hch as [|c rs ch cs rss t Hc _ IH]; intros acc body memo Hnd Hmemo.
  { exists memo, [], [], []. simpl. rewrite !app_nil_r.
    split_and!; [done|constructor| |constructor|];
      by intros ? ?%elem_of_nil. }
  set (σ := σ0 ++ acc :: body).
  assert (is_channel σ c rs ch) as Hc'.
  { eapply (is_channel_agree []); [apply agree_off_app|
      intros; apply not_elem_of_nil..|done]. }
  simpl in Hnd, Hmemo.
  rewrite NoDup_cons, !NoDup_app in Hnd.
  destruct Hnd as (Hccs & Hnd1 & Hdisj1 & Hnd2 & Hdisj2 & Hnd3).
  rewrite !elem_of_app in Hccs.
  destruct (deepcopy_channel d σ c rs ch memo Hc') as (memo1 & Hrun1 & Hmemo1).
  { apply Hmemo. by left. }
  { constructor; [|done]. intros Hin. apply Hccs. eauto. }
  { intros r Hr. apply Hmemo. right. rewrite !elem_of_app. eauto. }
  set (n := length σ) in *. set (k := length ch) in *.
  set (block := (VRef (F:=F) <$> seq (S n) k) :: row_objs ch) in *.
  destruct (IH (acc ++ [VRef n]) (body ++ block) memo1)
    as (memo' & cs' & rss' & ext & Hrun & Hrep & Hlow & Hndcs & Hrcs).
  { apply NoDup_app. split_and!; [done| |done].
    intros a Ha Hin. eapply Hdisj1; [done|]. apply elem_of_app. by right. }
  { intros a Ha. apply Hmemo1.
    - apply Hmemo. right. rewrite !elem_of_app in *. tauto.
    - intros [->|Hin]%elem_of_cons.
      + apply Hccs. rewrite elem_of_app in Ha. tauto.
      + apply elem_of_app in Ha as [Ha|Ha].
        * eapply Hdisj1; [done|]. apply elem_of_app. by left.
        * by eapply Hdisj2. }
  assert (length σ0 < n) as Hn.
  { unfold n, σ. rewrite length_app. simpl. lia. }
  assert (length (σ0 ++ (acc ++ [VRef n]) :: body ++ block) = S n + k) as Hlen'.
  { unfold n, σ, block, k, row_objs. rewrite !length_app. simpl.
    rewrite !length_app. simpl. rewrite length_fmap. lia. }
  rewrite Hlen' in Hlow.
  assert (σ ++ block = σ0 ++ acc :: (body ++ block)) as Hσ
    by (unfold σ; by rewrite <- app_assoc).
  exists memo', (n :: cs'), (seq (S n) k :: rss'), (block ++ ext).
  assert (σ0 ++ (acc ++ (VRef <$> n :: cs')) :: body ++ block ++ ext
          = σ0 ++ ((acc ++ [VRef n]) ++ (VRef <$> cs')) :: (body ++ block) ++ ext)
    as -> by (simpl; by rewrite <- !app_assoc).
  split_and!.
  - cbn [fmap list_fmap copy_items].
    erewrite run_bind_ok by exact Hrun1. cbv beta iota. rewrite Hσ.
    erewrite run_bind_ok by (apply append_run; by apply list_lookup_middle).
    rewrite insert_middle. exact Hrun.
  - constructor; [|done].
    eapply (is_channel_agree [length σ0]);
      [apply (agree_off_middle σ0 acc)| | |].
    + intros ->%list_elem_of_singleton. lia.
    + intros r [Hr _]%elem_of_seq ->%list_elem_of_singleton. lia.
    + rewrite <- Hσ. apply is_channel_block.
  - intros a. simpl. rewrite elem_of_cons, !elem_of_app, elem_of_seq.
    intros [->|[Ha|[Ha|Ha]]]; [done| |lia|].
    + assert (S n + k ≤ a); [|lia]. apply Hlow, elem_of_app. by left.
    + assert (S n + k ≤ a); [|lia]. apply Hlow, elem_of_app. by right.
  - constructor; [|done]. intros Hin.
    assert (S n + k ≤ n); [|lia]. apply Hlow, elem_of_app. by left.
  - intros r. simpl. rewrite elem_of_app, elem_of_cons, elem_of_seq.
    intros [Hr|Hr] [->|Hin].
    + lia.
    + assert (S n + k ≤ r); [|lia]. apply Hlow, elem_of_app. by left.
    + assert (S n + k ≤ n); [|lia]. apply Hlow, elem_of_app. by right.
    + by eapply Hrcs.
Qed.

Lemma deepcopy_tensor σ b cs rss t :
  is_tensor σ b cs rss t → NoDup (b :: cs ++ concat rss) →
  ∃ b' cs' rss' memo' σ',
    deepcopy 3 (VRef b) ∅ σ = (Ok (VRef b', memo'), σ')
    ∧ forest σ' [Level b' cs' rss' t].
Proof.
  intros [Hb Hch] [Hbin Hnd]%NoDup_cons.
  cbn [deepcopy]. rewrite lookup_empty.
  erewrite run_bind_ok by (unfold load; by rewrite Hb).
  erewrite run_bind_ok by reflexivity.
  destruct (copy_items_chans 0 σ [] [] cs rss t (<[b := length σ]> ∅) Hch Hnd)
    as (memo' & cs' & rss' & ext & Hrun & Hrep & Hlow & Hndcs & Hrcs).
  { intros a Ha. rewrite lookup_insert_ne; [apply lookup_empty|].
    by intros ->. }
  simpl in Hrun, Hrep. rewrite length_app in Hlow. simpl in Hlow.
  eexists (length σ), cs', rss', memo', _. split.
  { by erewrite run_bind_ok by exact Hrun. }
  split_and!.
  - constructor; [|constructor]. split; [|done].
    by apply list_lookup_middle.
  - unfold structs. simpl. rewrite app_nil_r. constructor; [|done].
    intros Hin. assert (length σ + 1 ≤ length σ); [|lia].
    apply Hlow, elem_of_app. by left.
  - unfold structs, rows_of. simpl. rewrite !app_nil_r.
    intros r Hr [->|Hin]%elem_of_cons.
    + assert (length σ + 1 ≤ length σ); [|lia].
      apply Hlow, elem_of_app. by right.
    + by eapply Hrcs.
Qed.

(** On a tensor whose list objects are all distinct, [_peel] in the
    store does what [_peel] on values does: it raises the same
    exception, or it returns references to level objects that hold the
    levels of the value model. *)
Theorem peel_store_refines σ b cs rss t nzeta_lvl_tot :
  is_tensor σ b cs rss t → NoDup (b :: cs ++ concat rss) →
  match _peel t nzeta_lvl_tot with
  | Ok levels =>
      ∃ vs σ',
        _peel_store (VRef b) nzeta_lvl_tot σ = (Ok vs, σ')
        ∧ mapM (read_coef3 σ') vs = Some levels
  | Raise e => ∃ σ', _peel_store (VRef b) nzeta_lvl_tot σ = (Raise e, σ')
  end.
Proof.
  intros Ht Hnd.
  destruct (deepcopy_tensor σ b cs rss t Ht Hnd)
    as (b' & cs' & rss' & memo' & σ1 & Hcopy & Hf).
  pose proof (loop_sim (rev nzeta_lvl_tot) σ1 [] _ Hf) as Hloop.
  unfold _peel, _peel_store. simpl in Hloop.
  erewrite run_bind_ok by exact Hcopy. cbv beta iota.
  destruct (peel_loop [] t (rev nzeta_lvl_tot)) as [ts|e];
    cbn [mbind res_bind].
  - destruct Hloop as (vs & σ' & Hrun & Hread).
    exists (rev (tail vs)), σ'. split.
    + by erewrite run_bind_ok by exact Hrun.
    + apply mapM_Some. rewrite !rev_alt. apply Forall2_reverse.
      destruct Hread; [constructor|done].
  - destruct Hloop as [σ' Hrun]. exists σ'. by apply run_bind_raise.
Qed.
End StoreRefinement.

Section OnionProps.
Context {R Bands Options : Type}.
Variable initgen_jy : guess → list nat → list Z → res (coef3 R).
Variable initgen_pw : guess → res (coef3 R).
Variable dirname : string → string.
Variable nzeta_analysis : string → res (list (list (list nat))).
Variable opt :
  coef4 R → option (coef4 R) → list nat → Bands → Options → nat → res (coef4 R).
Variables (nzeta : list (list nat)) (deps : list (option nat)).
Variables (nthreads : nat) (options : Options) (g : guess).

Local Abbreviation loop :=
  (onion_loop initgen_jy initgen_pw dirname nzeta_analysis opt
     nzeta deps nthreads options g).
Local Abbreviation coef_guess :=
  (_coef_guess initgen_jy initgen_pw dirname nzeta_analysis).

(** What one pass of the loop does to [coefs]. *)
Lemma onion_loop_step coefs iorb index_ nzeta_ iconfs_ ibands_ rest final :
  loop coefs iorb ((index_, (nzeta_, (iconfs_, ibands_))) :: rest) = Ok final →
  ∃ nzeta_inner coef_init dep coef_inner coefs_shell,
    coef_guess g nzeta_ nzeta_inner = Ok coef_init
    ∧ deps !! iorb = Some dep
    ∧ match dep with
      | None => coef_inner = None
      | Some p => coefs !! p = Some coef_inner
      end
    ∧ opt coef_init coef_inner iconfs_ ibands_ options nthreads = Ok coefs_shell
    ∧ loop (<[iorb := Some (match coef_inner with
                             | Some inner => merge (A:=R) 2 inner coefs_shell
                             | None => coefs_shell
                             end)]> coefs) (S iorb) rest = Ok final.
Proof.
  simpl. intros H.
  apply bind_Ok in H as (nzeta_inner & _ & H).
  apply bind_Ok in H as (coef_init & Hinit & H).
  apply bind_Ok in H as (dep & Hdep & H).
  apply bind_Ok in H as (coef_inner & Hinner & H).
  apply bind_Ok in H as (coefs_shell & Hopt & H).
  exists nzeta_inner, coef_init, dep, coef_inner, coefs_shell.
  split_and!; [done| | |done..].
  - unfold getitem in Hdep. by destruct (deps !! iorb); simplify_eq.
  - destruct dep as [p|]; [|by simplify_eq].
    unfold getitem in Hinner. by destruct (coefs !! p); simplify_eq.
Qed.

(** The loop writes only at the indexes it runs through. *)
Lemma onion_loop_frame shells coefs iorb final :
  loop coefs iorb shells = Ok final →
  length final = length coefs ∧ ∀ j, j < iorb → final !! j = coefs !! j.
Proof.
  revert coefs iorb.
  induction shells as [|[index_ [nzeta_ [iconfs_ ibands_]]] rest IH];
    intros coefs iorb H.
  { simpl in H. by simplify_eq. }
  apply onion_loop_step in H as (? & ? & ? & coef_inner & coefs_shell & _ & _ & _ & _ & H).
  apply IH in H as [Hlen Hframe]. rewrite length_insert in Hlen.
  split; [done|]. intros j Hj.
  rewrite Hframe by lia. apply list_lookup_insert_ne. lia.
Qed.

Lemma onion_loop_extends shells coefs iorb final j sh p :
  loop coefs iorb shells = Ok final →
  iorb + length shells ≤ length coefs →
  (∀ q, q < iorb → ∃ c, coefs !! q = Some (Some c)) →
  shells !! j = Some sh →
  deps !! (iorb + j) = Some (Some p) → p < iorb + j →
  ∃ parent coef_init coefs_shell,
    final !! p = Some (Some parent)
    ∧ opt coef_init (Some parent) sh.2.2.1 sh.2.2.2 options nthreads = Ok coefs_shell
    ∧ final !! (iorb + j) = Some (Some (merge (A:=R) 2 parent coefs_shell)).
Proof.
  revert coefs iorb j.
  induction shells as [|[index_ [nzeta_ [iconfs_ ibands_]]] rest IH];
    intros coefs iorb j H Hlen Hdone Hsh Hdep Hp; [done|].
  simpl in Hlen.
  apply onion_loop_step in H
    as (nzeta_inner & coef_init & dep & coef_inner & coefs_shell
        & Hinit & Hd & Hinner & Hopt & H).
  destruct j as [|j].
  - simplify_eq/=. rewrite Nat.add_0_r in *. simplify_eq.
    destruct (Hdone p Hp) as [parent Hparent]. simplify_eq.
    apply onion_loop_frame in H as [_ Hframe].
    exists parent, coef_init, coefs_shell. split_and!; [|done|].
    + rewrite Hframe by lia. rewrite list_lookup_insert_ne by lia. done.
    + rewrite Hframe by lia. apply list_lookup_insert_eq. lia.
  - simpl in Hsh. replace (iorb + S j) with (S iorb + j) in * by lia.
    eapply IH; [done| | |done..].
    + rewrite length_insert. lia.
    + intros q Hq. destruct (decide (q = iorb)) as [->|Hne].
      * rewrite list_lookup_insert_eq by lia. eauto.
      * rewrite list_lookup_insert_ne by done. apply Hdone. lia.
Qed.
End OnionProps.

Section OnionClaims.
Context {R Bands Options : Type}.
Variable initgen_jy : guess → list nat → list Z → res (coef3 R).
Variable initgen_pw : guess → res (coef3 R).
Variable dirname : string → string.
Variable nzeta_analysis : string → res (list (list (list nat))).
Variable opt :
  coef4 R → option (coef4 R) → list nat → Bands → Options → nat → res (coef4 R).

Lemma merge_parent_prefix (parent shell : coef4 R) t l tp ch :
  parent !! t = Some tp → tp !! l = Some ch →
  ∃ tc rows, merge (A:=R) 2 parent shell !! t = Some tc
             ∧ tc !! l = Some (ch ++ rows).
Proof.
  intros Ht Hl. simpl. rewrite lookup_zip_long, Ht.
  destruct (shell !! t) as [ts|]; [|exists tp, []; by rewrite app_nil_r].
  destruct (ts !! l) as [rows|] eqn:Hrows.
  - exists (zip_long app tp ts), rows. split; [done|].
    by rewrite lookup_zip_long, Hl, Hrows.
  - exists (zip_long app tp ts), []. split; [done|].
    by rewrite lookup_zip_long, Hl, Hrows, app_nil_r.
Qed.

(** In a run of [_do_onion_opt] that returns, take a shell [i] that
    the loop reached and whose parent [p] comes before it in the list.
    The minimizer was called for [i] with the output tensor
    of [p] as the frozen block; the output tensor of [i] is the merge
    of the parent's output with the block the minimizer returned; the
    parent's output is still in the result, unchanged; and every
    channel of the child's tensor starts with the rows of the same
    channel of the parent. *)
Theorem onion_child_extends_parent
    (nzeta iconfs : list (list nat)) (ibands : list Bands)
    (deps : list (option nat)) nthreads options g coefs i p :
  _do_onion_opt initgen_jy initgen_pw dirname nzeta_analysis opt
    nzeta iconfs ibands deps nthreads options g = Ok coefs →
  i < length nzeta → i < length iconfs → i < length ibands →
  deps !! i = Some (Some p) → p < i →
  ∃ parent coef_init iconfs_ ibands_ coefs_shell,
    coefs !! p = Some (Some parent)
    ∧ iconfs !! i = Some iconfs_ ∧ ibands !! i = Some ibands_
    ∧ opt coef_init (Some parent) iconfs_ ibands_ options nthreads = Ok coefs_shell
    ∧ coefs !! i = Some (Some (merge (A:=R) 2 parent coefs_shell))
    ∧ ∀ t l tp ch, parent !! t = Some tp → tp !! l = Some ch →
        ∃ tc rows, merge (A:=R) 2 parent coefs_shell !! t = Some tc
                   ∧ tc !! l = Some (ch ++ rows).
Proof.
  unfold _do_onion_opt. intros H Hn Hic Hib Hdep Hp.
  destruct (lookup_lt_is_Some_2 nzeta i Hn) as [nzeta_ Hnzeta].
  destruct (lookup_lt_is_Some_2 iconfs i Hic) as [iconfs_ Hiconfs].
  destruct (lookup_lt_is_Some_2 ibands i Hib) as [ibands_ Hibands].
  eapply (onion_loop_extends _ _ _ _ _ _ _ _ _ _ _ _ 0 _ i
            (Some p, (nzeta_, (iconfs_, ibands_))) p) in H as
      (parent & coef_init & coefs_shell & Hparent & Hopt & Hchild);
    [| |intros; lia| |done..].
  - exists parent, coef_init, iconfs_, ibands_, coefs_shell.
    split_and!; [done..|]. intros. by eapply merge_parent_prefix.
  - rewrite length_replicate, !length_zip_with. simpl. lia.
  - apply lookup_zip_with_Some. eexists _, _. split_and!; [done..|].
    apply lookup_zip_with_Some. eexists _, _. split_and!; [done..|].
    apply lookup_zip_with_Some. eexists _, _. split_and!; done.
Qed.

(** Claim C1, which the code does not meet.  The shells are listed
    child first: shell 0 has two zeta functions and names shell 1, with
    one, as its parent.  The loop takes the shells in list order, so
    the minimizer is called for the child with no frozen block
    ([None]): the parent's slot of [coefs] is still empty.  The child's
    tensor is the new row alone, and does not contain the row that the
    parent is given afterwards. *)
Theorem onion_child_before_parent (row0 row1 : R)
    (iconfs0 iconfs1 : list nat) (ibands0 ibands1 : Bands)
    nthreads options nzeta_max diagnosis orb_mat :
  _do_onion_opt initgen_jy (λ _, Ok [[row0; row1]]) dirname nzeta_analysis opt
    [[2]; [1]] [iconfs0; iconfs1] [ibands0; ibands1] [Some 1; None]
    nthreads options (GuessPw nzeta_max diagnosis orb_mat)
  = (child ← opt [[[row1]]] None iconfs0 ibands0 options nthreads;
     parent ← opt [[[row0]]] None iconfs1 ibands1 options nthreads;
     Ok [Some child; Some parent]).
Proof.
  unfold _do_onion_opt. simpl.
  destruct (opt [[[row1]]] None iconfs0 ibands0 options nthreads) as [child|e];
    simpl; [|done].
  by destruct (opt [[[row0]]] None iconfs1 ibands1 options nthreads).
Qed.
End OnionClaims.

(** Claim C2, which the code does not meet.  The same shells, listed
    child first, with a seed tensor of one channel with the rows 1 and
    2 and a minimizer that returns its initial guess: the run returns,
    shell 0 declares shell 1 as its parent, and its output tensor is
    the row 2 alone.  It is not the parent's output tensor (the row 1)
    with rows appended, whatever the rows. *)
Theorem onion_child_first_lacks_parent :
  _do_onion_opt Examples.initgen_jy Examples.initgen_pw (λ s, s)
    Examples.nzeta_analysis Examples.opt_id
    [[2]; [1]] [[0]; [0]] [(); ()] [Some 1; None] 4 () Examples.pw_guess
  = Ok [Some [[[2]]]; Some [[[1]]]]
  ∧ ¬ ∃ shell : coef4 nat, [[[2]]] = merge (A:=nat) 2 [[[1]]] shell.
Proof.
  split; [reflexivity|].
  intros [[|[|ch t] shell] H]; simpl in H; discriminate.
Qed.

Section InferenceProps.
Context {K Wfc Ovlp : Type} `{EqDecision K}.
Variable read_folder : string → res (@run_data K Wfc Ovlp).
Variable wfc_analysis_api :
  Wfc → Ovlp → list nat → list (list nat) → string → Z → float
  → list (list float).

(** Claim C7.  For a folder whose files are read and whose two
    [nspin] agree, if the band count asked for exceeds the number of
    bands of the first wavefunction file, [_nzeta_infer] raises an
    [AssertionError] whose message gives both numbers; this happens in
    the first pass of the loop, before the overlap matrix is read and
    whatever the population analysis would return. *)
Theorem nzeta_infer_too_many_bands folder run nband pop svd_thr
    f ik_ occ_s occ_sk :
  read_folder folder = Ok run →
  input_nspin run = running_nspin run →
  0 < input_nspin run * length (running_wk run) →
  wfc_files run !! 0 = Some f →
  kpt_index (istate_kpts run) (wfc_kpt f) = Ok ik_ →
  istate_occ run !! 0 = Some occ_s →
  occ_s !! ik_ = Some occ_sk →
  let requested :=
    match nband with
    | NbandInt n => n
    | NbandOcc =>
        Z.of_nat (length (filter (λ o, Is_true (0 <? o)%float) occ_sk))
    | NbandAll => Z.of_nat (length occ_sk)
    end in
  (Z.of_nat (wfc_nbands f) < requested)%Z →
  _nzeta_infer read_folder wfc_analysis_api folder nband pop svd_thr
  = Raise (AssertionError
             ("ERROR: number of bands for orbgen is larger than calculated: "
                +:+ repr_Z requested +:+ " > " +:+ repr_nat (wfc_nbands f))).
Proof.
  intros Hrun Hnspin Hloop Hf Hk Hoccs Hocc requested Hlt.
  assert (∀ nzeta, infer_step wfc_analysis_api run pop svd_thr 0 (nzeta, nband)
          = Raise (AssertionError (nbands_error_msg requested (wfc_nbands f))))
    as Hstep.
  { intros nzeta. unfold infer_step. rewrite !Nat.Div0.mod_0_l.
    destruct (running_wk run) as [|w wk]; [simpl in Hloop; lia|].
    unfold getitem, read_file. rewrite Hf, Hoccs. cbn [lookup list_lookup mbind res_bind].
    rewrite Hk. cbn [mbind res_bind]. rewrite Hocc. cbn [mbind res_bind].
    fold requested. unfold py_assert.
    rewrite bool_decide_eq_false_2 by lia. done. }
  unfold _nzeta_infer. rewrite Hrun. cbn [mbind res_bind].
  unfold py_assert at 1.
  rewrite (bool_decide_eq_true_2 (input_nspin run = running_nspin run)) by done.
  cbn [mbind res_bind]. unfold range. rewrite Nat.sub_0_r.
  destruct (input_nspin run * length (running_wk run)) as [|m]; [lia|].
  cbn [seq infer_loop]. rewrite Hstep. done.
Qed.
End InferenceProps.

Section DiscoveryProps.
Variable listdir : string → list string.
Variable isfile : string → bool.
Variable folder : string.

Local Abbreviation files :=
  (filter (λ f, isfile (path_join folder f)) (listdir folder)).

Lemma truthy_filter_fmap (P : string → bool) (fs : list string) f :
  f ∈ fs → P f = true → truthy (path_join folder <$> filter (λ f, P f) fs) = true.
Proof.
  intros Hin HP.
  assert (f ∈ filter (λ f, P f) fs) as Hf.
  { apply list_elem_of_filter. split; [by rewrite HP|done]. }
  destruct (filter (λ f, P f) fs); [by apply elem_of_nil in Hf|done].
Qed.

(** Legacy and new-style files together are refused. *)
Lemma orb_matrices_mixed f_old f_new :
  f_old ∈ files → re_match old f_old = true →
  f_new ∈ files → re_match new f_new = true →
  _orb_matrices listdir isfile folder = Raise (AssertionError "").
Proof.
  intros Ho Hmo Hn Hmn. unfold _orb_matrices.
  rewrite (truthy_filter_fmap (re_match old) _ f_old) by done.
  rewrite (truthy_filter_fmap (re_match new) _ f_new) by done.
  done.
Qed.

(** An odd number of new-style files is refused. *)
Lemma orb_matrices_odd :
  length (filter (λ f, re_match new f) files) mod 2 = 1 →
  _orb_matrices listdir isfile folder = Raise (AssertionError "").
Proof.
  intros Hodd. unfold _orb_matrices.
  set (old_files := path_join folder <$> filter (λ f, re_match old f) files).
  set (new_files := path_join folder <$> filter (λ f, re_match new f) files).
  assert (length new_files mod 2 = 1) as Hlen.
  { unfold new_files. by rewrite length_fmap. }
  assert (truthy new_files = true) as Hnew.
  { destruct new_files; [done|done]. }
  rewrite Hnew, Hlen. simpl.
  destruct (truthy old_files); simpl; [done|].
  by destruct (length old_files =? 2).
Qed.

(** Exactly the two legacy files: one pair. *)
Lemma orb_matrices_legacy f0 f1 :
  files = [f0; f1] →
  re_match old f0 = true → re_match old f1 = true →
  re_match new f0 = false → re_match new f1 = false →
  _orb_matrices listdir isfile folder
  = Ok [(path_join folder f0, path_join folder f1)].
Proof.
  intros Hfiles Ho0 Ho1 Hn0 Hn1. unfold _orb_matrices. rewrite Hfiles.
  rewrite !filter_cons, !filter_nil, Ho0, Ho1, Hn0, Hn1. done.
Qed.
End DiscoveryProps.

Lemma orb_matrices_legacy_names :
  re_match old "orb_matrix.0.dat" = true ∧ re_match old "orb_matrix.1.dat" = true
  ∧ re_match new "orb_matrix.0.dat" = false ∧ re_match new "orb_matrix.1.dat" = false.
Proof. by vm_compute. Qed.

(** Claim C8, which the code does not meet.  A folder holds the new-style
    files of the cutoff radii 6 and 10: the pairs are yielded in the
    order of the file names as strings, the pair of radius 10 before the
    pair of radius 6. *)
Theorem orb_matrices_rcut10_before_rcut6 :
  let dir := ["orb_matrix_rcut6deriv0.dat"; "orb_matrix_rcut6deriv1.dat";
              "orb_matrix_rcut10deriv0.dat"; "orb_matrix_rcut10deriv1.dat"] in
  _orb_matrices (λ _, dir) (λ _, true) "d"
  = Ok [("d/orb_matrix_rcut10deriv0.dat", "d/orb_matrix_rcut10deriv1.dat");
        ("d/orb_matrix_rcut6deriv0.dat", "d/orb_matrix_rcut6deriv1.dat")]
  ∧ (rcut_of "d" ∘ fst <$> [("d/orb_matrix_rcut10deriv0.dat", "d/orb_matrix_rcut10deriv1.dat");
        ("d/orb_matrix_rcut6deriv0.dat", "d/orb_matrix_rcut6deriv1.dat")])
    = [Some 10; Some 6].
Proof. by vm_compute. Qed.

Lemma comprehension_lookup {A B} (f : A → res B) xs ys k x :
  comprehension f xs = Ok ys → xs !! k = Some x →
  ∃ y, ys !! k = Some y ∧ f x = Ok y.
Proof.
  revert ys k. induction xs as [|x' xs IH]; intros ys k H Hk; [done|].
  simpl in H. destruct (f x') as [y'|] eqn:Hy; [|done]. simpl in H.
  destruct (comprehension f xs) as [ys'|] eqn:Hys; [|done]. simplify_eq/=.
  destruct k as [|k]; simplify_eq/=; [eauto|]. by eapply IH.
Qed.

Lemma comprehension_ext {A B} (f g : A → res B) xs :
  (∀ x, f x = g x) → comprehension f xs = comprehension g xs.
Proof.
  intros Hfg. induction xs as [|x xs IH]; simpl; [done|]. by rewrite Hfg, IH.
Qed.

Lemma comprehension_length {A B} (f : A → res B) xs ys :
  comprehension f xs = Ok ys → length ys = length xs.
Proof.
  revert ys. induction xs as [|x' xs IH]; intros ys H; simpl in H; [by simplify_eq|].
  destruct (f x') as [y'|]; [|done]. simpl in H.
  destruct (comprehension f xs) as [ys'|]; [|done]. simplify_eq/=.
  f_equal. by apply IH.
Qed.

Lemma comprehension_enum_lookup {A B} (f : nat → A → res B) i xs ys k x :
  comprehension_enum f i xs = Ok ys → xs !! k = Some x →
  ∃ y, ys !! k = Some y ∧ f (i + k) x = Ok y.
Proof.
  revert i ys k. induction xs as [|x' xs IH]; intros i ys k H Hk; [done|].
  simpl in H. destruct (f i x') as [y'|] eqn:Hy; [|done]. simpl in H.
  destruct (comprehension_enum f (S i) xs) as [ys'|] eqn:Hys; [|done].
  simplify_eq/=. destruct k as [|k]; simplify_eq/=.
  - rewrite Nat.add_0_r. eauto.
  - replace (i + S k) with (S i + k) by lia. by eapply IH.
Qed.

(** ** The order of binary64 numbers *)

Section FloatOrder.
Implicit Types x y z : spec_float.

Lemma SFcompare_refl x : x ≠ S754_nan → SFcompare x x = Some Eq.
Proof.
  destruct x as [s|s| |s m e]; intros H; simpl; try done.
  - by destruct s.
  - rewrite Z.compare_refl.
    assert (Pos.compare_cont Eq m m = Eq) as -> by apply Pos.compare_refl.
    by destruct s.
Qed.

Lemma SFleb_refl x : x ≠ S754_nan → SFleb x x = true.
Proof. intros H. unfold SFleb. by rewrite SFcompare_refl. Qed.

Lemma SFleb_total x y :
  x ≠ S754_nan → y ≠ S754_nan → SFleb x y = false → SFleb y x = true.
Proof.
  unfold SFleb.
  destruct x as [s|s| |s m e], y as [s'|s'| |s' m' e']; intros Hx Hy; try done;
    simpl; repeat match goal with b : bool |- _ => destruct b end; try done.
  all: change (Pos.compare_cont Eq ?a ?b) with (a ?= b)%positive.
  all: destruct (Z.compare_spec e e'), (Z.compare_spec e' e); try done; try lia.
  all: destruct (Pos.compare_spec m m'), (Pos.compare_spec m' m);
         simpl; try done; try lia.
Qed.

Lemma SFleb_trans x y z :
  SFleb x y = true → SFleb y z = true → SFleb x z = true.
Proof.
  unfold SFleb.
  destruct x as [s|s| |s m e], y as [s'|s'| |s' m' e'],
    z as [s''|s''| |s'' m'' e'']; simpl;
    repeat match goal with b : bool |- _ => destruct b end; try done.
  all: change (Pos.compare_cont Eq ?a ?b) with (a ?= b)%positive.
  all: destruct (Z.compare_spec e e'), (Z.compare_spec e' e''),
         (Z.compare_spec e e''); try done; try lia.
  all: destruct (Pos.compare_spec m m'), (Pos.compare_spec m' m''),
         (Pos.compare_spec m m''); simpl; try done; try lia.
Qed.

Lemma is_nan_false (a : float) : is_nan a = false ↔ Prim2SF a ≠ S754_nan.
Proof.
  unfold is_nan. rewrite FloatAxioms.eqb_spec. unfold SFeqb. split.
  - intros H Hn. by rewrite Hn in H.
  - intros H. by rewrite SFcompare_refl.
Qed.

Lemma float_leb_refl (a : float) : is_nan a = false → (a <=? a)%float = true.
Proof. intros H. rewrite leb_spec. by apply SFleb_refl, is_nan_false. Qed.

Lemma float_leb_total (a b : float) :
  is_nan a = false → is_nan b = false →
  (a <=? b)%float = false → (b <=? a)%float = true.
Proof. rewrite !leb_spec, !is_nan_false. apply SFleb_total. Qed.

Lemma float_leb_trans (a b c : float) :
  (a <=? b)%float = true → (b <=? c)%float = true → (a <=? c)%float = true.
Proof. rewrite !leb_spec. apply SFleb_trans. Qed.
End FloatOrder.

Section NumpyProps.

Lemma np_maximum_cases a b : np_maximum a b = a ∨ np_maximum a b = b.
Proof. unfold np_maximum. destruct (_ || _); auto. Qed.

Lemma np_maximum_ub a b :
  is_nan a = false → is_nan b = false →
  (a <=? np_maximum a b)%float = true ∧ (b <=? np_maximum a b)%float = true.
Proof.
  intros Ha Hb. unfold np_maximum. rewrite Ha, orb_false_r.
  destruct (b <=? a)%float eqn:Hba.
  - split; [by apply float_leb_refl|done].
  - split; [by apply float_leb_total|by apply float_leb_refl].
Qed.

Lemma float_max_list_elem x xs : float_max_list x xs ∈ x :: xs.
Proof.
  revert x. induction xs as [|z xs IH]; intros x; simpl; [by left|].
  specialize (IH (np_maximum x z)). apply elem_of_cons in IH as [->|IH].
  - destruct (np_maximum_cases x z) as [->| ->]; [by left|by right; left].
  - by do 2 right.
Qed.

Lemma float_max_list_init x xs :
  Forall (λ y, is_nan y = false) (x :: xs) →
  (x <=? float_max_list x xs)%float = true.
Proof.
  revert x. induction xs as [|z xs IH]; intros x Hnan; simpl.
  { apply float_leb_refl. by apply Forall_inv in Hnan. }
  apply Forall_cons in Hnan as [Hx [Hz Hxs]%Forall_cons].
  eapply float_leb_trans; [exact (proj1 (np_maximum_ub x z Hx Hz))|].
  apply IH. constructor; [|done].
  by destruct (np_maximum_cases x z) as [->| ->].
Qed.

Lemma float_max_list_ub x xs y :
  Forall (λ y, is_nan y = false) (x :: xs) →
  y ∈ x :: xs → (y <=? float_max_list x xs)%float = true.
Proof.
  revert x. induction xs as [|z xs IH]; intros x Hnan Hy.
  { apply list_elem_of_singleton in Hy as ->. by apply float_max_list_init. }
  pose proof Hnan as [Hx [Hz Hxs]%Forall_cons]%Forall_cons.
  assert (Forall (λ y, is_nan y = false) (np_maximum x z :: xs)) as Hnan'.
  { constructor; [|done]. by destruct (np_maximum_cases x z) as [->| ->]. }
  simpl. apply elem_of_cons in Hy as [->|Hy].
  - eapply float_leb_trans; [exact (proj1 (np_maximum_ub x z Hx Hz))|].
    by apply float_max_list_init.
  - apply elem_of_cons in Hy as [->|Hy].
    + eapply float_leb_trans; [exact (proj2 (np_maximum_ub x z Hx Hz))|].
      by apply float_max_list_init.
    + apply IH; [done|]. by right.
Qed.

(** The integer of [int(np.ceil(x))] is the least one that is not below
    the number that [x] denotes. *)
Lemma float_ceil_Ok x z :
  float_ceil x = Ok z →
  ∃ q, float_value x = Some q ∧ (q <= inject_Z z)%Q ∧ (inject_Z (z - 1) < q)%Q.
Proof.
  unfold float_ceil. destruct (float_value x) as [q|]; [|by destruct (is_nan x)].
  intros [= <-]. exists q. split; [done|].
  split; [apply Qle_ceiling|apply Qceiling_lt].
Qed.

Lemma column_elem rows i y :
  y ∈ column rows i ↔ ∃ row, row ∈ rows ∧ row !! i = Some y.
Proof. apply list_elem_of_omap. Qed.

Lemma column_length n rows i :
  Forall (λ row : list float, length row = n) rows → (i < n)%nat →
  length (column rows i) = length rows.
Proof.
  intros Hrows Hi. induction Hrows as [|row rows Hrow _ IH]; [done|].
  change (column (row :: rows) i)
    with (match row !! i with
          | Some y => y :: column rows i
          | None => column rows i
          end).
  destruct (lookup_lt_is_Some_2 row i) as [y ->]; [lia|]. simpl. by rewrite IH.
Qed.

Lemma np_max_axis0_lookup n rows i x :
  Forall (λ row : list float, length row = n) rows → rows ≠ [] →
  np_max_axis0 n rows !! i = Some x →
  (∃ row, row ∈ rows ∧ row !! i = Some x)
  ∧ ((∀ row y, row ∈ rows → row !! i = Some y → is_nan y = false) →
     ∀ row y, row ∈ rows → row !! i = Some y → (y <=? x)%float = true).
Proof.
  intros Hrows Hne Hx. unfold np_max_axis0 in Hx.
  rewrite list_lookup_fmap in Hx.
  destruct (seq 0 n !! i) as [j|] eqn:Hj; [|done].
  apply lookup_seq in Hj as [-> Hi]. simpl in Hx.
  pose proof (column_length n rows i Hrows Hi) as Hlen.
  destruct (column rows i) as [|c cs] eqn:Hcol.
  { destruct rows; [done|simpl in Hlen; lia]. }
  injection Hx as <-. split.
  - apply column_elem. rewrite Hcol. apply float_max_list_elem.
  - intros Hnan row y Hrow Hy. apply float_max_list_ub.
    + rewrite <- Hcol. apply Forall_forall. intros z Hz.
      apply column_elem in Hz as (r & Hr & Hz). by eapply Hnan.
    + rewrite <- Hcol. apply column_elem. eauto.
Qed.

Lemma np_mean_axis0_lookup n rows i x :
  np_mean_axis0 n rows !! i = Some x →
  x = (float_sum (column rows i) / float_of_nat (length rows))%float.
Proof.
  intros Hx. unfold np_mean_axis0 in Hx. rewrite list_lookup_fmap in Hx.
  destruct (seq 0 n !! i) as [j|] eqn:Hj; [|done].
  apply lookup_seq in Hj as [-> Hi]. simpl in Hx. by injection Hx as <-.
Qed.

Lemma max_shape_uniform n (rows : list (list float)) :
  Forall (λ row, length row = n) rows → rows ≠ [] →
  foldl Nat.max 0%nat (length <$> rows) = n.
Proof.
  intros Hrows Hne. destruct Hrows as [|row rows Hrow Hrows]; [done|].
  simpl. rewrite Hrow. clear Hne Hrow.
  induction Hrows as [|r rows Hr _ IH]; simpl; [done|].
  by rewrite Hr, Nat.max_id.
Qed.

Lemma comprehension_reshape n (rows : list (list float)) :
  Forall (λ row, length row = n) rows →
  comprehension (np_reshape n) rows = Ok rows.
Proof.
  intros Hrows. induction Hrows as [|row rows Hrow _ IH]; [done|].
  cbn [comprehension]. rewrite IH. unfold np_reshape.
  by rewrite bool_decide_eq_true_2.
Qed.
End NumpyProps.

Section InferenceClaims.
Context {K Wfc Ovlp : Type} `{EqDecision K}.
Variable read_folder : string → res (@run_data K Wfc Ovlp).
Variable wfc_analysis_api :
  Wfc → Ovlp → list nat → list (list nat) → string → Z → float
  → list (list float).

Local Abbreviation infer := (_nzeta_infer read_folder wfc_analysis_api).
Local Abbreviation mean_conf := (_nzeta_mean_conf read_folder wfc_analysis_api).

Lemma nzeta_mean_conf_value nbands folders statistics pop rows n :
  comprehension (λ '(folder, nband), infer folder nband pop 1%float)
    (zip folders (each_band nbands folders)) = Ok rows →
  Forall (λ row, length row = n) rows → rows ≠ [] →
  statistics ∈ ["max"; "mean"] →
  mean_conf nbands folders statistics pop
  = Ok (FloatList (if bool_decide (statistics = "max")
                   then np_max_axis0 n rows else np_mean_axis0 n rows)).
Proof.
  intros Hrows Hlen Hne Hstat. unfold _nzeta_mean_conf.
  rewrite (bool_decide_eq_true_2 (statistics ∈ ["max"; "mean"])) by done.
  cbn [py_assert mbind res_bind].
  fold (each_band nbands folders). rewrite Hrows. cbn [mbind res_bind].
  rewrite (max_shape_uniform n) by done.
  rewrite comprehension_reshape by done. cbn [mbind res_bind].
  destruct rows; [done|]. by case_bool_decide.
Qed.

Lemma comprehension_Forall2 {A B} (f : A → res B) (P : A → B → Prop) xs ys :
  (∀ x y, f x = Ok y → P x y) →
  comprehension f xs = Ok ys → Forall2 P xs ys.
Proof.
  intros Hf. revert ys. induction xs as [|x xs IH]; intros ys H.
  { injection H as <-. constructor. }
  simpl in H. apply bind_Ok in H as (y & Hy & H).
  apply bind_Ok in H as (ys' & Hys & H). injection H as <-.
  constructor; auto.
Qed.

(** Claim C6.  When the inference succeeds for every folder with
    vectors [rows] of one length [n], the policy ["max"] returns the
    componentwise maximum (a component of one of the rows that, when
    none of them is a NaN, is at least the component of every row) and
    the policy ["mean"] the componentwise mean as binary64 arithmetic
    gives it (the sum of the components in the order of the folders,
    divided by the number of rows); and in [_coef_opt_jy] an orbital
    whose [nzeta] is ["auto"] gets, for every component of the ["max"]
    aggregate of its folders, which denotes a number [q], the integer
    [z] with [q <= z < q + 1]. *)
Theorem nzeta_aggregation_and_ceiling
    nbands folders pop rows n orbparams all_folders nzeta iorb orb :
  comprehension (λ '(folder, nband), infer folder nband pop 1%float)
    (zip folders (each_band nbands folders)) = Ok rows →
  Forall (λ row, length row = n) rows → rows ≠ [] →
  _coef_opt_jy_nzeta read_folder wfc_analysis_api orbparams all_folders
    = Ok nzeta →
  orbparams !! iorb = Some orb → orb_nzeta orb = None →
  (∃ agg, mean_conf nbands folders "max" pop = Ok (FloatList agg)
          ∧ length agg = n
          ∧ ∀ i x, agg !! i = Some x →
              (∃ row, row ∈ rows ∧ row !! i = Some x)
              ∧ ((∀ row y, row ∈ rows → row !! i = Some y → is_nan y = false) →
                 ∀ row y, row ∈ rows → row !! i = Some y →
                   (y <=? x)%float = true))
  ∧ (∃ agg, mean_conf nbands folders "mean" pop = Ok (FloatList agg)
            ∧ length agg = n
            ∧ ∀ i x, agg !! i = Some x →
                x = (float_sum (column rows i)
                     / float_of_nat (length rows))%float)
  ∧ (∃ nbands_orb folders_orb agg nzeta_orb,
       comprehension
         (λ i, fs ← getitem all_folders i;
               Ok (concat (replicate (length fs)
                             (nbands_as_list (orb_nbands_ref orb)))))
         (orb_folder orb) = Ok nbands_orb
       ∧ comprehension (getitem all_folders) (orb_folder orb) = Ok folders_orb
       ∧ mean_conf (NbandsList (concat nbands_orb)) (concat folders_orb)
           "max" "svd-aniso-svd" = Ok (FloatList agg)
       ∧ nzeta !! iorb = Some nzeta_orb
       ∧ Forall2 (λ (x : float) (z : Z),
                    ∃ q, float_value x = Some q
                         ∧ (q <= inject_Z z)%Q ∧ (inject_Z (z - 1) < q)%Q)
           agg nzeta_orb).
Proof.
  intros Hrows Hlen Hne Hjy Horb Hauto. split_and!.
  - eexists. split; [by eapply nzeta_mean_conf_value; [..|set_solver]|].
    rewrite bool_decide_eq_true_2 by done. split.
    + unfold np_max_axis0. by rewrite length_fmap, length_seq.
    + intros i x. by apply np_max_axis0_lookup.
  - eexists. split; [by eapply nzeta_mean_conf_value; [..|set_solver]|].
    rewrite bool_decide_eq_false_2 by done. split.
    + unfold np_mean_axis0. by rewrite length_fmap, length_seq.
    + intros i x. by apply np_mean_axis0_lookup.
  - unfold _coef_opt_jy_nzeta in Hjy.
    apply bind_Ok in Hjy as (nbands_ref & Href & Hjy).
    apply bind_Ok in Hjy as (floats & Hfloats & Hceil).
    destruct (comprehension_enum_lookup _ _ _ _ _ _ Href Horb)
      as (nbands_orb & Hnb & Hbands).
    destruct (comprehension_enum_lookup _ _ _ _ _ _ Hfloats Horb)
      as (fl & Hfl & Hcall).
    rewrite Hauto in Hcall. simpl in Hcall.
    assert (getitem nbands_ref iorb = Ok nbands_orb) as Hg
      by (unfold getitem; by rewrite Hnb).
    rewrite Hg in Hcall. simpl in Hcall.
    apply bind_Ok in Hcall as (folders_orb & Hfolders & Hcall).
    destruct (comprehension_lookup _ _ _ _ _ Hceil Hfl) as (nzeta_orb & Hnz & Hc).
    assert (∃ agg, fl = FloatList agg) as [agg ->].
    { unfold _nzeta_mean_conf in Hcall.
      apply bind_Ok in Hcall as (? & _ & Hcall).
      apply bind_Ok in Hcall as (? & _ & Hcall).
      apply bind_Ok in Hcall as (rs & _ & Hcall).
      destruct rs, (bool_decide (_ = "max")); simplify_eq; eauto. }
    simpl in Hc.
    exists nbands_orb, folders_orb, agg, nzeta_orb.
    split_and!; [|done..|].
    { rewrite <-Hbands. apply comprehension_ext. intros i.
      assert (getitem ((λ orb, nbands_as_list (orb_nbands_ref orb)) <$> orbparams)
                (0 + iorb) = Ok (nbands_as_list (orb_nbands_ref orb))) as ->; [|done].
      unfold getitem. simpl. by rewrite list_lookup_fmap, Horb. }
    eapply comprehension_Forall2; [|done]. apply float_ceil_Ok.
Qed.
End InferenceClaims.

(** ** The theorems at concrete inputs *)

Module Witnesses.
Import Examples.

Lemma nzeta_le_11_221 : nzeta_le [1; 1] [2; 2; 1].
Proof.
  split; [simpl; lia|].
  intros [|[|l]] x y Hx Hy; simplify_eq/=; lia.
Defined.

Lemma nzeta_le_221_332 : nzeta_le [2; 2; 1] [3; 3; 2].
Proof.
  split; [simpl; lia|].
  intros [|[|[|l]]] x y Hx Hy; simplify_eq/=; lia.
Defined.

Lemma covers_data_332 : covers data [3; 3; 2].
Proof.
  intros [|[|[|l]]] nz Hnz; simplify_eq/=;
    eexists; (split; [reflexivity|simpl; lia]).
Defined.

Lemma coef_subset_merge_witness :
  (nzeta_le [1; 1] [2; 2; 1] ∧ nzeta_le [2; 2; 1] [3; 3; 2]
   ∧ covers data [3; 3; 2])
  ∧ (s01 ← _coef_subset [2; 2; 1] (Some [1; 1]) data;
     s12 ← _coef_subset [3; 3; 2] (Some [2; 2; 1]) data;
     Ok (merge (A:=nat) 2 s01 s12))
    = _coef_subset [3; 3; 2] (Some [1; 1]) data
  ∧ _coef_subset [3; 3; 2] (Some [1; 1]) data
    = Ok [[[11; 12]; [21; 22]; [30; 31]]].
Proof.
  split; [split_and!|].
  - exact nzeta_le_11_221.
  - exact nzeta_le_221_332.
  - exact covers_data_332.
  - apply (coef_subset_merge data [1; 1] [2; 2; 1] [3; 3; 2]).
    + exact nzeta_le_11_221.
    + exact nzeta_le_221_332.
    + exact covers_data_332.
Defined.

Lemma coef_subset_hierarchy_violation_witness :
  ([2; 2; 1] !! 2 = Some 1 ∧ [3; 3; 2] !! 2 = Some 2 ∧ 1 < 2)
  ∧ _coef_subset [2; 2; 1] (Some [3; 3; 2]) data
    = Raise (AssertionError
               "not hirarcal structure of these two nzeta set: [3, 3, 2] and [2, 2, 1]").
Proof.
  split; [split_and!; [reflexivity|reflexivity|lia]|].
  apply (coef_subset_hierarchy_violation data [2; 2; 1] [3; 3; 2] 2 1 2);
    [reflexivity|reflexivity|lia].
Defined.

Lemma nzeta_le_1_332 : nzeta_le [1] [3; 3; 2].
Proof.
  split; [simpl; lia|].
  intros [|l] x y Hx Hy; simplify_eq/=; lia.
Defined.

Lemma coef_subset_baseline_witness :
  (covers data [3; 3; 2] ∧ length [1] < length [3; 3; 2]
   ∧ nzeta_le [1] [3; 3; 2] ∧ length [3; 3; 2] < length [0; 0; 0; 0])
  ∧ _coef_subset [3; 3; 2] None data
    = Ok [[[10; 11; 12]; [20; 21; 22]; [30; 31]]]
  ∧ _coef_subset [3; 3; 2] (Some [1]) data
    = Ok [[[11; 12]; [20; 21; 22]; [30; 31]]]
  ∧ _coef_subset [3; 3; 2] (Some [0; 0; 0; 0]) data
    = Raise (AssertionError "(at least) size error of nzeta and nzeta0: 3 and 4").
Proof.
  split; [split_and!|].
  - exact covers_data_332.
  - simpl. lia.
  - exact nzeta_le_1_332.
  - simpl. lia.
  - destruct (coef_subset_baseline data [3; 3; 2] [1] [0; 0; 0; 0])
      as (Hnone & _ & Hshort & _ & Hlong).
    + exact covers_data_332.
    + simpl. lia.
    + exact nzeta_le_1_332.
    + simpl. lia.
    + split_and!; [exact Hnone| |exact Hlong].
      rewrite Hshort. reflexivity.
Defined.

Lemma peel_store_frame_witness :
  read_coef3 sigma (VRef 0) = Some [[[1]; [2]]; [[3]]]
  ∧ ∃ ext, (_peel_store (VRef 0) [[1; 1]; [2; 1]] sigma).2 = sigma ++ ext
           ∧ read_coef3 (_peel_store (VRef 0) [[1; 1]; [2; 1]] sigma).2 (VRef 0)
             = Some [[[1]; [2]]; [[3]]].
Proof.
  split; [reflexivity|].
  destruct (peel_store_frame sigma (VRef 0) [[1; 1]; [2; 1]])
    as (ext & Hext & Hread).
  exists ext. split; [exact Hext|]. apply Hread. reflexivity.
Defined.

Lemma onion_child_extends_parent_witness :
  (_do_onion_opt initgen_jy initgen_pw (λ s, s) nzeta_analysis opt_id
     [[1]; [2]] [[0]; [0]] [(); ()] [None; Some 0] 4 () pw_guess
   = Ok [Some [[[1]]]; Some [[[1; 2]]]]
   ∧ 1 < length [[1]; [2]] ∧ 1 < length [[0]; [0]] ∧ 1 < length [(); ()]
   ∧ [None; Some 0] !! 1 = Some (Some 0) ∧ 0 < 1)
  ∧ ∃ parent coef_init iconfs_ ibands_ coefs_shell,
      [Some [[[1]]]; Some [[[1; 2]]]] !! 0 = Some (Some parent)
      ∧ [[0]; [0]] !! 1 = Some iconfs_ ∧ [(); ()] !! 1 = Some ibands_
      ∧ opt_id coef_init (Some parent) iconfs_ ibands_ () 4 = Ok coefs_shell
      ∧ [Some [[[1]]]; Some [[[1; 2]]]] !! 1
        = Some (Some (merge (A:=nat) 2 parent coefs_shell))
      ∧ ∀ t l tp ch, parent !! t = Some tp → tp !! l = Some ch →
          ∃ tc rows, merge (A:=nat) 2 parent coefs_shell !! t = Some tc
                     ∧ tc !! l = Some (ch ++ rows).
Proof.
  split; [split_and!; try reflexivity; simpl; lia|].
  apply (onion_child_extends_parent initgen_jy initgen_pw (λ s, s)
           nzeta_analysis opt_id [[1]; [2]] [[0]; [0]] [(); ()]
           [None; Some 0] 4 () pw_guess _ 1 0);
    [reflexivity|simpl; lia|simpl; lia|simpl; lia|reflexivity|lia].
Defined.

Lemma orb_matrices_legacy_witness :
  (filter (λ f, (λ _ : string, true) (path_join "Si-dimer" f))
     ((λ _, ["orb_matrix.0.dat"; "orb_matrix.1.dat"]) "Si-dimer")
   = ["orb_matrix.0.dat"; "orb_matrix.1.dat"]
   ∧ re_match old "orb_matrix.0.dat" = true
   ∧ re_match old "orb_matrix.1.dat" = true
   ∧ re_match new "orb_matrix.0.dat" = false
   ∧ re_match new "orb_matrix.1.dat" = false)
  ∧ _orb_matrices (λ _, ["orb_matrix.0.dat"; "orb_matrix.1.dat"]) (λ _, true)
      "Si-dimer"
    = Ok [("Si-dimer/orb_matrix.0.dat", "Si-dimer/orb_matrix.1.dat")].
Proof.
  split; [split_and!; reflexivity|].
  apply (orb_matrices_legacy (λ _, ["orb_matrix.0.dat"; "orb_matrix.1.dat"])
           (λ _, true) "Si-dimer" "orb_matrix.0.dat" "orb_matrix.1.dat");
    reflexivity.
Defined.

Lemma elem_of_first {A} (x : A) xs : x ∈ x :: xs.
Proof. constructor. Defined.

Lemma elem_of_third {A} (x y z : A) xs : z ∈ x :: y :: z :: xs.
Proof. do 2 constructor. constructor. Defined.

Lemma orb_matrices_mixed_witness :
  _orb_matrices
    (λ _, ["orb_matrix.0.dat"; "orb_matrix.1.dat"; "orb_matrix_rcut6deriv0.dat"])
    (λ _, true) "Si-dimer"
  = Raise (AssertionError "").
Proof.
  apply (orb_matrices_mixed
           (λ _, ["orb_matrix.0.dat"; "orb_matrix.1.dat"; "orb_matrix_rcut6deriv0.dat"])
           (λ _, true) "Si-dimer" "orb_matrix.0.dat" "orb_matrix_rcut6deriv0.dat").
  - apply elem_of_first.
  - reflexivity.
  - apply elem_of_third.
  - reflexivity.
Defined.

Lemma orb_matrices_odd_witness :
  _orb_matrices
    (λ _, ["orb_matrix_rcut6deriv0.dat"; "orb_matrix_rcut6deriv1.dat";
           "orb_matrix_rcut7deriv0.dat"])
    (λ _, true) "Si-dimer"
  = Raise (AssertionError "").
Proof.
  apply (orb_matrices_odd
           (λ _, ["orb_matrix_rcut6deriv0.dat"; "orb_matrix_rcut6deriv1.dat";
                  "orb_matrix_rcut7deriv0.dat"])
           (λ _, true) "Si-dimer").
  reflexivity.
Defined.

Lemma nzeta_infer_too_many_bands_witness :
  _nzeta_infer read_folder analysis "Si-dimer" (NbandInt 5) "svd-aniso-svd"
    1%float
  = Raise (AssertionError
             "ERROR: number of bands for orbgen is larger than calculated: 5 > 4").
Proof.
  apply (nzeta_infer_too_many_bands read_folder analysis "Si-dimer"
           (run [[2; 1.5]; [0.5]]%float [[2]; [2]]%float)
           (NbandInt 5) "svd-aniso-svd" 1%float
           {| wfc := [[2; 1.5]; [0.5]]%float; wfc_nbands := 4; wfc_kpt := 0 |}
           0 [[2; 0; 0; 0]; [2; 2; 0; 0]]%float [2; 0; 0; 0]%float);
    [reflexivity|reflexivity|simpl; lia|reflexivity|reflexivity|reflexivity
    |reflexivity|simpl; lia].
Defined.

Lemma nzeta_aggregation_and_ceiling_witness :
  (∃ agg, _nzeta_mean_conf read_folder analysis (NbandsOne (NbandInt 4))
            ["Si-dimer"; "Si-trimer"] "max" "svd-aniso-svd" = Ok (FloatList agg)
          ∧ length agg = 2)
  ∧ (∃ agg, _nzeta_mean_conf read_folder analysis (NbandsOne (NbandInt 4))
              ["Si-dimer"; "Si-trimer"] "mean" "svd-aniso-svd" = Ok (FloatList agg)
            ∧ length agg = 2)
  ∧ ∃ agg nzeta_orb,
      _nzeta_mean_conf read_folder analysis
        (NbandsList (concat [[NbandInt 4; NbandInt 4]]))
        ["Si-dimer"; "Si-trimer"] "max" "svd-aniso-svd" = Ok (FloatList agg)
      ∧ [[2%Z; 2%Z]] !! 0 = Some nzeta_orb
      ∧ Forall2 (λ (x : float) (z : Z),
                   ∃ q, float_value x = Some q
                        ∧ (q <= inject_Z z)%Q ∧ (inject_Z (z - 1) < q)%Q)
          agg nzeta_orb.
Proof.
  destruct (nzeta_aggregation_and_ceiling read_folder analysis
              (NbandsOne (NbandInt 4)) ["Si-dimer"; "Si-trimer"] "svd-aniso-svd"
              [[1.5; 0.5]; [1; 2]]%float 2
              orbparams [["Si-dimer"; "Si-trimer"]] [[2%Z; 2%Z]] 0
              {| orb_nzeta := None;
                 orb_nbands_ref := NbandsOne (NbandInt 4);
                 orb_folder := [0] |})
    as ((agg1 & H1 & Hl1 & _) & (agg2 & H2 & Hl2 & _)
        & (nbands_orb & folders_orb & agg3 & nzeta_orb
           & Hb & Hf & H3 & Hnz & Hceil)).
  - vm_compute. reflexivity.
  - repeat constructor.
  - discriminate.
  - vm_compute. reflexivity.
  - reflexivity.
  - reflexivity.
  - split_and!; [by exists agg1|by exists agg2|].
    exists agg3, nzeta_orb. injection Hb as <-. injection Hf as <-.
    split_and!; [exact H3|exact Hnz|exact Hceil].
Defined.
Lemma peel_store_refines_witness :
  is_tensor sigma 0 [1; 2] [[3; 4]; [5]] [[[1]; [2]]; [[3]]]
  ∧ NoDup (0 :: [1; 2] ++ concat [[3; 4]; [5]])
  ∧ ∃ vs σ',
      _peel_store (VRef 0) [[1; 1]; [2; 1]] sigma = (Ok vs, σ')
      ∧ mapM (read_coef3 σ') vs = Some [[[[1]]; [[3]]]; [[[2]]; []]].
Proof.
  assert (is_tensor sigma 0 [1; 2] [[3; 4]; [5]] [[[1]; [2]]; [[3]]]) as Ht.
  { split; [reflexivity|]. repeat constructor. }
  assert (NoDup (0 :: [1; 2] ++ concat [[3; 4]; [5]])) as Hnd.
  { by apply (bool_decide_unpack _). }
  split_and!; [exact Ht|exact Hnd|].
  exact (peel_store_refines sigma 0 _ _ _ [[1; 1]; [2; 1]] Ht Hnd).
Defined.
End Witnesses.

(** ** The two models of [_peel] on an example *)

(** On the store [Examples.sigma] the level objects that [_peel] returns
    read back as the levels that the value model computes. *)
Lemma peel_store_example :
  let r := _peel_store (VRef 0) [[1; 1]; [2; 1]] Examples.sigma in
  ∃ vs, r.1 = Ok vs
        ∧ Ok <$> mapM (read_coef3 r.2) vs
          = Some (_peel [[[1]; [2]]; [[3]]] [[1; 1]; [2; 1]]).
Proof. eexists. split; vm_compute; reflexivity. Qed.

(** When one list object serves as two channels the pops from one channel
    are seen in the other: the second channel of the result holds the
    second row, where the value model, which has no sharing, repeats the
    first. *)
Lemma peel_store_shared_channel :
  let σ : store nat := [[VRef 1; VRef 1]; [VRef 2; VRef 3]; [VNum 1]; [VNum 2]] in
  let r := _peel_store (VRef 0) [[1; 1]] σ in
  read_coef3 σ (VRef 0) = Some [[[1]; [2]]; [[1]; [2]]]
  ∧ (∃ vs, r.1 = Ok vs ∧ mapM (read_coef3 r.2) vs = Some [[[[1]]; [[2]]]])
  ∧ _peel [[[1]; [2]]; [[1]; [2]]] [[1; 1]] = Ok [[[[1]]; [[1]]]].
Proof. split_and!; [|eexists; split|]; vm_compute; reflexivity. Qed.

(** Claim C3 as stated fails: the levels come back innermost first, in
    the order of the list of totals, and not outermost first. *)
Lemma peel_returns_innermost_first :
  _peel (merge_levels Examples.levels) Examples.totals = Ok Examples.levels
  ∧ _peel (merge_levels Examples.levels) Examples.totals
    ≠ Ok (rev Examples.levels).
Proof. split; [reflexivity|]. vm_compute. discriminate. Qed.

(** * Further properties of the code *)

(** ** Errors of comprehensions *)

Lemma comprehension_raise {A B} (f : A → res B) (e : exn) xs x :
  (∀ y, y ∈ xs → (∃ b, f y = Ok b) ∨ f y = Raise e) →
  x ∈ xs → f x = Raise e → comprehension f xs = Raise e.
Proof.
  induction xs as [|y xs IH]; intros Hf Hx He; [by apply elem_of_nil in Hx|].
  simpl. destruct (Hf y) as [[b Hy]|Hy]; [by left| |by rewrite Hy].
  rewrite Hy. simpl. apply elem_of_cons in Hx as [->|Hx]; [congruence|].
  rewrite IH; [done| |done..]. intros z Hz. apply Hf. by right.
Qed.

Lemma comprehension_enum_raise {A B} (f : nat → A → res B) (e : exn) i xs k x :
  (∀ j y, xs !! j = Some y → (∃ b, f (i + j) y = Ok b) ∨ f (i + j) y = Raise e) →
  xs !! k = Some x → f (i + k) x = Raise e →
  comprehension_enum f i xs = Raise e.
Proof.
  revert i k. induction xs as [|y xs IH]; intros i k Hf Hx He; [done|].
  simpl. destruct (Hf 0 y eq_refl) as [[b Hy]|Hy];
    rewrite Nat.add_0_r in Hy; rewrite Hy; [|done].
  simpl. destruct k as [|k].
  { simplify_eq/=. rewrite Nat.add_0_r in He. congruence. }
  rewrite (IH (S i) k); [done| |done|].
  - intros j z Hz. replace (S i + j) with (i + S j) by lia. by apply Hf.
  - by replace (S i + k) with (i + S k) by lia.
Qed.

Section CoefSubsetErrors.
Context {R : Type}.
Implicit Types (data : coef3 R) (nzeta : list nat).

Lemma getitem2_cases data l j :
  (∃ x, getitem2 data l j = Ok x) ∨ getitem2 data l j = Raise IndexError.
Proof.
  unfold getitem2, getitem. destruct (data !! l) as [ch|]; simpl; [|by right].
  destruct (ch !! j); simpl; eauto.
Qed.

(** Reading rows of a channel either succeeds or raises [IndexError]. *)
Lemma comprehension_rows_cases data l js :
  (∃ rows, comprehension (λ j, getitem2 data l j) js = Ok rows)
  ∨ comprehension (λ j, getitem2 data l j) js = Raise IndexError.
Proof.
  induction js as [|j js IH]; simpl; [eauto|].
  destruct (getitem2_cases data l j) as [[x ->]| ->]; simpl; [|by right].
  destruct IH as [[rows ->]| ->]; simpl; eauto.
Qed.

Lemma comprehension_rows_short data l lo hi :
  lo < hi → length (default [] (data !! l)) < hi →
  comprehension (λ j, getitem2 data l j) (range lo hi) = Raise IndexError.
Proof.
  intros Hlt Hlen.
  apply (comprehension_raise _ _ _ (hi - 1)).
  - intros j _. apply getitem2_cases.
  - unfold range. apply elem_of_seq. lia.
  - unfold getitem2, getitem.
    destruct (data !! l) as [ch|]; simpl in *; [|done].
    rewrite lookup_ge_None_2; [done|lia].
Qed.

(** When the two checks on [nzeta] and [nzeta0] pass and some channel
    [l] with new zeta functions ([nzeta0[l] < nzeta[l]], a missing
    [nzeta0[l]] counting as zero) has fewer than [nzeta[l]] rows in
    [data], or is not in [data] at all, [_coef_subset] raises
    [IndexError]: the rows that are there are not returned as a shorter
    subset.  Without a baseline the same holds for a channel with
    [0 < nzeta[l]]. *)
Theorem coef_subset_missing_rows data nzeta (nzeta0 : option (list nat)) l nz :
  nzeta_le (default [] nzeta0) nzeta →
  nzeta !! l = Some nz →
  default 0 (default [] nzeta0 !! l) < nz →
  length (default [] (data !! l)) < nz →
  _coef_subset nzeta nzeta0 data = Raise IndexError.
Proof.
  intros Hle Hnz Hlt Hlen. unfold _coef_subset.
  destruct nzeta0 as [nzeta0|]; simpl in *.
  - rewrite bool_decide_eq_true_2 by apply Hle. simpl.
    fold (padded nzeta nzeta0).
    rewrite for_each_ok.
    2:{ intros [a b] Hin. unfold py_assert.
        rewrite bool_decide_eq_true_2; [done|].
        apply list_elem_of_lookup in Hin as [k Hk].
        apply lookup_zip_with_Some in Hk as (x & y & [= <- <-] & Hx & Hy).
        rewrite padded_lookup in Hy by (by eapply lookup_lt_Some).
        injection Hy as <-. by eapply nzeta_le_default. }
    simpl. rewrite comprehension_enum_fmap.
    rewrite (comprehension_enum_raise _ IndexError 0 _ l
               (default 0 (nzeta0 !! l), nz)); [done| | |].
    + intros j [iz jz] _. simpl.
      destruct (comprehension_rows_cases data j (range iz jz))
        as [[rows ->]| ->]; eauto.
    + rewrite lookup_zip_with, Hnz.
      rewrite padded_lookup by (by eapply lookup_lt_Some). done.
    + simpl. by apply comprehension_rows_short.
  - rewrite (comprehension_enum_raise _ IndexError 0 _ l nz); [done| |done|].
    + intros j n _. simpl.
      destruct (comprehension_rows_cases data j (range 0 n)) as [[rows ->]| ->];
        eauto.
    + simpl. apply comprehension_rows_short; [|done].
      destruct (_ !! l); simpl in *; lia.
Qed.
End CoefSubsetErrors.

(** ** The levels of [_peel] are the subsets of [_coef_subset] *)

Section PeelSubsets.
Context {R : Type}.
Implicit Types (X coef : coef3 R) (nz : list nat).

Lemma pop_front_n_take X l n :
  (0 < n → n ≤ length (default [] (X !! l))) →
  pop_front_n X l n
  = Ok (take n (default [] (X !! l)), <[l := drop n (default [] (X !! l))]> X).
Proof.
  intros Hn. destruct n as [|n].
  { simpl. rewrite take_0. destruct (X !! l) as [ch|] eqn:Hl; simpl.
    - by rewrite list_insert_id.
    - rewrite list_insert_ge; [done|]. by apply lookup_ge_None_1. }
  destruct (X !! l) as [ch|] eqn:Hl; simpl in Hn; [|lia].
  cbn [default].
  rewrite <- (length_take_le ch (S n)) at 1 by lia.
  apply pop_front_n_app. by rewrite take_drop.
Qed.

Lemma peel_level_slices nz X i :
  (∀ l n, nz !! l = Some n → 0 < n → n ≤ length (default [] (X !! (i + l)))) →
  peel_level X i nz
  = Ok (imap (λ l n, take n (default [] (X !! (i + l)))) nz,
        imap (λ j ch, drop (if decide (i ≤ j) then default 0 (nz !! (j - i))
                            else 0) ch) X).
Proof.
  revert X i. induction nz as [|n rest IH]; intros X i Hrows.
  { simpl. do 2 f_equal. apply list_eq. intros j. rewrite list_lookup_imap.
    destruct (X !! j) as [ch|]; simpl; [|done]. by case_decide. }
  cbn [peel_level].
  rewrite pop_front_n_take.
  2:{ intros Hn. specialize (Hrows 0 n eq_refl Hn).
      by rewrite Nat.add_0_r in Hrows. }
  cbn [mbind res_bind].
  set (X1 := <[i := drop n (default [] (X !! i))]> X).
  assert (∀ j, j ≠ i → X1 !! j = X !! j) as Hne.
  { intros j Hj. unfold X1. by rewrite list_lookup_insert_ne. }
  rewrite (IH X1 (S i)).
  2:{ intros l m Hl Hm. rewrite Hne by lia.
      replace (S i + l) with (i + S l) by lia. by apply Hrows. }
  cbn [mbind res_bind]. do 2 f_equal.
  - simpl. rewrite Nat.add_0_r. f_equal.
    apply imap_ext. intros l m _. simpl. rewrite Hne by lia.
    do 3 f_equal. lia.
  - apply list_eq. intros j. rewrite !list_lookup_imap.
    destruct (decide (j = i)) as [->|Hj].
    + unfold X1. destruct (X !! i) as [ch|] eqn:Hi; simpl.
      * rewrite list_lookup_insert_eq by (by eapply lookup_lt_Some). simpl.
        rewrite decide_False by lia. rewrite decide_True by lia.
        by rewrite Nat.sub_diag.
      * rewrite list_insert_ge by (by apply lookup_ge_None_1). by rewrite Hi.
    + rewrite Hne by done. destruct (X !! j) as [ch|]; simpl; [|done].
      do 2 f_equal. repeat case_decide; try lia.
      replace (j - i) with (S (j - S i)) by lia. done.
Qed.

Variable coef : coef3 R.

(** The rows [p[l]], ..., [n[l] - 1] of every channel [l] of [coef]. *)
Local Abbreviation rows_between p n :=
  (imap (λ l z, slice (default [] (coef !! l)) (default 0 (p !! l)) z) n).

(** The totals below level [k]. *)
Local Abbreviation below totals k :=
  (match k with 0 => [] | S k' => default [] (totals !! k') end).

Lemma slice_0 {A} (xs : list A) n : slice xs 0 n = take n xs.
Proof. unfold slice. by rewrite Nat.sub_0_r, drop_0. Qed.

Lemma slice_drop_take {A} (xs : list A) lo hi :
  lo ≤ hi → slice xs lo hi = drop lo (take hi xs).
Proof.
  intros Hle. unfold slice. rewrite take_drop_commute. do 2 f_equal. lia.
Qed.

Lemma peel_level_first nz :
  covers coef nz →
  ∃ rest, peel_level coef 0 nz = Ok (rows_between [] nz, rest).
Proof.
  intros Hcov. eexists. rewrite peel_level_slices.
  - do 2 f_equal. apply imap_ext. intros l n _. simpl. by rewrite slice_0.
  - intros l n Hl _. simpl. destruct (Hcov l n Hl) as (ch & -> & Hlen). done.
Qed.

Lemma peel_level_between m n :
  nzeta_le m n → covers coef n →
  peel_level (rows_between [] n) 0 m
  = Ok (rows_between [] m, rows_between m n).
Proof.
  intros [Hlen Hle] Hcov. rewrite peel_level_slices.
  - do 2 f_equal.
    + apply imap_ext. intros l x Hx. simpl.
      destruct (lookup_lt_is_Some_2 n l) as [y Hy].
      { apply lookup_lt_Some in Hx. lia. }
      rewrite list_lookup_imap, Hy. simpl. rewrite !slice_0.
      rewrite take_take. f_equal. specialize (Hle l x y Hx Hy). lia.
    + apply list_eq. intros l. rewrite !list_lookup_imap.
      destruct (n !! l) as [y|] eqn:Hy; simpl; [|done].
      rewrite Nat.sub_0_r, slice_0.
      rewrite slice_drop_take; [done|].
      destruct (m !! l) as [x|] eqn:Hx; simpl; [by eapply Hle|lia].
  - intros l x Hx Hpos. simpl.
    destruct (lookup_lt_is_Some_2 n l) as [y Hy].
    { apply lookup_lt_Some in Hx. lia. }
    rewrite list_lookup_imap, Hy. simpl. rewrite slice_0.
    destruct (Hcov l y Hy) as (ch & -> & Hch). simpl.
    rewrite length_take. specialize (Hle l x y Hx Hy). lia.
Qed.

Lemma nzeta_chain_snoc totals n : nzeta_chain (totals ++ [n]) → nzeta_chain totals.
Proof.
  intros Hc k a b Ha Hb. apply (Hc k).
  - by apply lookup_app_l_Some.
  - by apply lookup_app_l_Some.
Qed.

Lemma nzeta_chain_last pre m n : nzeta_chain ((pre ++ [m]) ++ [n]) → nzeta_le m n.
Proof.
  intros Hc. apply (Hc (length pre)).
  - rewrite lookup_app_l by (rewrite length_app; simpl; lia).
    by apply list_lookup_middle.
  - replace (S (length pre)) with (length (pre ++ [m]))
      by (rewrite length_app; simpl; lia).
    by apply list_lookup_middle.
Qed.

Lemma covers_chain pre n k nz :
  nzeta_chain (pre ++ [n]) → covers coef n → (pre ++ [n]) !! k = Some nz →
  covers coef nz.
Proof.
  revert n k. induction pre as [|m pre IH] using rev_ind; intros n k Hc Hcov Hk.
  { destruct k; simplify_eq/=. done. }
  pose proof (nzeta_chain_last _ _ _ Hc) as Hmn.
  destruct (decide (k < length (pre ++ [m]))) as [Hlt|Hge].
  - rewrite lookup_app_l in Hk by done.
    eapply (IH m k); [by eapply nzeta_chain_snoc|by eapply covers_le|done].
  - rewrite lookup_app_r in Hk by lia.
    destruct (k - length (pre ++ [m])); simplify_eq/=. done.
Qed.

Lemma peel_loop_chain pre n done :
  nzeta_chain (pre ++ [n]) → covers coef n →
  peel_loop done (rows_between [] n) (rev pre)
  = Ok (done ++ rev (imap (λ k nz, rows_between (below (pre ++ [n]) k) nz)
                       (pre ++ [n]))).
Proof.
  revert n done. induction pre as [|m pre IH] using rev_ind;
    intros n done Hc Hcov.
  { done. }
  pose proof (nzeta_chain_last _ _ _ Hc) as Hmn.
  rewrite rev_app_distr. cbn [rev app peel_loop].
  rewrite peel_level_between by done. cbn [mbind res_bind].
  rewrite IH; [|by eapply nzeta_chain_snoc|by eapply covers_le].
  rewrite <- app_assoc. do 2 f_equal.
  rewrite (imap_app _ (pre ++ [m]) [n]). rewrite rev_app_distr.
  cbn [imap rev app]. f_equal.
  - rewrite Nat.add_0_r.
    replace (length (pre ++ [m])) with (S (length pre))
      by (rewrite length_app; simpl; lia).
    rewrite lookup_app_l by (rewrite length_app; simpl; lia).
    by rewrite list_lookup_middle.
  - f_equal. apply imap_ext. intros k nz Hk. simpl.
    destruct k as [|k]; [done|].
    rewrite (lookup_app_l (pre ++ [m])); [done|].
    apply lookup_lt_Some in Hk. lia.
Qed.

(** The value of [_peel] for totals that do not decrease. *)
Lemma peel_chain_value totals outer :
  nzeta_chain totals → last totals = Some outer → covers coef outer →
  _peel coef totals
  = Ok (imap (λ k nz, rows_between (below totals k) nz) totals).
Proof.
  intros Hc [pre ->]%last_Some Hcov. unfold _peel.
  rewrite rev_app_distr. cbn [rev app peel_loop].
  destruct (peel_level_first outer Hcov) as [rest ->]. cbn [mbind res_bind].
  rewrite peel_loop_chain by done. cbn [mbind res_bind app tail].
  by rewrite rev_involutive.
Qed.

Lemma coef_subset_None_value nz :
  covers coef nz → _coef_subset nz None coef = Ok [rows_between [] nz].
Proof.
  intros Hcov. unfold _coef_subset.
  rewrite (comprehension_enum_ok _
             (λ l n, slice (default [] (coef !! l)) 0 n)).
  - done.
  - intros l n Hn. simpl. apply comprehension_rows. intros _. eauto.
Qed.

(** For totals that do not decrease from one level to the next and a
    tensor that has the rows of the outermost level, [_peel] returns one
    tensor for every level, innermost first, and the tensor of level
    [k] is the one that [_coef_subset] extracts between the totals of
    level [k - 1] and those of level [k] (without a baseline for the
    innermost level). *)
Theorem peel_levels_are_subsets totals outer :
  nzeta_chain totals → last totals = Some outer → covers coef outer →
  ∃ levels,
    _peel coef totals = Ok levels
    ∧ length levels = length totals
    ∧ ∀ k nz, totals !! k = Some nz →
        ∃ t, levels !! k = Some t
             ∧ _coef_subset nz (baseline totals k) coef = Ok [t].
Proof.
  intros Hc Hlast Hcov. eexists. split; [by eapply peel_chain_value|].
  split; [by rewrite length_imap|].
  intros k nz Hk. eexists. split.
  { rewrite list_lookup_imap, Hk. done. }
  pose proof Hlast as [pre ->]%last_Some.
  pose proof (covers_chain _ _ _ _ Hc Hcov Hk) as Hcov'.
  destruct k as [|k]; simpl.
  - by apply coef_subset_None_value.
  - destruct (lookup_lt_is_Some_2 (pre ++ [outer]) k) as [p Hp].
    { apply lookup_lt_Some in Hk. lia. }
    rewrite Hp. simpl. apply coef_subset_value; [|done]. by apply (Hc k).
Qed.
End PeelSubsets.

(** ** Peeling the merge of levels *)

Section PeelMerge.
Context {R : Type}.
Implicit Types (levels : list (coef3 R)) (totals : list (list nat)).

(** Channel [l] of every level, a level without the channel giving no
    row. *)
Local Abbreviation chan l levels :=
  (concat ((λ t : coef3 R, default [] (t !! l)) <$> levels)).

Lemma merge_levels_snoc levels t :
  levels ≠ [] →
  merge_levels (levels ++ [t]) = merge (A:=R) 1 (merge_levels levels) t.
Proof.
  destruct levels as [|t0 ts]; [done|]. intros _.
  unfold merge_levels. simpl. by rewrite foldl_app.
Qed.

Lemma merge_levels_lookup levels l :
  default [] (merge_levels levels !! l) = chan l levels.
Proof.
  induction levels as [|t levels IH] using rev_ind; [done|].
  destruct (decide (levels = [])) as [->|Hne].
  { simpl. by rewrite app_nil_r. }
  rewrite merge_levels_snoc by done. simpl. rewrite lookup_zip_long.
  rewrite fmap_app, concat_app. simpl. rewrite app_nil_r, <- IH.
  destruct (merge_levels levels !! l), (t !! l); simpl;
    by rewrite ?app_nil_r.
Qed.

Lemma merge_levels_is_Some levels t l :
  t ∈ levels → is_Some (t !! l) → is_Some (merge_levels levels !! l).
Proof.
  induction levels as [|u levels IH] using rev_ind; intros Ht Hl.
  { by apply elem_of_nil in Ht. }
  destruct (decide (levels = [])) as [->|Hne].
  { apply list_elem_of_singleton in Ht as ->. done. }
  rewrite merge_levels_snoc by done. simpl. rewrite lookup_zip_long.
  apply elem_of_app in Ht as [Ht|Ht].
  - destruct (IH Ht Hl) as [x ->]. by destruct (u !! l).
  - apply list_elem_of_singleton in Ht as ->. destruct Hl as [x ->].
    by destruct (merge_levels levels !! l).
Qed.

(** The rows of channel [l] in the levels below level [k] are as many
    as the total of level [k - 1]. *)
Lemma levels_of_below levels totals k l :
  nzeta_chain totals → levels_of levels totals → k ≤ length levels →
  length (chan l (take k levels))
  = default 0 (default [] (baseline totals k) !! l).
Proof.
  intros Hc [Hlen Hfit]. induction k as [|k IH]; intros Hk; [done|].
  destruct (lookup_lt_is_Some_2 levels k) as [t Ht]; [lia|].
  destruct (lookup_lt_is_Some_2 totals k) as [nz Hnz]; [lia|].
  rewrite (take_S_r _ _ _ Ht), fmap_app, concat_app, length_app, IH by lia.
  simpl. rewrite app_nil_r, Hnz. simpl.
  destruct (Hfit k t nz Ht Hnz) as [Hlt Hrows].
  destruct (nz !! l) as [n|] eqn:Hn; simpl.
  - destruct (lookup_lt_is_Some_2 t l) as [ch Hch].
    { apply lookup_lt_Some in Hn. lia. }
    rewrite Hch. simpl. by eapply Hrows.
  - rewrite (lookup_ge_None_2 t l) by (apply lookup_ge_None_1 in Hn; lia).
    simpl. rewrite Nat.add_0_r.
    destruct k as [|k]; [done|]. simpl.
    destruct (lookup_lt_is_Some_2 totals k) as [p Hp]; [lia|].
    rewrite Hp. simpl. destruct (Hc k p nz Hp Hnz) as [Hpl _].
    rewrite (lookup_ge_None_2 p l); [done|].
    apply lookup_ge_None_1 in Hn. lia.
Qed.

Lemma merge_levels_covers levels totals outer :
  nzeta_chain totals → levels_of levels totals →
  last totals = Some outer → covers (merge_levels levels) outer.
Proof.
  intros Hc Hfit Hlast l n Hn.
  pose proof Hfit as [Hlen Hrows].
  pose proof Hlast as [pre ->]%last_Some.
  assert ((pre ++ [outer]) !! length pre = Some outer) as totals_k
    by (by apply list_lookup_middle).
  rewrite length_app in Hlen. simpl in Hlen.
  destruct (lookup_lt_is_Some_2 levels (length pre)) as [t Ht]; [lia|].
  destruct (Hrows _ t outer Ht totals_k) as [Hlt _].
  destruct (merge_levels_is_Some levels t l) as [ch Hch].
  { by eapply list_elem_of_lookup_2. }
  { apply lookup_lt_is_Some_2. apply lookup_lt_Some in Hn. lia. }
  exists ch. split; [done|].
  pose proof (merge_levels_lookup levels l) as Hl. rewrite Hch in Hl.
  simpl in Hl. subst ch.
  pose proof (levels_of_below levels (pre ++ [outer]) (length levels) l Hc Hfit)
    as Hb.
  rewrite firstn_all in Hb. rewrite Hb by lia.
  replace (length levels) with (S (length pre)) by lia. simpl.
  by rewrite totals_k; simpl; rewrite Hn.
Qed.

(** Claim C3, as amended.  Let [levels] be the levels of a list of
    totals that do not decrease: level [k] has the channels of its
    vector of totals and, in every channel, the rows that the total of
    level [k] adds to that of level [k - 1]; a later level may have
    more channels.  Merging the levels in order along the zeta axis and
    peeling the result with the list of totals, innermost first, gives
    back the levels, in the same innermost-first order. *)
Theorem peel_merge_levels levels totals :
  nzeta_chain totals → levels_of levels totals →
  _peel (merge_levels levels) totals = Ok levels.
Proof.
  intros Hc Hfit. pose proof Hfit as [Hlen Hrows].
  destruct (last totals) as [outer|] eqn:Hlast.
  2:{ apply last_None in Hlast as ->. by destruct levels. }
  rewrite (peel_chain_value _ totals outer);
    [|done..|by eapply merge_levels_covers].
  f_equal. apply list_eq. intros k. rewrite list_lookup_imap.
  destruct (totals !! k) as [nz|] eqn:Hnz; simpl.
  2:{ symmetry. apply lookup_ge_None_2. apply lookup_ge_None_1 in Hnz. lia. }
  destruct (lookup_lt_is_Some_2 levels k) as [t Ht].
  { apply lookup_lt_Some in Hnz. lia. }
  rewrite Ht. f_equal. destruct (Hrows k t nz Ht Hnz) as [Hlt Hch].
  apply list_eq. intros l. rewrite list_lookup_imap.
  destruct (nz !! l) as [n|] eqn:Hn; simpl.
  2:{ symmetry. apply lookup_ge_None_2. apply lookup_ge_None_1 in Hn. lia. }
  destruct (lookup_lt_is_Some_2 t l) as [ch Hl].
  { apply lookup_lt_Some in Hn. lia. }
  rewrite Hl. f_equal. rewrite merge_levels_lookup.
  rewrite <- (take_drop_middle levels k t Ht) at 1.
  rewrite fmap_app, concat_app, fmap_cons. simpl. rewrite Hl. simpl.
  pose proof (levels_of_below levels totals k l Hc Hfit) as Hb.
  assert (k ≤ length levels) as Hk by (apply lookup_lt_Some in Ht; lia).
  specialize (Hb Hk). specialize (Hch l n ch Hn Hl).
  set (p := default 0 _) in *.
  assert (default 0 (match k with
                     | 0 => []
                     | S k' => default [] (totals !! k')
                     end !! l) = p) as ->
    by (unfold p; by destruct k).
  unfold slice. rewrite drop_app_length' by done.
  replace (n - p) with (length ch) by lia. by rewrite take_app_length.
Qed.
End PeelMerge.

Section PeelErrors.
Context {R : Type}.
Implicit Types (X coef : coef3 R).

Lemma pop_front_n_short X l n :
  length (default [] (X !! l)) < n → pop_front_n X l n = Raise IndexError.
Proof.
  revert X. induction n as [|n IH]; intros X Hlen; [lia|].
  simpl. unfold getitem. destruct (X !! l) as [[|x ch]|] eqn:Hl; simpl; [done| |done].
  rewrite IH; [done|].
  rewrite list_lookup_insert_eq by (by eapply lookup_lt_Some). simpl in *. lia.
Qed.

Lemma pop_front_n_cases X l n :
  (∃ xs X1, pop_front_n X l n = Ok (xs, X1) ∧ ∀ j, j ≠ l → X1 !! j = X !! j)
  ∨ pop_front_n X l n = Raise IndexError.
Proof.
  revert X. induction n as [|n IH]; intros X; simpl; [left; eauto|].
  unfold getitem. destruct (X !! l) as [[|x ch]|] eqn:Hl; simpl; [by right| |by right].
  destruct (IH (<[l := ch]> X)) as [(xs & X1 & -> & Hne)| ->]; simpl; [|by right].
  left. eexists _, _. split; [done|]. intros j Hj.
  rewrite Hne by done. by apply list_lookup_insert_ne.
Qed.

Lemma peel_level_short nzeta_lvl X i l n :
  nzeta_lvl !! l = Some n → length (default [] (X !! (i + l))) < n →
  peel_level X i nzeta_lvl = Raise IndexError.
Proof.
  revert X i l. induction nzeta_lvl as [|n0 rest IH]; intros X i l Hl Hlen; [done|].
  cbn [peel_level]. destruct l as [|l]; simplify_eq/=.
  { rewrite Nat.add_0_r in Hlen. by rewrite pop_front_n_short. }
  destruct (pop_front_n_cases X i n0) as [(xs & X1 & -> & Hne)| ->]; [|done].
  cbn [mbind res_bind]. rewrite (IH X1 (S i) l); [done..|].
  rewrite Hne by lia. by replace (S i + l) with (i + S l) by lia.
Qed.

(** When the outermost totals ask, in some channel, for more rows than
    the tensor has (a channel that the tensor lacks has none),
    [_peel] raises [IndexError], whatever the other levels are. *)
Theorem peel_too_few_rows coef (totals : list (list nat)) outer l n :
  last totals = Some outer → outer !! l = Some n →
  length (default [] (coef !! l)) < n →
  _peel coef totals = Raise IndexError.
Proof.
  intros [pre ->]%last_Some Hl Hlen. unfold _peel.
  rewrite rev_app_distr. cbn [rev app peel_loop].
  by rewrite (peel_level_short outer coef 0 l n).
Qed.
End PeelErrors.

(** ** More on the discovery of the overlap-matrix files *)

Lemma insert_sorted_Permutation x xs : insert_sorted x xs ≡ₚ x :: xs.
Proof.
  induction xs as [|y ys IH]; simpl; [done|].
  destruct (String.leb x y); [done|]. rewrite IH. apply Permutation_swap.
Qed.

Lemma sorted_Permutation xs : sorted xs ≡ₚ xs.
Proof.
  induction xs as [|x xs IH]; simpl; [done|].
  by rewrite insert_sorted_Permutation, IH.
Qed.

Lemma insert_sorted_Sorted x xs :
  Sorted (λ a b, String.leb a b = true) xs →
  Sorted (λ a b, String.leb a b = true) (insert_sorted x xs).
Proof.
  induction 1 as [|y ys Hys IH Hhd]; simpl.
  { repeat constructor. }
  destruct (String.leb x y) eqn:Hxy.
  - constructor; [by constructor|by constructor].
  - constructor; [done|].
    destruct (String.leb_total x y) as [H|H]; [congruence|].
    destruct ys as [|z zs]; simpl in *.
    + by constructor.
    + destruct (String.leb x z); constructor; [done|].
      by inversion Hhd.
Qed.

Lemma sorted_Sorted xs : Sorted (λ a b, String.leb a b = true) (sorted xs).
Proof.
  induction xs as [|x xs IH]; simpl; [constructor|].
  by apply insert_sorted_Sorted.
Qed.

(** The pairs made from a list of even length *)
Lemma pairs_of_even (pre fs : list string) j m :
  length pre = 2 * j → length fs = 2 * m →
  ∃ pairs,
    comprehension (λ i, f0 ← getitem (pre ++ fs) i;
                        f1 ← getitem (pre ++ fs) (i + 1);
                        Ok (f0, f1))
      ((λ k, 2 * k) <$> seq j m) = Ok pairs
    ∧ (pairs ≫= λ p, [p.1; p.2]) = fs.
Proof.
  revert pre fs j. induction m as [|m IH]; intros pre fs j Hpre Hfs.
  { destruct fs; [|simpl in *; lia]. by exists []. }
  destruct fs as [|a [|b fs]]; simpl in Hfs; try lia.
  destruct (IH (pre ++ [a; b]) fs (S j)) as (pairs & Hpairs & Hflat).
  { rewrite length_app. simpl. lia. }
  { lia. }
  rewrite <- app_assoc in Hpairs.
  change ([a; b] ++ fs) with (a :: b :: fs) in Hpairs.
  exists ((a, b) :: pairs). split; [|by rewrite bind_cons, Hflat].
  set (L := pre ++ a :: b :: fs) in *.
  assert (L !! (2 * j) = Some a) as H0.
  { unfold L. by apply list_lookup_middle. }
  assert (L !! (2 * j + 1) = Some b) as H1.
  { unfold L. replace (pre ++ a :: b :: fs) with ((pre ++ [a]) ++ b :: fs)
      by (by rewrite <- app_assoc).
    apply list_lookup_middle. rewrite length_app. simpl. lia. }
  set (f := λ i, f0 ← getitem L i; f1 ← getitem L (i + 1); Ok (f0, f1)) in *.
  assert (f (2 * j) = Ok (a, b)) as Hf.
  { unfold f, getitem. by rewrite H0, H1. }
  cbn [seq]. rewrite fmap_cons. cbn [comprehension].
  by rewrite Hf, Hpairs.
Qed.

Section DiscoveryMore.
Variable listdir : string → list string.
Variable isfile : string → bool.
Variable folder : string.

Local Abbreviation files :=
  (filter (λ f, isfile (path_join folder f)) (listdir folder)).

Lemma filter_none (P : string → bool) (fs : list string) :
  (∀ f, f ∈ fs → P f = false) → filter (λ f, P f) fs = [].
Proof.
  intros HP. induction fs as [|f fs IH]; [done|].
  rewrite filter_cons, (HP f) by left. simpl.
  apply IH. intros g Hg. apply HP. by right.
Qed.

(** A folder without a file of either naming: the loop over the pairs
    fails with [TypeError], as it runs over [None]. *)
Theorem orb_matrices_no_file :
  (∀ f, f ∈ files → re_match old f = false ∧ re_match new f = false) →
  _orb_matrices listdir isfile folder = Raise TypeError.
Proof.
  intros Hnone. unfold _orb_matrices.
  rewrite (filter_none (re_match old)) by (intros; by apply Hnone).
  rewrite (filter_none (re_match new)) by (intros; by apply Hnone).
  done.
Qed.

(** Legacy files are accepted as one pair only: with one legacy file,
    or with three or more, [_orb_matrices] raises an [AssertionError]. *)
Theorem orb_matrices_legacy_count :
  let old_files := filter (λ f, re_match old f) files in
  old_files ≠ [] → length old_files ≠ 2 →
  _orb_matrices listdir isfile folder = Raise (AssertionError "").
Proof.
  intros old_files Hne Hlen. unfold _orb_matrices. fold old_files.
  assert (truthy (path_join folder <$> old_files) = true) as ->
    by (by destruct old_files).
  assert ((length (path_join folder <$> old_files) =? 2) = false) as ->.
  { rewrite length_fmap. by apply Nat.eqb_neq. }
  by destruct (truthy _).
Qed.

(** New-style files only, an even number of them: the pairs that are
    yielded are the consecutive pairs of the paths sorted as strings.
    Read one after the other they are the paths of the new-style files,
    each once, every path at most the next in the order of strings. *)
Theorem orb_matrices_new_pairs :
  let new_files := path_join folder <$> filter (λ f, re_match new f) files in
  (∀ f, f ∈ files → re_match old f = false) →
  new_files ≠ [] → length new_files mod 2 = 0 →
  ∃ pairs,
    _orb_matrices listdir isfile folder = Ok pairs
    ∧ (pairs ≫= λ p, [p.1; p.2]) = sorted new_files
    ∧ sorted new_files ≡ₚ new_files
    ∧ Sorted (λ a b, String.leb a b = true) (sorted new_files).
Proof.
  intros new_files Hold Hne Heven. unfold _orb_matrices.
  rewrite (filter_none (re_match old)) by done.
  fold new_files.
  assert (truthy new_files = true) as -> by (by destruct new_files).
  rewrite Heven. cbn [fmap list_fmap truthy length andb negb orb Nat.eqb
    py_assert mbind res_bind].
  pose proof (sorted_Permutation new_files) as Hperm.
  assert (length (sorted new_files) = 2 * (length new_files / 2)) as Hlen.
  { rewrite Hperm. apply Nat.Div0.div_exact in Heven. done. }
  destruct (pairs_of_even [] (sorted new_files) 0 (length new_files / 2))
    as (pairs & Hpairs & Hflat); [done..|].
  exists pairs. split_and!; [|done|done|apply sorted_Sorted].
  change ([] ++ sorted new_files) with (sorted new_files) in Hpairs.
  replace ((length (sorted new_files) + 1) / 2) with (length new_files / 2).
  2:{ rewrite Hlen. rewrite (Nat.mul_comm 2), Nat.div_add_l by lia.
      simpl. lia. }
  by rewrite Hpairs.
Qed.
End DiscoveryMore.

(** ** More on the inference of the zeta counts *)

Section InferenceMore.
Context {K Wfc Ovlp : Type} `{EqDecision K}.
Variable read_folder : string → res (@run_data K Wfc Ovlp).
Variable wfc_analysis_api :
  Wfc → Ovlp → list nat → list (list nat) → string → Z → float
  → list (list float).

Local Abbreviation step := (infer_step wfc_analysis_api).
Local Abbreviation loop := (infer_loop wfc_analysis_api).

Lemma max_shape_ub (rows : list (list float)) n0 row :
  row ∈ rows → length row ≤ foldl Nat.max n0 (length <$> rows).
Proof.
  assert (∀ (ls : list nat) n, n ≤ foldl Nat.max n ls) as Hinit.
  { induction ls as [|k ls IH]; intros n; simpl; [done|].
    etrans; [|apply IH]. lia. }
  revert n0. induction rows as [|r rows IH]; intros n0 Hin;
    [by apply elem_of_nil in Hin|].
  simpl. apply elem_of_cons in Hin as [->|Hin]; [|by apply IH].
  etrans; [|apply Hinit]. lia.
Qed.

(** When the inference succeeds for every folder but two of the vectors
    have different lengths, [_nzeta_mean_conf] raises [ValueError]: a
    shorter vector is not padded to the longest one. *)
Theorem nzeta_mean_conf_ragged nbands folders statistics pop rows r1 r2 :
  comprehension
    (λ '(folder, nband),
       _nzeta_infer read_folder wfc_analysis_api folder nband pop 1%float)
    (zip folders (each_band nbands folders)) = Ok rows →
  statistics ∈ ["max"; "mean"] →
  r1 ∈ rows → r2 ∈ rows → length r1 ≠ length r2 →
  _nzeta_mean_conf read_folder wfc_analysis_api nbands folders statistics pop
  = Raise ValueError.
Proof.
  intros Hrows Hstat H1 H2 Hne. unfold _nzeta_mean_conf.
  rewrite (bool_decide_eq_true_2 (statistics ∈ ["max"; "mean"])) by done.
  cbn [py_assert mbind res_bind].
  fold (each_band nbands folders). rewrite Hrows. cbn [mbind res_bind].
  set (m := foldl Nat.max 0 (length <$> rows)).
  assert (∃ r, r ∈ rows ∧ length r ≠ m) as (r & Hr & Hlen).
  { destruct (decide (length r1 = m)); [|by eauto].
    exists r2. split; [done|]. congruence. }
  rewrite (comprehension_raise _ ValueError _ r); [done| |done|].
  - intros y _. unfold np_reshape. case_bool_decide; eauto.
  - unfold np_reshape. by rewrite bool_decide_eq_false_2.
Qed.

(** The folders and the band counts are paired with [zip]: when one of
    the two lists is longer its excess entries are not used, and no
    error is raised for them. *)
Theorem nzeta_mean_conf_zip (nbands : list nband_spec) folders statistics pop :
  let n := length folders `min` length nbands in
  _nzeta_mean_conf read_folder wfc_analysis_api (NbandsList nbands) folders
    statistics pop
  = _nzeta_mean_conf read_folder wfc_analysis_api (NbandsList (take n nbands))
      (take n folders) statistics pop.
Proof.
  intros n. unfold _nzeta_mean_conf.
  assert (zip folders nbands = zip (take n folders) (take n nbands)) as ->; [|done].
  unfold n. clear. revert nbands.
  induction folders as [|f folders IH]; intros [|nb nbands]; simpl; try done.
  by rewrite <- IH.
Qed.

(** When the two [nspin] differ, [_nzeta_infer] raises an
    [AssertionError] that names both, before any wavefunction file is
    read. *)
Theorem nzeta_infer_nspin_mismatch folder run nband pop svd_thr :
  read_folder folder = Ok run →
  input_nspin run ≠ running_nspin run →
  _nzeta_infer read_folder wfc_analysis_api folder nband pop svd_thr
  = Raise (AssertionError
             ("nspin in INPUT and running_scf.log are different: "
                +:+ repr_nat (input_nspin run) +:+ " and "
                +:+ repr_nat (running_nspin run))).
Proof.
  intros Hrun Hne. unfold _nzeta_infer. rewrite Hrun. cbn [mbind res_bind].
  unfold py_assert at 1.
  by rewrite (bool_decide_eq_false_2 (input_nspin run = running_nspin run)).
Qed.

(** A result of [_nzeta_infer] is for one atom type and for agreeing
    [nspin]: with several atom types the function raises, though only
    after its loop over the spins and k-points. *)
Theorem nzeta_infer_single_type folder run nband pop svd_thr nzeta :
  read_folder folder = Ok run →
  _nzeta_infer read_folder wfc_analysis_api folder nband pop svd_thr = Ok nzeta →
  length (running_natom run) = 1 ∧ input_nspin run = running_nspin run.
Proof.
  intros Hrun. unfold _nzeta_infer. rewrite Hrun. cbn [mbind res_bind].
  intros H. apply bind_Ok in H as ([] & Hnspin & H).
  apply bind_Ok in H as ([nz nb] & _ & H).
  apply bind_Ok in H as ([] & Hnatom & _).
  unfold py_assert in *. split.
  - destruct (decide (length (running_natom run) = 1)) as [|Hn]; [done|].
    by rewrite bool_decide_eq_false_2 in Hnatom.
  - destruct (decide (input_nspin run = running_nspin run)) as [|Hn]; [done|].
    by rewrite bool_decide_eq_false_2 in Hnspin.
Qed.

(** The band counts ["occ"] and ["all"] are resolved in the first pass
    of the loop, from the occupations of the first wavefunction file at
    spin 0, and the number found is used for all the spins and
    k-points. *)
Theorem nzeta_infer_nband_resolved_once folder run pop svd_thr
    f ik_ occ_s occ_sk :
  read_folder folder = Ok run →
  wfc_files run !! 0 = Some f →
  kpt_index (istate_kpts run) (wfc_kpt f) = Ok ik_ →
  istate_occ run !! 0 = Some occ_s →
  occ_s !! ik_ = Some occ_sk →
  _nzeta_infer read_folder wfc_analysis_api folder NbandOcc pop svd_thr
  = _nzeta_infer read_folder wfc_analysis_api folder
      (NbandInt
         (Z.of_nat (length (filter (λ o, Is_true (0 <? o)%float) occ_sk))))
      pop svd_thr
  ∧ _nzeta_infer read_folder wfc_analysis_api folder NbandAll pop svd_thr
    = _nzeta_infer read_folder wfc_analysis_api folder
        (NbandInt (Z.of_nat (length occ_sk))) pop svd_thr.
Proof.
  intros Hrun Hf Hk Hoccs Hocc.
  assert (∀ nzeta nband,
    step run pop svd_thr 0 (nzeta, nband)
    = step run pop svd_thr 0
        (nzeta,
         NbandInt match nband with
                  | NbandInt n => n
                  | NbandOcc =>
                      Z.of_nat
                        (length (filter (λ o, Is_true (0 <? o)%float) occ_sk))
                  | NbandAll => Z.of_nat (length occ_sk)
                  end)) as Hstep.
  { intros nzeta nband. unfold infer_step. rewrite !Nat.Div0.mod_0_l.
    destruct (getitem (running_wk run) 0) as [w|]; [|reflexivity].
    cbn [mbind res_bind]. unfold getitem, read_file. rewrite Hf, Hoccs.
    cbn [mbind res_bind]. rewrite Hk. cbn [mbind res_bind]. rewrite Hocc.
    cbn [mbind res_bind]. destruct nband; reflexivity. }
  unfold _nzeta_infer. rewrite Hrun. cbn [mbind res_bind].
  destruct (py_assert (bool_decide (input_nspin run = running_nspin run)) _);
    [|by split].
  cbn [mbind res_bind].
  unfold range. rewrite Nat.sub_0_r.
  destruct (input_nspin run * length (running_wk run)) as [|m]; [by split|].
  cbn [seq infer_loop]. split.
  - by rewrite (Hstep _ NbandOcc).
  - by rewrite (Hstep _ NbandAll).
Qed.
End InferenceMore.

Section InferenceSum.
Context {K Wfc Ovlp : Type} `{EqDecision K}.
Variable read_folder : string → res (@run_data K Wfc Ovlp).
Variable wfc_analysis_api :
  Wfc → Ovlp → list nat → list (list nat) → string → Z → float
  → list (list float).

Local Abbreviation step := (infer_step wfc_analysis_api).
Local Abbreviation loop := (infer_loop wfc_analysis_api).

(** The analysis gives values for [L] angular momenta, [L] at least 1. *)
Variable L : nat.
Hypothesis L_pos : 0 < L.
Hypothesis analysis_length :
  ∀ w ovlp natom nzeta pop nband thr,
    length (wfc_analysis_api w ovlp natom nzeta pop nband thr) = L.

Lemma np_resize_zero : np_resize [0%float] L = replicate L 0%float.
Proof.
  unfold np_resize.
  assert (∀ n, concat (replicate n [0%float]) = replicate n 0%float) as ->.
  { induction n as [|n IH]; simpl; [done|]. by rewrite IH. }
  by rewrite take_replicate, Nat.min_id.
Qed.

Lemma np_resize_same (a : list float) : length a = L → np_resize a L = a.
Proof using L_pos.
  intros Ha. unfold np_resize. destruct a as [|x a]; [simpl in Ha; lia|].
  rewrite <- Ha. cbn [length replicate concat]. by apply take_app_length'.
Qed.

Lemma np_add_same (a b : list float) :
  length a = length b → np_add a b = Ok (zip_with PrimFloat.add a b).
Proof. intros Hab. unfold np_add. by rewrite bool_decide_eq_true_2. Qed.

Lemma infer_step_value (run : @run_data K Wfc Ovlp) pop svd_thr isk nz0 nband nz1 nband' :
  step run pop svd_thr isk (nz0, nband) = Ok (nz1, nband') →
  nz0 = [0%float] ∨ length nz0 = L →
  ∃ nb, nband' = NbandInt nb
        ∧ (∀ n, nband = NbandInt n → nb = n)
        ∧ nz1 = zip_with PrimFloat.add (if decide (length nz0 = L) then nz0
                                else replicate L 0%float)
                  (contribution wfc_analysis_api run pop svd_thr nb isk)
        ∧ length nz1 = L.
Proof using L_pos analysis_length.
  unfold infer_step. intros H Hnz0.
  apply bind_Ok in H as (w & Hw & H).
  apply bind_Ok in H as (f & Hf & H).
  apply bind_Ok in H as (ik_ & _ & H).
  apply bind_Ok in H as (occ_s & _ & H).
  apply bind_Ok in H as (occ_sk & _ & H).
  apply bind_Ok in H as ([] & _ & H).
  apply bind_Ok in H as (ovlp & Ho & H).
  apply bind_Ok in H as (nz & Hadd & H).
  injection H as <- <-.
  unfold getitem in Hw. unfold read_file in Hf, Ho.
  destruct (running_wk run !! _) as [w'|] eqn:Hw'; [|done].
  destruct (wfc_files run !! isk) as [f'|] eqn:Hf'; [|done].
  destruct (ovlp_files run !! isk) as [o'|] eqn:Ho'; [|done].
  simplify_eq.
  eexists. split; [done|]. split.
  { by intros n ->. }
  rewrite !length_fmap, analysis_length in Hadd.
  assert (np_resize nz0 (length nz0 `max` L)
          = if decide (length nz0 = L) then nz0 else replicate L 0%float) as Hres.
  { destruct Hnz0 as [->|Hlen].
    - cbn [length]. replace (1 `max` L) with L by lia. rewrite np_resize_zero.
      case_decide as HL; [|done]. by rewrite <- HL.
    - rewrite Hlen, Nat.max_id, decide_True by done. by apply np_resize_same. }
  rewrite Hres in Hadd.
  assert (length (if decide (length nz0 = L) then nz0 else replicate L 0%float) = L)
    as Hlen.
  { case_decide; [done|]. apply length_replicate. }
  rewrite np_add_same in Hadd
    by (by rewrite Hlen, !length_fmap, analysis_length).
  injection Hadd as <-.
  unfold contribution. rewrite Hw', Hf', Ho'.
  rewrite <- list_fmap_compose. split; [done|].
  rewrite length_zip_with, Hlen, length_fmap, analysis_length. lia.
Qed.

Lemma infer_loop_value (run : @run_data K Wfc Ovlp) pop svd_thr isks nz0 nb nz1 nband' :
  loop run pop svd_thr isks (nz0, NbandInt nb) = Ok (nz1, nband') →
  length nz0 = L →
  nz1 = foldl (zip_with PrimFloat.add) nz0
          (contribution wfc_analysis_api run pop svd_thr nb <$> isks)
  ∧ length nz1 = L.
Proof using L_pos analysis_length.
  revert nz0. induction isks as [|isk isks IH]; intros nz0 H Hlen.
  { simpl in H. by simplify_eq. }
  cbn [infer_loop] in H.
  apply bind_Ok in H as ([nz nband] & Hstep & H).
  apply infer_step_value in Hstep as (nb' & -> & Hnb & -> & Hlen'); [|by right].
  rewrite (Hnb nb eq_refl) in *. rewrite decide_True in * by done.
  by apply IH in H.
Qed.

(** When [_nzeta_infer] returns, over at least one (spin, k-point), its
    value is the sum over the passes of its loop, added in the order of
    the loop to a vector of zeros, of the counts of values above the
    threshold times the weight of the k-point, divided by [nspin]:
    every product, quotient and sum is a binary64 operation, rounded
    where the loop rounds it.  The band count is the one resolved in
    the first pass, the given one if it is an integer. *)
Theorem nzeta_infer_weighted_sum folder run nband pop svd_thr nzeta :
  read_folder folder = Ok run →
  0 < input_nspin run * length (running_wk run) →
  _nzeta_infer read_folder wfc_analysis_api folder nband pop svd_thr = Ok nzeta →
  ∃ nb,
    (∀ n, nband = NbandInt n → nb = n)
    ∧ nzeta = foldl (zip_with PrimFloat.add) (replicate L 0%float)
                (contribution wfc_analysis_api run pop svd_thr nb
                   <$> range 0 (input_nspin run * length (running_wk run)))
    ∧ length nzeta = L.
Proof using L_pos analysis_length.
  intros Hrun Hpos. unfold _nzeta_infer. rewrite Hrun. cbn [mbind res_bind].
  intros H. apply bind_Ok in H as ([] & _ & H).
  apply bind_Ok in H as ([nz nband'] & Hloop & H).
  apply bind_Ok in H as ([] & _ & H). injection H as ->.
  unfold range in *. rewrite Nat.sub_0_r in *.
  destruct (input_nspin run * length (running_wk run)) as [|m]; [lia|].
  cbn [seq infer_loop] in Hloop.
  apply bind_Ok in Hloop as ([nz1 nband1] & Hstep & Hloop).
  apply infer_step_value in Hstep as (nb & -> & Hnb & -> & Hlen); [|by left].
  exists nb. split; [done|].
  assert ((if decide (length [0%float] = L) then [0%float] else replicate L 0%float)
          = replicate L 0%float) as Hinit.
  { case_decide as HL; [|done]. by rewrite <- HL. }
  rewrite Hinit in *.
  by apply infer_loop_value in Hloop as [-> ?].
Qed.
End InferenceSum.

(** ** The guess dictionary *)

Section MakeGuess.
Open Scope Z_scope.

Lemma Zmax_list_init x xs : x ≤ foldl Z.max x xs.
Proof.
  revert x. induction xs as [|y xs IH]; intros x; simpl; [done|].
  etrans; [|apply IH]. lia.
Qed.

Lemma Zmax_list_ub x xs y : y ∈ x :: xs → y ≤ foldl Z.max x xs.
Proof.
  revert x. induction xs as [|z xs IH]; intros x Hy.
  - by apply list_elem_of_singleton in Hy as ->.
  - simpl. apply elem_of_cons in Hy as [->|Hy].
    + etrans; [|apply Zmax_list_init]. lia.
    + apply elem_of_cons in Hy as [->|Hy].
      * etrans; [|apply Zmax_list_init]. lia.
      * apply IH. by right.
Qed.

Lemma Zmax_list_elem x xs : foldl Z.max x xs ∈ x :: xs.
Proof.
  revert x. induction xs as [|z xs IH]; intros x; simpl; [by left|].
  specialize (IH (Z.max x z)). apply elem_of_cons in IH as [->|IH].
  - destruct (Z.max_spec x z) as [[_ ->]|[_ ->]]; [by right; left|by left].
  - by do 2 right.
Qed.

Lemma py_max_Ok xs :
  xs ≠ [] → ∃ m, py_max xs = Ok m ∧ m ∈ xs ∧ ∀ y, y ∈ xs → y ≤ m.
Proof.
  destruct xs as [|x xs]; [done|]. intros _. eexists. split; [done|].
  split; [apply Zmax_list_elem|]. intros y. apply Zmax_list_ub.
Qed.

(** For at least one shell, [_make_guess] returns the dictionary of a
    jy guess when [jy] holds and of a pw guess otherwise, and its entry
    [nzeta] is the maximum over the shells, for every angular momentum
    that some shell has: it is as long as the longest shell, it is at
    least the count of every shell, and, when no count is negative, it
    is the count of some shell (the filling value -1 of the shorter
    shells never shows). *)
Theorem make_guess_max (nzeta : list (list Z)) folder jy diagnosis :
  nzeta ≠ [] →
  ∃ nzeta_max,
    _make_guess nzeta folder jy diagnosis
    = Ok (if jy then GuessJy nzeta_max diagnosis folder
          else GuessPw nzeta_max diagnosis folder)
    ∧ (∀ orb, orb ∈ nzeta → (length orb ≤ length nzeta_max)%nat)
    ∧ (∃ orb, orb ∈ nzeta ∧ length orb = length nzeta_max)
    ∧ (∀ orb i x, orb ∈ nzeta → orb !! i = Some x →
         ∃ v, nzeta_max !! i = Some v ∧ x ≤ v)
    ∧ (Forall (Forall (λ x, 0 ≤ x)) nzeta →
       ∀ i v, nzeta_max !! i = Some v → ∃ orb, orb ∈ nzeta ∧ orb !! i = Some v).
Proof.
  intros Hne. unfold _make_guess.
  destruct (py_max_Ok ((λ nz_orb, Z.of_nat (length nz_orb)) <$> nzeta))
    as (m & -> & Hm & Hub).
  { by destruct nzeta. }
  cbn [mbind res_bind].
  apply list_elem_of_fmap in Hm as (longest & -> & Hlongest).
  replace (Z.of_nat (length longest) - 1 + 1) with (Z.of_nat (length longest))
    by lia.
  rewrite Nat2Z.id.
  set (M := length longest) in *.
  assert (∀ orb, orb ∈ nzeta → (length orb ≤ M)%nat) as Hlen.
  { intros orb Horb. assert (Z.of_nat (length orb) ≤ Z.of_nat M); [|lia].
    apply Hub. apply list_elem_of_fmap. eauto. }
  set (pad := λ nz_orb : list Z,
         nz_orb ++ replicate (Z.to_nat (Z.of_nat M - Z.of_nat (length nz_orb))) (-1)).
  assert (∀ orb i, orb ∈ nzeta → (i < M)%nat →
            pad orb !! i = Some (default (-1) (orb !! i))) as Hpad.
  { intros orb i Horb Hi. unfold pad.
    destruct (orb !! i) as [x|] eqn:Hx; simpl.
    - by apply lookup_app_l_Some.
    - apply lookup_ge_None_1 in Hx. rewrite lookup_app_r by done.
      apply lookup_replicate_2. specialize (Hlen orb Horb). lia. }
  set (entry := λ i : nat,
         match (λ orb : list Z, default (-1) (orb !! i)) <$> nzeta with
         | [] => 0
         | x :: xs => foldl Z.max x xs
         end).
  rewrite (comprehension_ok _ entry).
  2:{ intros i [_ Hi]%elem_of_seq. rewrite Nat.sub_0_r in Hi. simpl in Hi.
      rewrite (comprehension_ok _ (λ orb, default (-1) (orb !! i))).
      - cbn [mbind res_bind]. rewrite <- list_fmap_compose. unfold entry.
        change (((λ orb : list Z, default (-1) (orb !! i)) ∘ pad) <$> nzeta)
          with ((λ orb, default (-1) (pad orb !! i)) <$> nzeta).
        assert ((λ orb, default (-1) (pad orb !! i)) <$> nzeta
                = (λ orb : list Z, default (-1) (orb !! i)) <$> nzeta) as ->.
        { apply list_fmap_ext. intros k orb Hk.
          rewrite Hpad; [done| |done]. by eapply list_elem_of_lookup_2. }
        destruct nzeta; [done|]. done.
      - intros padded (orb & -> & Horb)%list_elem_of_fmap.
        unfold getitem. by rewrite !Hpad. }
  cbn [mbind res_bind]. eexists. split; [done|].
  unfold range. rewrite Nat.sub_0_r.
  assert (∀ i v, (entry <$> seq 0 M) !! i = Some v →
            (i < M)%nat
            ∧ v ∈ (λ orb : list Z, default (-1) (orb !! i)) <$> nzeta
            ∧ ∀ y, y ∈ (λ orb : list Z, default (-1) (orb !! i)) <$> nzeta → y ≤ v)
    as Hentry.
  { intros i v Hv. rewrite list_lookup_fmap in Hv.
    destruct (seq 0 M !! i) as [j|] eqn:Hj; [|done].
    apply lookup_seq in Hj as [-> Hi]. simpl in Hv. injection Hv as <-.
    split; [done|]. unfold entry.
    destruct ((λ orb : list Z, default (-1) (orb !! i)) <$> nzeta) as [|x xs] eqn:Hcol.
    { by destruct nzeta. }
    split; [apply Zmax_list_elem|]. intros y. apply Zmax_list_ub. }
  split_and!.
  - intros orb Horb. rewrite length_fmap, length_seq. by apply Hlen.
  - exists longest. split; [done|]. by rewrite length_fmap, length_seq.
  - intros orb i x Horb Hx.
    assert (i < M)%nat as Hi.
    { apply lookup_lt_Some in Hx. specialize (Hlen orb Horb). lia. }
    destruct (lookup_lt_is_Some_2 (entry <$> seq 0 M) i) as [v Hv].
    { by rewrite length_fmap, length_seq. }
    exists v. split; [done|].
    apply Hentry in Hv as (_ & _ & Hv). apply Hv.
    apply list_elem_of_fmap. exists orb. by rewrite Hx.
  - intros Hpos i v Hv. apply Hentry in Hv as (Hi & Hin & Hv).
    apply list_elem_of_fmap in Hin as (orb & -> & Horb).
    destruct (orb !! i) as [x|] eqn:Hx; simpl in *; [by eauto|].
    exfalso.
    destruct (lookup_lt_is_Some_2 longest i Hi) as [y Hy].
    assert (0 ≤ y).
    { eapply Forall_forall in Hpos; [|exact Hlongest].
      eapply Forall_forall in Hpos; [done|]. by eapply list_elem_of_lookup_2. }
    assert (y ≤ -1); [|lia].
    apply Hv. apply list_elem_of_fmap. exists longest. by rewrite Hy.
Qed.
End MakeGuess.

(** ** The configurations of the optimisation *)

Lemma py_index_elem (xs : list string) x :
  x ∈ xs → ∃ i, py_index xs x = Ok i ∧ xs !! i = Some x.
Proof.
  intros Hx. unfold py_index.
  destruct (list_find (λ y, y = x) xs) as [[i y]|] eqn:Hfind.
  - apply list_find_Some in Hfind as (Hi & -> & _). eauto.
  - apply list_find_None in Hfind.
    eapply Forall_forall in Hfind; [|done]. done.
Qed.

Lemma elem_of_concat {A} (xss : list (list A)) x :
  x ∈ concat xss ↔ ∃ xs, xs ∈ xss ∧ x ∈ xs.
Proof.
  induction xss as [|ys xss IH]; simpl.
  - split; [by intros ?%elem_of_nil|by intros (? & ?%elem_of_nil & _)].
  - rewrite elem_of_app, IH. split.
    + intros [?|(xs & ? & ?)]; [exists ys; split; [by left|done]|].
      exists xs. split; [by right|done].
    + intros (xs & [->|?]%elem_of_cons & ?); [by left|right; eauto].
Qed.

Section ConfigsProps.
Variable list_of_set : list string → list string.
Hypothesis list_of_set_elem : ∀ xs x, x ∈ list_of_set xs ↔ x ∈ xs.

Variables (orbparams : list orbparam) (folders : list (list string)).

(** The folders of an orbital, one group after the other. *)
Local Abbreviation folders_of orb :=
  (orb_folder orb ≫= λ f, default [] (folders !! f)).

(** When every folder index of every orbital is in the range of
    [folders], the configurations are the folders of the orbitals,
    whatever the order in which the set lists them, and the indexes
    computed for an orbital point, in order, to the folders of this
    orbital: [configs[iconfs[iorb][j]]] is the [j]-th folder of
    orbital [iorb]. *)
Theorem coef_opt_configs_index :
  (∀ orb f, orb ∈ orbparams → f ∈ orb_folder orb → f < length folders) →
  ∃ configs iconfs,
    _coef_opt_configs list_of_set orbparams folders = Ok (configs, iconfs)
    ∧ (∀ x, x ∈ configs ↔ ∃ orb, orb ∈ orbparams ∧ x ∈ folders_of orb)
    ∧ Forall2 (λ orb ics, (λ i, configs !! i) <$> ics = Some <$> folders_of orb)
        orbparams iconfs.
Proof using list_of_set_elem.
  intros Hrange. unfold _coef_opt_configs.
  assert (∀ orb, orb ∈ orbparams →
            comprehension (getitem folders) (orb_folder orb)
            = Ok ((λ f, default [] (folders !! f)) <$> orb_folder orb)) as Hgroups.
  { intros orb Horb. apply comprehension_ok. intros f Hf. unfold getitem.
    destruct (lookup_lt_is_Some_2 folders f) as [fs ->]; [by eapply Hrange|].
    done. }
  rewrite (comprehension_ok _
             (λ orb, (λ f, default [] (folders !! f)) <$> orb_folder orb))
    by done.
  cbn [fmap res_fmap mbind res_bind].
  set (configs := list_of_set _).
  assert (∀ x, x ∈ configs ↔ ∃ orb, orb ∈ orbparams ∧ x ∈ folders_of orb)
    as Hconfigs.
  { intros x. unfold configs. rewrite list_of_set_elem.
    rewrite elem_of_concat. split.
    - intros (fs & (fss & (orb & -> & Horb)%list_elem_of_fmap & Hfs)%elem_of_concat & Hx).
      exists orb. split; [done|].
      apply list_elem_of_fmap in Hfs as (f & -> & Hf).
      apply list_elem_of_bind. eauto.
    - intros (orb & Horb & (f & Hx & Hf)%list_elem_of_bind).
      exists (default [] (folders !! f)). split; [|done].
      apply elem_of_concat.
      exists ((λ f, default [] (folders !! f)) <$> orb_folder orb). split.
      + apply list_elem_of_fmap. by exists orb.
      + apply list_elem_of_fmap. by exists f. }
  set (idx := λ x, default 0 (fst <$> list_find (λ y, y = x) configs)).
  assert (∀ x, x ∈ configs → py_index configs x = Ok (idx x)
                               ∧ configs !! idx x = Some x) as Hidx.
  { intros x Hx. destruct (py_index_elem configs x Hx) as (i & Hi & Hl).
    unfold py_index, idx in *.
    destruct (list_find _ configs) as [[j y]|]; simplify_eq/=. done. }
  rewrite (comprehension_ok _
             (λ orb, concat ((λ f, idx <$> default [] (folders !! f))
                               <$> orb_folder orb))).
  2:{ intros orb Horb.
      rewrite (comprehension_ok _ (λ f, idx <$> default [] (folders !! f)));
        [done|].
      intros f Hf. unfold getitem.
      destruct (lookup_lt_is_Some_2 folders f) as [fs Hfs]; [by eapply Hrange|].
      rewrite Hfs. cbn [mbind res_bind default].
      apply comprehension_ok. intros x Hx. apply Hidx, Hconfigs.
      exists orb. split; [done|]. apply list_elem_of_bind.
      exists f. by rewrite Hfs. }
  cbn [mbind res_bind]. eexists _, _. split; [done|]. split; [done|].
  apply Forall2_fmap_r, Forall_Forall2_diag, Forall_forall. intros orb Horb.
  assert (∀ fs : list nat, (∀ f, f ∈ fs → f ∈ orb_folder orb) →
            (λ i, configs !! i)
              <$> concat ((λ f, idx <$> default [] (folders !! f)) <$> fs)
            = Some <$> (fs ≫= λ f, default [] (folders !! f))) as Hgen.
  { induction fs as [|f fs IH]; intros Hfs; [done|].
    rewrite fmap_cons, bind_cons. cbn [concat].
    rewrite !fmap_app, IH by (intros; apply Hfs; by right). f_equal.
    rewrite <- list_fmap_compose. apply list_fmap_ext. intros k x Hk. simpl.
    apply Hidx, Hconfigs. exists orb. split; [done|].
    apply list_elem_of_bind. exists f. split; [|apply Hfs; by left].
    by eapply list_elem_of_lookup_2. }
  by apply Hgen.
Qed.

(** A folder index out of the range of [folders] raises [IndexError]. *)
Theorem coef_opt_configs_bad_folder orb f :
  orb ∈ orbparams → f ∈ orb_folder orb → length folders ≤ f →
  _coef_opt_configs list_of_set orbparams folders = Raise IndexError.
Proof.
  intros Horb Hf Hge. unfold _coef_opt_configs.
  assert (∀ g, (∃ fs, getitem folders g = Ok fs)
               ∨ getitem folders g = Raise IndexError) as Hget.
  { intros g. unfold getitem. destruct (folders !! g); eauto. }
  assert (∀ fs, (∃ r, comprehension (getitem folders) fs = Ok r)
                ∨ comprehension (getitem folders) fs = Raise IndexError)
    as Hcases.
  { induction fs as [|g fs IH]; simpl; [eauto|].
    destruct (Hget g) as [[x ->]| ->]; simpl; [|by right].
    destruct IH as [[r ->]| ->]; simpl; eauto. }
  rewrite (comprehension_raise _ IndexError _ orb); [done| |done|].
  - intros orb' _. apply Hcases.
  - apply (comprehension_raise _ IndexError _ f); [|done|].
    + intros g _. apply Hget.
    + unfold getitem. by rewrite lookup_ge_None_2.
Qed.
End ConfigsProps.

(** ** The band analysis of the initial guess *)

Section AnalysisProps.

(** The list at [out[s][l]], empty where there is none. *)
Local Abbreviation at_ out s l :=
  (default [] (default [] (out !! s) !! l) : list nat).
Local Abbreviation shape out := (length <$> out).

Lemma append_band_Ok out s l ib out' :
  append_band out s l ib = Ok out' →
  shape out' = shape out
  ∧ ∀ s' l', at_ out' s' l'
             = at_ out s' l' ++ (if decide (s' = s ∧ l' = l) then [ib] else []).
Proof.
  unfold append_band, getitem. intros H.
  destruct (out !! s) as [row|] eqn:Hs; [|done]. simpl in H.
  destruct (row !! l) as [bands|] eqn:Hl; [|done]. simpl in H.
  injection H as <-. split.
  - apply list_eq. intros k. rewrite !list_lookup_fmap.
    destruct (decide (k = s)) as [->|Hk].
    + rewrite list_lookup_insert_eq by (by eapply lookup_lt_Some).
      rewrite Hs. simpl. by rewrite length_insert.
    + by rewrite list_lookup_insert_ne.
  - intros s' l'. destruct (decide (s' = s)) as [->|Hs'].
    + rewrite list_lookup_insert_eq by (by eapply lookup_lt_Some).
      rewrite Hs. simpl. destruct (decide (l' = l)) as [->|Hl'].
      * rewrite list_lookup_insert_eq by (by eapply lookup_lt_Some).
        rewrite Hl. simpl. by rewrite decide_True.
      * rewrite list_lookup_insert_ne by done.
        rewrite decide_False by (intros [_ ?]; done). by rewrite app_nil_r.
    + rewrite list_lookup_insert_ne by done.
      rewrite decide_False by (intros [? _]; done). by rewrite app_nil_r.
Qed.

Lemma analysis_band_Ok count_thr s ib l wlb out out' :
  analysis_band count_thr s ib l wlb out = Ok out' →
  shape out' = shape out
  ∧ ∀ s' l', at_ out' s' l'
             = at_ out s' l'
               ++ (if decide (s' = s ∧ l ≤ l') then
                     match wlb !! (l' - l) with
                     | Some wl => if Qle_bool count_thr wl then [ib] else []
                     | None => []
                     end
                   else []).
Proof.
  revert l out. induction wlb as [|wl rest IH]; intros l out H.
  { simpl in H. injection H as <-. split; [done|]. intros s' l'.
    rewrite lookup_nil. case_decide; by rewrite app_nil_r. }
  cbn [analysis_band] in H. apply bind_Ok in H as (out1 & H1 & H).
  apply IH in H as [Hshape Hat].
  assert (shape out1 = shape out
          ∧ ∀ s' l', at_ out1 s' l'
              = at_ out s' l'
                ++ (if decide (s' = s ∧ l' = l)
                    then if Qle_bool count_thr wl then [ib] else []
                    else [])) as [Hshape1 Hat1].
  { destruct (Qle_bool count_thr wl).
    - by apply append_band_Ok.
    - injection H1 as <-. split; [done|]. intros s' l'.
      case_decide; by rewrite app_nil_r. }
  split; [congruence|]. intros s' l'. rewrite Hat, Hat1, <- app_assoc. f_equal.
  destruct (decide (s' = s)) as [->|Hs'].
  2:{ rewrite !decide_False by (intros [? _]; done). done. }
  destruct (decide (l' = l)) as [->|Hl'].
  - rewrite decide_True by done. rewrite decide_False by lia.
    rewrite decide_True by done. rewrite Nat.sub_diag. simpl.
    by rewrite app_nil_r.
  - rewrite decide_False by (intros [_ ?]; done). simpl.
    destruct (decide (l < l')) as [Hlt|Hge].
    + rewrite !decide_True by (split; [done|lia]).
      by replace (l' - l) with (S (l' - S l)) by lia.
    + by rewrite !decide_False by (intros [_ ?]; lia).
Qed.

Lemma analysis_bands_Ok count_thr s ib wll out out' :
  analysis_bands count_thr s ib wll out = Ok out' →
  shape out' = shape out
  ∧ ∀ s' l', at_ out' s' l'
             = at_ out s' l'
               ++ (if decide (s' = s) then bands_from count_thr l' ib wll
                   else []).
Proof.
  revert ib out. induction wll as [|wb rest IH]; intros ib out H.
  { simpl in H. injection H as <-. split; [done|]. intros s' l'.
    simpl. case_decide; by rewrite app_nil_r. }
  cbn [analysis_bands] in H. apply bind_Ok in H as (out1 & H1 & H).
  apply analysis_band_Ok in H1 as [Hshape1 Hat1].
  apply IH in H as [Hshape Hat].
  split; [congruence|]. intros s' l'. rewrite Hat, Hat1, <- app_assoc. f_equal.
  destruct (decide (s' = s)) as [->|Hs'].
  2:{ rewrite decide_False by (intros [? _]; done). done. }
  rewrite decide_True by (split; [done|lia]).
  cbn [bands_from]. f_equal. rewrite Nat.sub_0_r, list_lookup_fmap.
  by destruct (wb !! l').
Qed.

Context {K Wfc Ovlp : Type}.
Variable read_folder : string → res (@run_data K Wfc Ovlp).
Variable _wll : Wfc → Ovlp → list nat → list (list nat) → list (list (list Q)).

Lemma analysis_loop_Ok (run : @run_data K Wfc Ovlp) count_thr isks out out' :
  analysis_loop _wll run count_thr isks out = Ok out' →
  shape out' = shape out
  ∧ ∀ s l, at_ out' s l = at_ out s l ++ recorded _wll run count_thr isks s l.
Proof.
  revert out. induction isks as [|isk isks IH]; intros out H.
  { simpl in H. injection H as <-. split; [done|]. intros s l.
    by rewrite app_nil_r. }
  cbn [analysis_loop] in H.
  apply bind_Ok in H as (f & Hf & H). apply bind_Ok in H as (ovlp & Ho & H).
  apply bind_Ok in H as (out1 & H1 & H).
  apply analysis_bands_Ok in H1 as [Hshape1 Hat1].
  apply IH in H as [Hshape Hat].
  split; [congruence|]. intros s l. rewrite Hat, Hat1, <- app_assoc. f_equal.
  unfold recorded. rewrite fmap_cons. cbn [concat]. f_equal.
  unfold wll_of, read_file in *.
  destruct (wfc_files run !! isk); [|done].
  destruct (ovlp_files run !! isk); [|done]. simplify_eq.
  destruct (decide (s = isk mod length (running_wk run))) as [->|Hs].
  - by rewrite !decide_True.
  - by rewrite !decide_False.
Qed.

Lemma recorded_out_of_range (run : @run_data K Wfc Ovlp) count_thr isks s l :
  0 < length (running_wk run) → length (running_wk run) ≤ s →
  recorded _wll run count_thr isks s l = [].
Proof.
  intros Hwk Hs. unfold recorded.
  induction isks as [|isk rest IH]; [done|].
  rewrite fmap_cons. cbn [concat]. rewrite IH, app_nil_r.
  rewrite decide_False; [done|].
  pose proof (Nat.mod_upper_bound isk (length (running_wk run)) ltac:(lia)).
  lia.
Qed.

(** When [_nzeta_analysis] returns, its result has one entry for every
    spin, each with one list for every angular momentum of the atom
    type, and the list at [out[s][l]] holds the indexes of the bands
    whose weight on [l] is at least the threshold, for the passes [isk]
    of the loop with [isk % len(wk) = s], in the order of the passes
    and of the bands: the first index of [out] is the k-point of the
    pass.  So nothing is ever recorded at an index [s] that is not
    below the number of k-points, and with one k-point the bands of
    both spins are in [out[0]]; and the function returns only if no
    band is to be recorded at an index that is not below [nspin], or
    for an angular momentum that the atom type does not have. *)
Theorem nzeta_analysis_recorded folder run count_thr itype nzeta out :
  read_folder folder = Ok run →
  running_nzeta run !! itype = Some nzeta →
  _nzeta_analysis read_folder _wll folder count_thr itype = Ok out →
  let isks := range 0 (input_nspin run * length (running_wk run)) in
  length out = input_nspin run
  ∧ Forall (λ row, length row = length nzeta) out
  ∧ (∀ s row l bands, out !! s = Some row → row !! l = Some bands →
       bands = recorded _wll run count_thr isks s l)
  ∧ (∀ s l, length (running_wk run) ≤ s →
       recorded _wll run count_thr isks s l = [])
  ∧ (∀ s l, input_nspin run ≤ s ∨ length nzeta ≤ l →
       recorded _wll run count_thr isks s l = [])
  ∧ (length (running_wk run) = 1 →
     ∀ l, recorded _wll run count_thr isks 0 l
          = concat ((λ isk, bands_from count_thr l 0 (wll_of _wll run isk))
                      <$> isks)).
Proof.
  intros Hrun Hnzeta H isks. unfold _nzeta_analysis in H.
  rewrite Hrun in H. cbn [mbind res_bind] in H.
  apply bind_Ok in H as ([] & _ & H).
  unfold getitem in H. rewrite Hnzeta in H. cbn [mbind res_bind] in H.
  apply bind_Ok in H as ([] & Hl & H).
  unfold py_assert in Hl. case_bool_decide as Hpos; [|done].
  replace (Z.to_nat (Z.of_nat (length nzeta) - 1 + 1)) with (length nzeta)
    in H by lia.
  apply analysis_loop_Ok in H as [Hshape Hat].
  fold isks in Hat.
  assert (length out = input_nspin run) as Hlen.
  { apply (f_equal length) in Hshape.
    by rewrite !length_fmap, length_replicate in Hshape. }
  assert (Forall (λ row, length row = length nzeta) out) as Hrows.
  { apply Forall_forall. intros row [s Hs]%list_elem_of_lookup_1.
    apply (f_equal (λ x, x !! s)) in Hshape.
    rewrite !list_lookup_fmap, Hs in Hshape. simpl in Hshape.
    rewrite lookup_replicate_2 in Hshape
      by (apply lookup_lt_Some in Hs; lia).
    simpl in Hshape. rewrite length_replicate in Hshape. congruence. }
  split_and!; [done|done| | | |].
  - intros s row l bands Hs Hrow. specialize (Hat s l).
    rewrite Hs in Hat. simpl in Hat. rewrite Hrow in Hat. simpl in Hat.
    rewrite Hat.
    assert (s < input_nspin run) by (apply lookup_lt_Some in Hs; lia).
    rewrite lookup_replicate_2 by done. simpl.
    destruct (replicate (length nzeta) [] !! l) as [x|] eqn:Hx; [|done].
    by apply lookup_replicate in Hx as [-> _].
  - intros s l Hs.
    destruct (decide (0 < length (running_wk run))) as [Hwk|Hwk].
    + by apply recorded_out_of_range.
    + unfold isks. replace (length (running_wk run)) with 0 by lia.
      by rewrite Nat.mul_0_r.
  - intros s l Hsl. specialize (Hat s l). symmetry.
    destruct (out !! s) as [row|] eqn:Hs; simpl in Hat.
    + assert (s < input_nspin run) by (apply lookup_lt_Some in Hs; lia).
      destruct Hsl as [?|Hge]; [lia|].
      eapply Forall_forall in Hrows; [|by eapply list_elem_of_lookup_2].
      rewrite (lookup_ge_None_2 row l) in Hat by lia. simpl in Hat.
      rewrite lookup_replicate_2 in Hat by done. simpl in Hat.
      rewrite (proj1 (lookup_replicate_None _ _ _)) in Hat by lia. done.
    + apply lookup_ge_None_1 in Hs.
      rewrite (proj1 (lookup_replicate_None _ _ _)) in Hat by lia. done.
  - intros Hwk l. unfold recorded. rewrite Hwk. f_equal.
Qed.
End AnalysisProps.

(** ** More on the initial guess and the onion optimisation *)

Lemma for_each_Ok_inv {A} (body : A → res unit) xs x :
  for_each body xs = Ok () → x ∈ xs → body x = Ok ().
Proof.
  induction xs as [|y xs IH]; intros H Hx; [by apply elem_of_nil in Hx|].
  simpl in H. apply bind_Ok in H as ([] & Hy & H).
  apply elem_of_cons in Hx as [->|Hx]; [done|]. by apply IH.
Qed.

(** A subset is returned only for a baseline below the zeta counts. *)
Lemma coef_subset_Ok_le {R} (data : coef3 R) nzeta (nzeta0 : list nat) r :
  _coef_subset nzeta (Some nzeta0) data = Ok r → nzeta_le nzeta0 nzeta.
Proof.
  unfold _coef_subset. intros H.
  apply bind_Ok in H as ([] & Hlen & H).
  apply bind_Ok in H as ([] & Hle & _).
  unfold py_assert in Hlen. case_bool_decide as Hlen'; [|done].
  split; [done|]. intros l x y Hx Hy.
  fold (padded nzeta nzeta0) in Hle.
  eapply (for_each_Ok_inv _ _ (y, x)) in Hle.
  - unfold py_assert in Hle. by case_bool_decide.
  - apply list_elem_of_lookup. exists l. apply lookup_zip_with_Some.
    exists y, x. split_and!; [done..|].
    rewrite padded_lookup by (by eapply lookup_lt_Some). by rewrite Hx.
Qed.

Section OnionMore.
Context {R Bands Options : Type}.
Variable initgen_jy : guess → list nat → list Z → res (coef3 R).
Variable initgen_pw : guess → res (coef3 R).
Variable dirname : string → string.
Variable nzeta_analysis : string → res (list (list (list nat))).
Variable opt :
  coef4 R → option (coef4 R) → list nat → Bands → Options → nat → res (coef4 R).


Lemma concat_imap_nil {A B} (zs : list B) :
  concat (imap (λ _ _, @nil A) zs) = [].
Proof. induction zs as [|z zs IH]; [done|]. exact IH. Qed.

Lemma slice_empty {A} (xs : list A) lo hi : hi ≤ lo → slice xs lo hi = [].
Proof. intros H. unfold slice. by replace (hi - lo) with 0 by lia. Qed.

(** For a jy guess, when no channel of a shell gets a new zeta function
    (its counts are those of its parent, or below), [_coef_guess]
    raises the [AssertionError] that no band index is found: no band of
    the monomer is picked for the shell.  The band analysis must have
    returned at least one spin, with the bands of every channel of the
    shell. *)
Theorem coef_guess_jy_no_new_zeta nz diagnosis outdir nzeta excluded ib :
  let excluded' := default (replicate (length nzeta) 0) excluded in
  nzeta_analysis (dirname outdir) = Ok ib →
  ib ≠ [] →
  (∀ ibsp, ibsp ∈ ib → length (zip nzeta excluded') ≤ length ibsp) →
  (∀ l n n0, nzeta !! l = Some n → excluded' !! l = Some n0 → n ≤ n0) →
  _coef_guess initgen_jy initgen_pw dirname nzeta_analysis
    (GuessJy nz diagnosis outdir) nzeta excluded
  = Raise (AssertionError (no_band_msg (replicate (length ib) []))).
Proof.
  intros excluded' Hib Hne Hchan Hle. unfold _coef_guess.
  fold excluded'. rewrite Hib. cbn [mbind res_bind].
  unfold py_assert at 1. rewrite bool_decide_eq_true_2 by (destruct ib; simpl; [done|lia]).
  cbn [mbind res_bind].
  assert (pick_bands nzeta excluded' ib = Ok (replicate (length ib) [])) as ->.
  { unfold pick_bands.
    rewrite (comprehension_ok _
               (λ _, imap (λ _ _, []) (zip nzeta excluded'))).
    - cbn [mbind res_bind]. f_equal. rewrite <- list_fmap_compose.
      clear. induction ib as [|ibsp ib IH]; [done|].
      rewrite fmap_cons. cbn [length replicate]. f_equal; [|done].
      apply concat_imap_nil.
    - intros ibsp Hin.
      apply (comprehension_enum_ok _ (λ _ _, [])).
      intros l [n n0] Hl. simpl.
      apply lookup_zip_with_Some in Hl as (a & b & [= <- <-] & Ha & Hb).
      unfold getitem.
      destruct (lookup_lt_is_Some_2 ibsp l) as [bands ->].
      { specialize (Hchan ibsp Hin).
        assert (l < length (zip nzeta excluded')); [|lia].
        rewrite length_zip_with.
        apply lookup_lt_Some in Ha. apply lookup_lt_Some in Hb. lia. }
      simpl. f_equal. apply slice_empty.
      specialize (Hle l _ _ Ha Hb). nia. }
  cbn [mbind res_bind]. unfold getitem.
  destruct ib as [|ibsp ib]; [done|]. simpl. done.
Qed.

(** The loop of [_do_onion_opt] from the shell [iorb] on: it fills the
    entries of the shells it runs through and leaves the others. *)
Lemma onion_loop_filled nzeta deps nthreads options g shells coefs iorb final :
  onion_loop initgen_jy initgen_pw dirname nzeta_analysis opt
    nzeta deps nthreads options g coefs iorb shells = Ok final →
  iorb + length shells ≤ length coefs →
  length final = length coefs
  ∧ (∀ j, iorb ≤ j < iorb + length shells → ∃ c, final !! j = Some (Some c))
  ∧ (∀ j, j < iorb ∨ iorb + length shells ≤ j → final !! j = coefs !! j).
Proof.
  revert coefs iorb.
  induction shells as [|[index_ [nzeta_ [iconfs_ ibands_]]] rest IH];
    intros coefs iorb H Hlen.
  { simpl in H. simplify_eq. split; [done|]. split; [simpl; lia|done]. }
  apply onion_loop_step in H
    as (? & ? & ? & coef_inner & coefs_shell & _ & _ & _ & _ & H).
  simpl in Hlen.
  apply IH in H as (Hl & Hfill & Hframe); [|rewrite length_insert; lia].
  rewrite length_insert in Hl. split; [done|]. split.
  - intros j Hj. destruct (decide (j = iorb)) as [->|Hne].
    + rewrite Hframe by lia. rewrite list_lookup_insert_eq by lia. eauto.
    + apply Hfill. simpl in Hj. lia.
  - intros j Hj. simpl in Hj. rewrite Hframe by lia.
    apply list_lookup_insert_ne. lia.
Qed.

(** The result of [_do_onion_opt] has one entry for every vector of
    [nzeta].  The loop runs over [zip], so it stops at the shortest of
    [deps], [nzeta], [iconfs] and [ibands]: the shells before that
    length have a tensor, and the entries of the shells from that
    length on are [None], without an error. *)
Theorem onion_result_entries
    (nzeta iconfs : list (list nat)) (ibands : list Bands)
    (deps : list (option nat)) nthreads options g coefs :
  _do_onion_opt initgen_jy initgen_pw dirname nzeta_analysis opt nzeta iconfs
    ibands deps nthreads options g = Ok coefs →
  let n := length deps `min` (length nzeta
             `min` (length iconfs `min` length ibands)) in
  length coefs = length nzeta
  ∧ (∀ i, i < n → ∃ c, coefs !! i = Some (Some c))
  ∧ (∀ i, n ≤ i → i < length nzeta → coefs !! i = Some None).
Proof.
  intros H n. unfold _do_onion_opt in H.
  assert (length (zip deps (zip nzeta (zip iconfs ibands))) = n) as Hn.
  { by rewrite !length_zip_with. }
  apply onion_loop_filled in H as (Hlen & Hfill & Hframe);
    [|rewrite length_replicate, Hn; unfold n; lia].
  rewrite length_replicate in Hlen. rewrite Hn in *.
  split; [done|]. split.
  - intros i Hi. apply Hfill. lia.
  - intros i Hi Hlt. rewrite Hframe by lia. by apply lookup_replicate_2.
Qed.

Lemma onion_loop_guess nzeta deps nthreads options g shells coefs iorb final
    j index_ nzeta_ iconfs_ ibands_ :
  onion_loop initgen_jy initgen_pw dirname nzeta_analysis opt
    nzeta deps nthreads options g coefs iorb shells = Ok final →
  shells !! j = Some (index_, (nzeta_, (iconfs_, ibands_))) →
  ∃ coef_init,
    match index_ with
    | None => _coef_guess initgen_jy initgen_pw dirname nzeta_analysis g nzeta_
                None = Ok coef_init
    | Some p => ∃ nzeta_p, nzeta !! p = Some nzeta_p
                           ∧ _coef_guess initgen_jy initgen_pw dirname
                               nzeta_analysis g nzeta_ (Some nzeta_p)
                             = Ok coef_init
    end.
Proof.
  revert coefs iorb j.
  induction shells as [|[index' [nzeta' [iconfs' ibands']]] rest IH];
    intros coefs iorb j H Hj; [done|].
  destruct j as [|j].
  - simplify_eq/=.
    apply bind_Ok in H as (nzeta_inner & Hinner & H).
    apply bind_Ok in H as (coef_init & Hinit & _).
    exists coef_init. destruct index_ as [p|]; [|by simplify_eq/=].
    unfold getitem in Hinner.
    destruct (nzeta !! p) as [nzeta_p|]; [|done]. simplify_eq/=. eauto.
  - apply onion_loop_step in H
      as (? & ? & ? & coef_inner & coefs_shell & _ & _ & _ & _ & H).
    by eapply IH.
Qed.

(** With a pw guess, [_do_onion_opt] returns only if every shell that
    the loop runs through and that has a parent is above its parent:
    the zeta counts of the parent are not more, and at most those of
    the shell in every channel.  Otherwise the check of
    [_coef_subset] fails for the initial guess of the shell. *)
Theorem onion_pw_hierarchy
    (nzeta iconfs : list (list nat)) (ibands : list Bands)
    (deps : list (option nat)) nthreads options nz diagnosis orb_mat coefs
    i p nzeta_i nzeta_p :
  _do_onion_opt initgen_jy initgen_pw dirname nzeta_analysis opt nzeta iconfs
    ibands deps nthreads options
    (GuessPw nz diagnosis orb_mat) = Ok coefs →
  i < length iconfs → i < length ibands →
  deps !! i = Some (Some p) →
  nzeta !! i = Some nzeta_i → nzeta !! p = Some nzeta_p →
  nzeta_le nzeta_p nzeta_i.
Proof.
  unfold _do_onion_opt. intros H Hic Hib Hdep Hi Hp.
  destruct (lookup_lt_is_Some_2 iconfs i Hic) as [iconfs_ Hiconfs].
  destruct (lookup_lt_is_Some_2 ibands i Hib) as [ibands_ Hibands].
  eapply (onion_loop_guess _ _ _ _ _ _ _ _ _ i (Some p) nzeta_i iconfs_ ibands_)
    in H as (coef_init & nzeta_p' & Hp' & Hguess).
  2:{ apply lookup_zip_with_Some. eexists _, _. split_and!; [done..|].
      apply lookup_zip_with_Some. eexists _, _. split_and!; [done..|].
      apply lookup_zip_with_Some. eexists _, _. done. }
  simplify_eq. unfold _coef_guess in Hguess.
  apply bind_Ok in Hguess as (seed & _ & Hsub).
  by eapply coef_subset_Ok_le.
Qed.
End OnionMore.

(** ** Direct generation of coefficients *)

Section CoefGenProps.
Variable _nbes : Z → pyval → pyval → res Z.

(** For [value = "eye"], a number [ecut] and an integer [lmax], when
    [_nbes] gives a number [nbes l >= 0] of functions for every
    angular momentum up to [lmax], [_coef_gen] returns one atom type
    with the channels [0] to [lmax]; channel [l] has [nbes l] zeta
    functions of [nbes l] coefficients each, and the coefficient [q] of
    the zeta function [z] is 1 if [q = z] and 0 otherwise. *)
Theorem coef_gen_eye rcut ecut lmax (nbes : nat → nat) :
  is_number ecut = true → is_int lmax = true →
  (∀ l, (Z.of_nat l ≤ int_value lmax)%Z →
        _nbes (Z.of_nat l) rcut ecut = Ok (Z.of_nat (nbes l))) →
  ∃ chans,
    _coef_gen _nbes rcut ecut lmax (PyStr "eye") = Ok [chans]
    ∧ length chans = Z.to_nat (int_value lmax + 1)
    ∧ ∀ l ch, chans !! l = Some ch →
        length ch = nbes l
        ∧ ∀ z row, ch !! z = Some row →
            length row = nbes l
            ∧ ∀ q c, row !! q = Some c →
                c = if bool_decide (z = q) then 1%Q else 0%Q.
Proof.
  intros Hecut Hlmax Hnbes. unfold _coef_gen. rewrite Hecut, Hlmax.
  cbn [negb]. set (ls := range 0 (Z.to_nat (int_value lmax + 1))).
  assert (∀ l, l ∈ ls → (Z.of_nat l ≤ int_value lmax)%Z) as Hls.
  { intros l [_ Hl]%elem_of_seq. lia. }
  rewrite (comprehension_ok _ (λ l, Z.of_nat (nbes l)))
    by (intros l Hl; by apply Hnbes, Hls).
  cbn [mbind res_bind String.eqb Ascii.eqb Bool.eqb].
  set (eye := λ l : nat,
         (λ z, (λ q, if bool_decide (z = q) then 1%Q else 0%Q)
                 <$> seq 0 (nbes l)) <$> seq 0 (nbes l)).
  rewrite (comprehension_ok _ eye).
  2:{ intros l Hl. unfold getitem. rewrite list_lookup_fmap.
      apply list_elem_of_lookup_1 in Hl as Hk. destruct Hk as [k Hk].
      pose proof Hk as [Hlk _]%lookup_seq. simpl in Hlk. subst k.
      rewrite Hk. cbn [fmap option_fmap option_map mbind res_bind].
      unfold np_eye. rewrite bool_decide_eq_false_2 by lia.
      by rewrite Nat2Z.id. }
  cbn [mbind res_bind]. eexists. split; [done|]. split.
  { unfold ls, range. by rewrite length_fmap, length_seq, Nat.sub_0_r. }
  intros l ch Hch. rewrite list_lookup_fmap in Hch.
  destruct (ls !! l) as [l'|] eqn:Hl; [|done].
  apply lookup_seq in Hl as [Hl' _]. simpl in Hl'. subst l'.
  injection Hch as <-. unfold eye.
  split; [by rewrite length_fmap, length_seq|].
  intros z row Hrow. rewrite list_lookup_fmap in Hrow.
  destruct (seq 0 (nbes l) !! z) as [z'|] eqn:Hz; [|done].
  apply lookup_seq in Hz as [Hz' _]. simpl in Hz'. subst z'.
  injection Hrow as <-. split; [by rewrite length_fmap, length_seq|].
  intros q c Hc. rewrite list_lookup_fmap in Hc.
  destruct (seq 0 (nbes l) !! q) as [q'|] eqn:Hq; [|done].
  apply lookup_seq in Hq as [Hq' _]. simpl in Hq'. subst q'.
  by injection Hc as <-.
Qed.

(** Coefficients are generated for ["eye"] only: for every other
    [value], a string or not, [_coef_gen] raises. *)
Theorem coef_gen_only_eye rcut ecut lmax value :
  value ≠ PyStr "eye" →
  ∃ e, _coef_gen _nbes rcut ecut lmax value = Raise e.
Proof.
  intros Hne. unfold _coef_gen.
  destruct (is_number ecut); cbn [negb]; [|eauto].
  destruct (is_int lmax); cbn [negb]; [|eauto].
  destruct value as [| |s| |]; eauto.
  destruct (comprehension _ _) as [nbes_rcut|e]; cbn [mbind res_bind]; [|eauto].
  destruct (String.eqb s "eye") eqn:Heq; [|eauto].
  apply String.eqb_eq in Heq as ->. done.
Qed.
End CoefGenProps.

Section ExplicitNzeta.
Context {K Wfc Ovlp : Type} `{EqDecision K}.
Variable read_folder : string → res (@run_data K Wfc Ovlp).
Variable wfc_analysis_api :
  Wfc → Ovlp → list nat → list (list nat) → string → Z → float
  → list (list float).

(** When the zeta counts of every orbital are given (none is
    ["auto"]) and the folder indexes are in range, the counts that
    [_coef_opt_jy] uses are the given ones: rounding up leaves an
    integer as it is, and no folder is read. *)
Theorem coef_opt_jy_nzeta_explicit orbparams (folders : list (list string)) :
  Forall (λ orb, is_Some (orb_nzeta orb)) orbparams →
  (∀ orb f, orb ∈ orbparams → f ∈ orb_folder orb → f < length folders) →
  _coef_opt_jy_nzeta read_folder wfc_analysis_api orbparams folders
  = Ok ((λ orb, default [] (orb_nzeta orb)) <$> orbparams).
Proof.
  intros Hexplicit Hrange. unfold _coef_opt_jy_nzeta.
  rewrite (comprehension_enum_ok _
             (λ _ orb, (λ i, concat (replicate (length (default [] (folders !! i)))
                                       (nbands_as_list (orb_nbands_ref orb))))
                         <$> orb_folder orb)).
  2:{ intros iorb orb Horb. simpl. apply comprehension_ok. intros i Hi.
      unfold getitem. rewrite list_lookup_fmap, Horb. simpl.
      destruct (lookup_lt_is_Some_2 folders i) as [fs ->]; [|done].
      eapply Hrange; [|done]. by eapply list_elem_of_lookup_2. }
  cbn [mbind res_bind].
  rewrite (comprehension_enum_ok _
             (λ _ orb, IntList (default [] (orb_nzeta orb)))).
  2:{ intros iorb orb Horb.
      eapply Forall_forall in Hexplicit; [|by eapply list_elem_of_lookup_2].
      by destruct Hexplicit as [nz ->]. }
  cbn [mbind res_bind].
  assert (∀ orbs : list orbparam,
    comprehension ceil_all
      (imap (λ i orb, IntList (default [] (orb_nzeta orb))) orbs)
    = Ok ((λ orb, default [] (orb_nzeta orb)) <$> orbs)) as Hceil.
  { induction orbs as [|orb orbs IH]; [done|].
    cbn [imap comprehension ceil_all mbind res_bind].
    change (imap ((λ _ orb0, IntList (default [] (orb_nzeta orb0))) ∘ S) orbs)
      with (imap (λ (_ : nat) orb0, IntList (default [] (orb_nzeta orb0)))
              orbs).
    by rewrite IH. }
  by apply Hceil.
Qed.
End ExplicitNzeta.

(** ** The overlap matrices of the pw optimisation *)

Section PwMatricesProps.
Variable listdir : string → list string.
Variable isfile : string → bool.
Variable read_orb_mat : string → res Q.
Variable config_add : string → string → res unit.
Variable rcut : Q.

(** A pair of paths given to the minimizer: both files have the same
    cutoff radius, which is the one asked for. *)
Local Abbreviation matches pr :=
  (∃ r r', read_orb_mat pr.1 = Ok r ∧ read_orb_mat pr.2 = Ok r'
           ∧ (r == r')%Q ∧ (Qabs (r - rcut) < 1 # 10000000000)%Q).

Local Abbreviation fov_of added := (fst <$> head added).

Lemma pw_pair_Ok st pr st' :
  pw_pair read_orb_mat config_add rcut st pr = Ok st' →
  st' = st ∨ (st'.1 = st.1 ++ [pr] ∧ st'.2 = Some (default pr.1 st.2)
              ∧ matches pr).
Proof.
  destruct st as [added fov], pr as [fov_ fop_]. unfold pw_pair. intros H.
  apply bind_Ok in H as (ov & Hov & H). apply bind_Ok in H as (op & Hop & H).
  apply bind_Ok in H as ([] & Heq & H).
  destruct (Qlt_le_dec _ _) as [Hlt|Hge]; [|left; by simplify_eq].
  apply bind_Ok in H as ([] & _ & H). injection H as <-. right.
  split_and!; [done..|]. exists ov, op. split_and!; [done..| |done].
  unfold py_assert in Heq. destruct (Qeq_bool ov op) eqn:Hq; [|done].
  by apply Qeq_bool_iff.
Qed.

Lemma pw_pairs_Ok pairs st st' :
  pw_pairs read_orb_mat config_add rcut pairs st = Ok st' →
  st.2 = fov_of st.1 →
  ∃ new, st'.1 = st.1 ++ new ∧ st'.2 = fov_of st'.1
         ∧ Forall (λ pr, pr ∈ pairs ∧ matches pr) new.
Proof.
  revert st. induction pairs as [|pr pairs IH]; intros st H Hfov.
  { simpl in H. injection H as <-. exists []. by rewrite app_nil_r. }
  cbn [pw_pairs] in H. apply bind_Ok in H as (st1 & H1 & H).
  apply pw_pair_Ok in H1 as [->|(Hadded & Hfov1 & Hmatch)].
  - apply IH in H as (new & ? & ? & Hnew); [|done]. exists new.
    split_and!; [done..|]. eapply Forall_impl; [done|].
    intros p [? ?]. split; [by right|done].
  - apply IH in H as (new & Hst' & ? & Hnew).
    2:{ rewrite Hfov1, Hadded, Hfov. by destruct st.1. }
    exists (pr :: new). split_and!; [|done|].
    { by rewrite Hst', Hadded, <- app_assoc. }
    constructor; [split; [by left|done]|].
    eapply Forall_impl; [done|]. intros p [? ?]. split; [by right|done].
Qed.

Lemma pw_folders_Ok configs st st' :
  pw_folders listdir isfile read_orb_mat config_add rcut configs st = Ok st' →
  st.2 = fov_of st.1 →
  ∃ new, st'.1 = st.1 ++ new ∧ st'.2 = fov_of st'.1
         ∧ Forall (λ pr,
                     (∃ folder pairs, folder ∈ configs
                        ∧ _orb_matrices listdir isfile folder = Ok pairs
                        ∧ pr ∈ pairs)
                     ∧ matches pr) new.
Proof.
  revert st. induction configs as [|folder configs IH]; intros st H Hfov.
  { simpl in H. injection H as <-. exists []. by rewrite app_nil_r. }
  cbn [pw_folders] in H. apply bind_Ok in H as (pairs & Hpairs & H).
  apply bind_Ok in H as (st1 & H1 & H).
  apply pw_pairs_Ok in H1 as (new1 & Hst1 & Hfov1 & Hnew1); [|done].
  apply IH in H as (new & Hst' & ? & Hnew); [|done].
  exists (new1 ++ new). split_and!; [|done|].
  { by rewrite Hst', Hst1, <- app_assoc. }
  apply Forall_app. split.
  - eapply Forall_impl; [done|]. intros p [? ?]. split; [|done].
    exists folder, pairs. split_and!; [by left|done..].
  - eapply Forall_impl; [done|].
    intros p [(folder' & pairs' & ? & ? & ?) ?]. split; [|done].
    exists folder', pairs'. split_and!; [by right|done..].
Qed.

(** When the loop of [_coef_opt_pw] over the overlap matrices ends
    without an error, every pair of files given to the minimizer is a
    pair that [_orb_matrices] yields for one of the configurations,
    its two files have the same cutoff radius, and this radius is
    [rcut] (up to [1e-10]); [fov] is the first file of the first such
    pair, and stays [None] when there is none. *)
Theorem coef_opt_pw_matrices_match configs added fov :
  _coef_opt_pw_matrices listdir isfile read_orb_mat config_add rcut configs
  = Ok (added, fov) →
  fov = fov_of added
  ∧ Forall (λ pr,
              (∃ folder pairs, folder ∈ configs
                 ∧ _orb_matrices listdir isfile folder = Ok pairs
                 ∧ pr ∈ pairs)
              ∧ matches pr) added.
Proof.
  intros H. apply pw_folders_Ok in H as (new & Hadded & Hfov & Hnew); [|done].
  simpl in *. by subst.
Qed.
End PwMatricesProps.

(** ** The further properties at example inputs *)

Module MoreWitnesses.
Import Examples MoreExamples.

Lemma nzeta_le_111_333 : nzeta_le [1; 1; 1] [3; 3; 3].
Proof.
  split; [simpl; lia|].
  intros [|[|[|l]]] x y Hx Hy; simplify_eq/=; lia.
Defined.

Lemma coef_subset_missing_rows_witness :
  _coef_subset [3; 3; 3] (Some [1; 1; 1]) data = Raise IndexError.
Proof.
  apply (coef_subset_missing_rows data [3; 3; 3] (Some [1; 1; 1]) 2 3);
    [exact nzeta_le_111_333|reflexivity|simpl; lia|simpl; lia].
Defined.

Lemma nzeta_le_11_231 : nzeta_le [1; 1] [2; 3; 1].
Proof.
  split; [simpl; lia|].
  intros [|[|l]] x y Hx Hy; simplify_eq/=; lia.
Defined.

Lemma nzeta_chain_11_231 : nzeta_chain [[1; 1]; [2; 3; 1]].
Proof.
  intros [|[|k]] a b Ha Hb; simplify_eq/=. exact nzeta_le_11_231.
Defined.

Lemma covers_data_231 : covers data [2; 3; 1].
Proof.
  intros [|[|[|l]]] nz Hnz; simplify_eq/=;
    eexists; (split; [reflexivity|simpl; lia]).
Defined.

Lemma levels_of_ragged : levels_of ragged_levels [[1; 1]; [2; 3; 1]].
Proof.
  split; [reflexivity|].
  intros [|[|k]] t nz Ht Hnz; simplify_eq/=; (split; [reflexivity|]);
    intros [|[|[|l]]] n ch Hn Hch; simplify_eq/=; reflexivity.
Defined.

Lemma peel_merge_levels_witness :
  _peel (merge_levels ragged_levels) [[1; 1]; [2; 3; 1]] = Ok ragged_levels.
Proof.
  apply (peel_merge_levels ragged_levels [[1; 1]; [2; 3; 1]]);
    [exact nzeta_chain_11_231|exact levels_of_ragged].
Defined.

Lemma peel_levels_are_subsets_witness :
  ∃ levels,
    _peel data [[1; 1]; [2; 3; 1]] = Ok levels
    ∧ length levels = 2
    ∧ ∀ k nz, [[1; 1]; [2; 3; 1]] !! k = Some nz →
        ∃ t, levels !! k = Some t
             ∧ _coef_subset nz (baseline [[1; 1]; [2; 3; 1]] k) data = Ok [t].
Proof.
  apply (peel_levels_are_subsets data [[1; 1]; [2; 3; 1]] [2; 3; 1]);
    [exact nzeta_chain_11_231|reflexivity|exact covers_data_231].
Defined.

Lemma peel_too_few_rows_witness :
  _peel data [[1; 1]; [4; 3]] = Raise IndexError.
Proof.
  apply (peel_too_few_rows data [[1; 1]; [4; 3]] [4; 3] 0 4);
    [reflexivity|reflexivity|simpl; lia].
Defined.

Lemma orb_matrices_no_file_witness :
  _orb_matrices (λ _, ["INPUT"; "STRU"]) (λ _, true) "Si-dimer"
  = Raise TypeError.
Proof.
  apply (orb_matrices_no_file (λ _, ["INPUT"; "STRU"]) (λ _, true) "Si-dimer").
  intros f Hf. change (f ∈ ["INPUT"; "STRU"]) in Hf.
  repeat (apply elem_of_cons in Hf as [->|Hf]; [by split|]).
  by apply elem_of_nil in Hf.
Defined.

Lemma orb_matrices_legacy_count_witness :
  _orb_matrices (λ _, ["INPUT"; "orb_matrix.0.dat"]) (λ _, true) "Si-dimer"
  = Raise (AssertionError "").
Proof.
  apply (orb_matrices_legacy_count (λ _, ["INPUT"; "orb_matrix.0.dat"])
           (λ _, true) "Si-dimer");
    [discriminate|simpl; lia].
Defined.

Lemma orb_matrices_new_pairs_witness :
  ∃ pairs,
    _orb_matrices (λ _, dir_new) (λ _, true) "Si-dimer" = Ok pairs
    ∧ (pairs ≫= λ p, [p.1; p.2])
      = sorted (path_join "Si-dimer" <$> dir_new)
    ∧ sorted (path_join "Si-dimer" <$> dir_new)
      ≡ₚ path_join "Si-dimer" <$> dir_new
    ∧ Sorted (λ a b, String.leb a b = true)
        (sorted (path_join "Si-dimer" <$> dir_new)).
Proof.
  apply (orb_matrices_new_pairs (λ _, dir_new) (λ _, true) "Si-dimer");
    [|discriminate|reflexivity].
  intros f Hf. change (f ∈ dir_new) in Hf. unfold dir_new in Hf.
  repeat (apply elem_of_cons in Hf as [->|Hf]; [reflexivity|]).
  by apply elem_of_nil in Hf.
Defined.

Lemma nzeta_mean_conf_ragged_witness :
  _nzeta_mean_conf read_folder_ragged analysis (NbandsOne (NbandInt 4))
    ["Si-dimer"; "Si-trimer"] "max" "svd-aniso-svd"
  = Raise ValueError.
Proof.
  apply (nzeta_mean_conf_ragged read_folder_ragged analysis
           (NbandsOne (NbandInt 4)) ["Si-dimer"; "Si-trimer"] "max"
           "svd-aniso-svd"
           [[1.5; 0.5]; [1; 1; 1]]%float [1.5; 0.5]%float [1; 1; 1]%float);
    [reflexivity|apply list_elem_of_here|apply list_elem_of_here
    |apply list_elem_of_further, list_elem_of_here|simpl; lia].
Defined.

Lemma nzeta_infer_nspin_mismatch_witness :
  _nzeta_infer read_folder_ragged analysis "Si-monomer" (NbandInt 4)
    "svd-aniso-svd" 1%float
  = Raise (AssertionError
             "nspin in INPUT and running_scf.log are different: 2 and 1").
Proof.
  apply (nzeta_infer_nspin_mismatch read_folder_ragged analysis
           "Si-monomer" run_nspin_mismatch (NbandInt 4) "svd-aniso-svd"
           1%float);
    [reflexivity|simpl; lia].
Defined.

Lemma nzeta_infer_single_type_witness :
  length (running_natom run_sp) = 1
  ∧ input_nspin run_sp = running_nspin run_sp.
Proof.
  apply (nzeta_infer_single_type read_folder_sp analysis_sp "Si-dimer" run_sp
           (NbandInt 4) "svd-aniso-svd" 1%float [1.5; 0.5]%float);
    reflexivity.
Defined.

Lemma nzeta_infer_nband_resolved_once_witness :
  _nzeta_infer read_folder_sp analysis_sp "Si-dimer" NbandOcc
    "svd-aniso-svd" 1%float
  = _nzeta_infer read_folder_sp analysis_sp "Si-dimer" (NbandInt 1)
      "svd-aniso-svd" 1%float
  ∧ _nzeta_infer read_folder_sp analysis_sp "Si-dimer" NbandAll
      "svd-aniso-svd" 1%float
    = _nzeta_infer read_folder_sp analysis_sp "Si-dimer" (NbandInt 4)
        "svd-aniso-svd" 1%float.
Proof.
  apply (nzeta_infer_nband_resolved_once read_folder_sp analysis_sp "Si-dimer"
           run_sp "svd-aniso-svd" 1%float
           {| wfc := ([2; 1.5], [0.5])%float; wfc_nbands := 4; wfc_kpt := 0 |}
           0 [[2; 0; 0; 0]; [2; 2; 0; 0]]%float [2; 0; 0; 0]%float);
    reflexivity.
Defined.

Lemma nzeta_infer_weighted_sum_witness :
  ∃ nb,
    (∀ n, NbandInt 3 = NbandInt n → nb = n)
    ∧ [0x1.8000000000001p+1; 0]%float
      = foldl (zip_with PrimFloat.add) (replicate 2 0%float)
          (contribution analysis_sp run_ninths "svd-aniso-svd" 1%float nb
             <$> range 0 (input_nspin run_ninths
                          * length (running_wk run_ninths)))
    ∧ length [0x1.8000000000001p+1; 0]%float = 2.
Proof.
  apply (nzeta_infer_weighted_sum read_folder_sp analysis_sp 2 ltac:(lia)
           (λ w ovlp natom nzeta pop nband thr, eq_refl)
           "Si-bulk" run_ninths (NbandInt 3) "svd-aniso-svd" 1%float
           [0x1.8000000000001p+1; 0]%float);
    [reflexivity|simpl; lia|reflexivity].
Defined.

Lemma make_guess_max_witness :
  ∃ nzeta_max,
    _make_guess [[1; 1]; [2; 2; 1]]%Z "Si-monomer-6au/OUT.Si-monomer-6au"
      true true
    = Ok (GuessJy nzeta_max true "Si-monomer-6au/OUT.Si-monomer-6au")
    ∧ (∀ orb, orb ∈ [[1; 1]; [2; 2; 1]]%Z → length orb ≤ length nzeta_max)
    ∧ (∃ orb, orb ∈ [[1; 1]; [2; 2; 1]]%Z ∧ length orb = length nzeta_max)
    ∧ (∀ orb i x, orb ∈ [[1; 1]; [2; 2; 1]]%Z → orb !! i = Some x →
         ∃ v, nzeta_max !! i = Some v ∧ (x ≤ v)%Z)
    ∧ (Forall (Forall (λ x, 0 ≤ x)%Z) [[1; 1]; [2; 2; 1]]%Z →
       ∀ i v, nzeta_max !! i = Some v →
         ∃ orb, orb ∈ [[1; 1]; [2; 2; 1]]%Z ∧ orb !! i = Some v).
Proof.
  apply (make_guess_max [[1; 1]; [2; 2; 1]]%Z
           "Si-monomer-6au/OUT.Si-monomer-6au" true true).
  discriminate.
Defined.

Lemma folders_in_range orb f :
  orb ∈ orbparams_explicit → f ∈ orb_folder orb → f < length folders.
Proof.
  intros Ho Hf. unfold orbparams_explicit in Ho.
  apply elem_of_cons in Ho as [->|Ho].
  { apply list_elem_of_singleton in Hf as ->. simpl. lia. }
  apply list_elem_of_singleton in Ho as ->. simpl in Hf.
  apply elem_of_cons in Hf as [->|Hf]; [simpl; lia|].
  apply list_elem_of_singleton in Hf as ->. simpl. lia.
Defined.

Lemma coef_opt_configs_index_witness :
  ∃ configs iconfs,
    _coef_opt_configs remove_dups orbparams_explicit folders
    = Ok (configs, iconfs)
    ∧ (∀ x, x ∈ configs
            ↔ ∃ orb, orb ∈ orbparams_explicit
                     ∧ x ∈ orb_folder orb ≫= λ f, default [] (folders !! f))
    ∧ Forall2 (λ orb ics,
                 (λ i, configs !! i) <$> ics
                 = Some <$> (orb_folder orb ≫= λ f, default [] (folders !! f)))
        orbparams_explicit iconfs.
Proof.
  apply (coef_opt_configs_index remove_dups
           (λ xs x, elem_of_remove_dups xs x) orbparams_explicit folders).
  exact folders_in_range.
Defined.

Lemma coef_opt_configs_bad_folder_witness :
  _coef_opt_configs remove_dups (orbparams_explicit ++ [orb_out_of_range])
    folders
  = Raise IndexError.
Proof.
  apply (coef_opt_configs_bad_folder remove_dups
           (orbparams_explicit ++ [orb_out_of_range]) folders
           orb_out_of_range 2);
    [do 2 apply list_elem_of_further; apply list_elem_of_here
    |apply list_elem_of_here|simpl; lia].
Defined.

Lemma nzeta_analysis_recorded_witness :
  let out := [[[0; 2; 0; 1]; [1; 2]]; [[]; []]] in
  let isks := range 0 (input_nspin run_monomer
                       * length (running_wk run_monomer)) in
  length out = input_nspin run_monomer
  ∧ Forall (λ row : list (list nat), length row = length [2; 1]) out
  ∧ (∀ s row l bands, out !! s = Some row → row !! l = Some bands →
       bands = recorded wll_stored run_monomer (1 # 10)%Q isks s l)
  ∧ (∀ s l, length (running_wk run_monomer) ≤ s →
       recorded wll_stored run_monomer (1 # 10)%Q isks s l = [])
  ∧ (∀ s l, input_nspin run_monomer ≤ s ∨ length [2; 1] ≤ l →
       recorded wll_stored run_monomer (1 # 10)%Q isks s l = [])
  ∧ (length (running_wk run_monomer) = 1 →
     ∀ l, recorded wll_stored run_monomer (1 # 10)%Q isks 0 l
          = concat ((λ isk, bands_from (1 # 10)%Q l 0
                              (wll_of wll_stored run_monomer isk)) <$> isks)).
Proof.
  apply (nzeta_analysis_recorded read_monomer wll_stored "Si-monomer"
           run_monomer (1 # 10)%Q 0 [2; 1]
           [[[0; 2; 0; 1]; [1; 2]]; [[]; []]]);
    reflexivity.
Defined.

Lemma coef_guess_jy_no_new_zeta_witness :
  _coef_guess Examples.initgen_jy Examples.initgen_pw dirname
    nzeta_analysis_monomer
    (GuessJy [2%Z; 1%Z] true "Si-monomer-6au/OUT.Si-monomer-6au")
    [1; 1] (Some [1; 1])
  = Raise (AssertionError (no_band_msg [[]])).
Proof.
  apply (coef_guess_jy_no_new_zeta Examples.initgen_jy Examples.initgen_pw
           dirname nzeta_analysis_monomer [2%Z; 1%Z] true
           "Si-monomer-6au/OUT.Si-monomer-6au" [1; 1] (Some [1; 1])
           [[[0; 2]; [1]]]);
    [reflexivity|discriminate| |].
  - intros ibsp Hin. apply list_elem_of_singleton in Hin as ->. simpl. lia.
  - intros [|[|l]] n n0 Hn Hn0; simplify_eq/=; lia.
Defined.

Lemma onion_result_entries_witness :
  let coefs := [Some [[[1]]]; None] in
  length coefs = 2
  ∧ (∀ i, i < 1 → ∃ c, coefs !! i = Some (Some c))
  ∧ (∀ i, 1 ≤ i → i < 2 → coefs !! i = Some None).
Proof.
  apply (onion_result_entries Examples.initgen_jy Examples.initgen_pw
           dirname Examples.nzeta_analysis opt_id
           [[1]; [2]] [[0]] [(); ()] [None; Some 0] 4 () pw_guess
           [Some [[[1]]]; None]).
  reflexivity.
Defined.

Lemma onion_pw_hierarchy_witness : nzeta_le [1] [2].
Proof.
  apply (onion_pw_hierarchy Examples.initgen_jy Examples.initgen_pw
           dirname Examples.nzeta_analysis opt_id
           [[1]; [2]] [[0]; [0]] [(); ()] [None; Some 0] 4 ()
           [2%Z] true "Si-monomer/orb_matrix.0.dat"
           [Some [[[1]]]; Some [[[1; 2]]]] 1 0 [2] [1]);
    [reflexivity|simpl; lia|simpl; lia|reflexivity|reflexivity|reflexivity].
Defined.

Lemma coef_gen_eye_witness :
  ∃ chans,
    _coef_gen nbes (PyFloat 6) (PyInt 100) (PyInt 1) (PyStr "eye")
    = Ok [chans]
    ∧ length chans = 2
    ∧ ∀ l ch, chans !! l = Some ch →
        length ch = l + 2
        ∧ ∀ z row, ch !! z = Some row →
            length row = l + 2
            ∧ ∀ q c, row !! q = Some c →
                c = if bool_decide (z = q) then 1%Q else 0%Q.
Proof.
  apply (coef_gen_eye nbes (PyFloat 6) (PyInt 100) (PyInt 1) (λ l, l + 2));
    [reflexivity|reflexivity|].
  intros l _. unfold nbes. f_equal. lia.
Defined.

Lemma coef_gen_only_eye_witness :
  ∃ e, _coef_gen nbes (PyFloat 6) (PyInt 100) (PyInt 1) (PyStr "identity")
       = Raise e.
Proof.
  apply (coef_gen_only_eye nbes (PyFloat 6) (PyInt 100) (PyInt 1)
           (PyStr "identity")).
  discriminate.
Defined.

Lemma coef_opt_jy_nzeta_explicit_witness :
  _coef_opt_jy_nzeta read_folder_ragged analysis orbparams_explicit
    folders
  = Ok [[1; 1]; [2; 2; 1]]%Z.
Proof.
  apply (coef_opt_jy_nzeta_explicit read_folder_ragged analysis
           orbparams_explicit folders);
    [|exact folders_in_range].
  repeat constructor; by eexists.
Defined.

Lemma coef_opt_pw_matrices_match_witness :
  Some "Si-dimer/orb_matrix_rcut6deriv0.dat"
  = fst <$> head [("Si-dimer/orb_matrix_rcut6deriv0.dat",
                   "Si-dimer/orb_matrix_rcut6deriv1.dat")]
  ∧ Forall (λ pr,
              (∃ folder pairs, folder ∈ ["Si-dimer"]
                 ∧ _orb_matrices (λ _, dir_new) (λ _, true) folder = Ok pairs
                 ∧ pr ∈ pairs)
              ∧ ∃ r r', read_orb_mat pr.1 = Ok r ∧ read_orb_mat pr.2 = Ok r'
                        ∧ (r == r')%Q ∧ (Qabs (r - 6) < 1 # 10000000000)%Q)
      [("Si-dimer/orb_matrix_rcut6deriv0.dat",
        "Si-dimer/orb_matrix_rcut6deriv1.dat")].
Proof.
  apply (coef_opt_pw_matrices_match (λ _, dir_new) (λ _, true) read_orb_mat
           config_add 6%Q ["Si-dimer"]
           [("Si-dimer/orb_matrix_rcut6deriv0.dat",
             "Si-dimer/orb_matrix_rcut6deriv1.dat")]
           (Some "Si-dimer/orb_matrix_rcut6deriv0.dat")).
  reflexivity.
Defined.
End MoreWitnesses.

(** ** Rounding in the inference, on an example *)

(** Three k-points of the weights 1/9, 7/9 and 1/9, each with three
    values above the threshold: the weighted counts add up, in binary64,
    to the number next above 3 (3 + 2^-51), and its ceiling is 4. *)
Lemma nzeta_infer_rounds_up :
  _nzeta_infer MoreExamples.read_folder_sp MoreExamples.analysis_sp "Si-bulk"
    (NbandInt 3) "svd-aniso-svd" 1%float
  = Ok [0x1.8000000000001p+1; 0]%float
  ∧ float_value 0x1.8000000000001p+1%float
    = Some (6755399441055745 # 2251799813685248)%Q
  ∧ ceil_all (FloatList [0x1.8000000000001p+1; 0]%float) = Ok [4; 0]%Z.
Proof. split_and!; vm_compute; reflexivity. Qed.
